(** * Moment statistics of PPV structures: [astrodendro/analysis.py]

    A shallow embedding of [ScalarStatistic], the [MetaData] descriptors,
    [PPVStatistic] and [ppv_catalog].

    - NumPy's float64 is Rocq's primitive binary64 [float]; the program text
      is written once against the interface [Numeric], so that the same
      definitions also run over the exact reals where a statement is about
      the algebra and not about rounding.
    - A bare Python number is an [int] or a float ([pyval]); a metadata
      dictionary is a [gmap string pyval].
    - Python exceptions are the [Raise] branch of [result]; warnings and
      printed lines are a list of [event]s.
    - Arrays that are only read are lists; where an array is written in
      place ([mom2_along]) there is also a model with a store of buffers and
      views that share them.
    - [numpy.linalg.eig], [numpy.argsort], [numpy.arctan2], [numpy.degrees],
      [numpy.radians], the power [x ** 2] of a Python float and of a NumPy
      float, [numpy.dtype] and [numpy.array] are library code: they are
      parameters of the sections that call them.
    - Where a Python int meets a float it is converted, and an int beyond
      float64 raises [OverflowError]; an int beyond the index type does the
      same in [list.pop]. *)

From Stdlib Require Import ZArith Floats Reals Lra.
From stdpp Require Import gmap strings list pretty sorting.

Set Default Proof Using "Type".

(** ** Exceptions *)

Inductive exn : Type :=
  | ValueError            (* shapes that do not broadcast, bad unpacking *)
  | IndexError
  | TypeError
  | LinAlgError
  | AttributeError
  | KeyError (msg : string)
  | RuntimeError (msg : string)
  | NotImplementedError
  | OverflowError.

Inductive result (A : Type) : Type :=
  | Ok (a : A)
  | Raise (e : exn).
Arguments Ok {A} a.
Arguments Raise {A} e.

#[global] Instance result_ret : MRet result := fun A a => Ok a.
#[global] Instance result_bind : MBind result := fun A B f r =>
  match r with
  | Ok a => f a
  | Raise e => Raise e
  end.
#[global] Instance result_fmap : FMap result := fun A B f r =>
  match r with
  | Ok a => Ok (f a)
  | Raise e => Raise e
  end.

(** A [for] loop whose body may raise: the accumulator is threaded through
    the items in order and the first exception leaves the loop. *)
Fixpoint foldM {A B : Type} (f : B -> A -> result B) (l : list A) (b : B)
  : result B :=
  match l with
  | [] => Ok b
  | a :: l' => b' ← f b a; foldM f l' b'
  end.

(** A list comprehension whose element expression may raise. *)
Fixpoint mapM {A B : Type} (f : A -> result B) (l : list A) : result (list B) :=
  match l with
  | [] => Ok []
  | a :: l' => b ← f a; bs ← mapM f l'; Ok (b :: bs)
  end.

(** ** The arithmetic the program is written against *)

Class Numeric (F : Type) : Type := {
  nzero : F;
  nunit : F;
  nadd : F -> F -> F;
  nsub : F -> F -> F;
  nmul : F -> F -> F;
  ndiv : F -> F -> F;
  nsqrt : F -> F;
  nisnan : F -> bool;
  of_Z : Z -> F;            (* int -> float promotion *)
}.

#[global] Instance numeric_inhabited {F : Type} `{Numeric F} : Inhabited F :=
  populate nzero.

Declare Scope num_scope.
Delimit Scope num_scope with num.
Infix "+" := nadd : num_scope.
Infix "-" := nsub : num_scope.
Infix "*" := nmul : num_scope.
Infix "/" := ndiv : num_scope.

(** IEEE 754 binary64, the arithmetic of [np.float]. *)
#[global] Instance float64 : Numeric float := {|
  nzero := 0%float;
  nunit := 1%float;
  nadd := PrimFloat.add;
  nsub := PrimFloat.sub;
  nmul := PrimFloat.mul;
  ndiv := PrimFloat.div;
  nsqrt := PrimFloat.sqrt;
  nisnan := PrimFloat.is_nan;
  of_Z := fun z => SF2Prim (binary_normalize prec emax z 0 false);
|}.

(** Exact real arithmetic: no NaN, no rounding. *)
#[global] Instance exact : Numeric R := {|
  nzero := 0%R;
  nunit := 1%R;
  nadd := Rplus;
  nsub := Rminus;
  nmul := Rmult;
  ndiv := Rdiv;
  nsqrt := R_sqrt.sqrt;
  nisnan := fun _ => false;
  of_Z := IZR;
|}.

(** ** Ints that meet floats

    Where a Python int meets a float, the int is converted first: to the
    nearest float64, or, when that lies beyond the largest float64, not at
    all: the operation raises [OverflowError].  [fits z] says that [z]
    converts.  Over the reals every int does. *)

Class Promote (F : Type) : Type := fits : Z -> bool.

#[global] Instance float64_promote : Promote float :=
  fun z => PrimFloat.is_finite (SF2Prim (binary_normalize prec emax z 0 false)).

#[global] Instance exact_promote : Promote R := fun _ => true.

(** ** Python numbers

    A bare metadata value is a Python [int] or a float.  Arithmetic between
    two ints stays in the integers; any float operand promotes the other. *)

Inductive pyval (F : Type) : Type :=
  | PyInt (z : Z)
  | PyNum (x : F).
Arguments PyInt {F} z.
Arguments PyNum {F} x.

Section Arrays.
Context {F : Type} `{Numeric F} `{Promote F}.
Local Open Scope num_scope.

Definition to_float (v : pyval F) : F :=
  match v with
  | PyInt z => of_Z z
  | PyNum x => x
  end.

(** The operand [v] of an operation whose other operand is a float. *)
Definition checked_float (v : pyval F) : result F :=
  match v with
  | PyInt z => if fits z then Ok (of_Z z) else Raise OverflowError
  | PyNum x => Ok x
  end.

(** [a * b] and [a - b].  Two ints give an int, of any size; a float
    operand makes the result a float, and the product or difference of two
    floats never raises. *)
Definition py_mul (a b : pyval F) : result (pyval F) :=
  match a, b with
  | PyInt x, PyInt y => Ok (PyInt (x * y)%Z)
  | _, _ => x ← checked_float a; y ← checked_float b; Ok (PyNum (x * y))
  end.

Definition py_sub (a b : pyval F) : result (pyval F) :=
  match a, b with
  | PyInt x, PyInt y => Ok (PyInt (x - y)%Z)
  | _, _ => x ← checked_float a; y ← checked_float b; Ok (PyNum (x - y))
  end.

(** *** One-dimensional arrays *)

Abbreviation matrix := (list (list F)).

(** An element-wise binary operator on two 1-D arrays, with NumPy's
    broadcasting: equal lengths pair up, a length-1 operand is stretched,
    anything else is a shape error. *)
Definition broadcast2 (f : F -> F -> F) (a b : list F) : result (list F) :=
  match a, b with
  | [x], _ => Ok (map (f x) b)
  | _, [y] => Ok (map (fun x => f x y) a)
  | _, _ =>
      if decide (length a = length b) then Ok (zip_with f a b)
      else Raise ValueError
  end.

(** [np.sum] of a 1-D array.  The reduction starts from the first element
    and adds the others in index order; NumPy is free to group a long sum
    differently, and the statements below that are proved for every
    arithmetic hold for any such order that is used consistently. *)
Definition np_sum (a : list F) : F :=
  match a with
  | [] => nzero
  | x :: r => fold_left nadd r x
  end.

(** [np.nansum]: the sum, with every NaN entry counted as zero.  (Before
    NumPy 1.9 the sum of an array with nothing but NaN entries was NaN.) *)
Definition nansum (a : list F) : F :=
  np_sum (map (fun x => if nisnan x then nzero else x) a).

(** An [n] by [n] array. *)
Definition dims (n : nat) (r : matrix) : Prop :=
  length r = n ∧ Forall (fun row => length row = n) r.

(** [np.zeros((n, m))] *)
Definition zeros (n m : nat) : matrix := replicate n (replicate m nzero).

(** [r[i, j] = x] *)
Definition set2 (r : matrix) (i j : nat) (x : F) : matrix :=
  alter (fun row => <[j := x]> row) i r.

(** [r[i, j]] *)
Definition get2 (r : matrix) (i j : nat) : option F :=
  row ← r !! i; row !! j.

(** [v[:, o]] *)
Definition column (v : matrix) (o : nat) : result (list F) :=
  mapM (fun row => match row !! o with
                   | Some x => Ok x
                   | None => Raise IndexError
                   end) v.

(** The inner product of two rows of the same length, accumulated in index
    order. *)
Definition dot1 (a b : list F) : F :=
  fold_left nadd (zip_with nmul a b) nzero.

(** The columns [0 .. n-1] of [m], as rows: [m.T] for an [m] with [n]
    columns. *)
Definition transpose (m : matrix) (n : nat) : matrix :=
  map (fun j => omap (fun row => row !! j) m) (seq 0 n).

(** [np.dot(a, b)] of two 2-D arrays, [a] with [q] columns and [b] with
    [p] columns: the inner dimensions must agree.  The sums of products are
    accumulated in index order. *)
Definition dot (a : matrix) (q : nat) (b : matrix) (p : nat) : result matrix :=
  if Nat.eqb q (length b)
  then Ok (map (fun row => map (dot1 row) (transpose b p)) a)
  else Raise ValueError.

(** [np.linalg.norm] of a 1-D array *)
Definition norm (row : list F) : F :=
  nsqrt (np_sum (map (fun x => x * x) row)).

End Arrays.

(** ** ScalarStatistic *)

Record ScalarStatistic (F : Type) : Type := mkScalarStatistic {
  values : list F;
  indices : list (list F);
}.
Arguments mkScalarStatistic {F} values indices.
Arguments values {F} s.
Arguments indices {F} s.

Section ScalarStatistic.
Context {F : Type} `{Numeric F} `{Promote F}.
Local Open Scope num_scope.

(** [ScalarStatistic.__init__]: [astype] copies the value array as
    float64, the index tuple is stored as it is.  Coordinates enter every
    later expression through NumPy's int-to-float promotion, so the
    embedding holds them as the promoted values. *)
Definition __init__ (vals : list F) (idx : list (list F))
  : result (ScalarStatistic F) :=
  Ok (mkScalarStatistic vals idx).

Definition mom0 (self : ScalarStatistic F) : F :=
  nansum (values self).

Definition mom1 (self : ScalarStatistic F) : result (list F) :=
  let m0 := mom0 self in
  mapM (fun i => iv ← broadcast2 nmul i (values self);
                 Ok (nansum iv / m0)) (indices self).

(** The body of the inner loop of [mom2]:
    [result[i, j] = result[j, i] = np.nansum(v * zyx[i] * zyx[j])]. *)
Definition mom2_inner (v : list F) (zyx : list (list F)) (i : nat)
    (r : list (list F)) (j : nat) : result (list (list F)) :=
  match zyx !! i, zyx !! j with
  | Some zi, Some zj =>
      vz ← broadcast2 nmul v zi;
      vzz ← broadcast2 nmul vz zj;
      let x := nansum vzz in
      Ok (set2 (set2 r i j x) j i x)
  | _, _ => Raise IndexError
  end.

(** The body of the outer loop of [mom2]. *)
Definition mom2_outer (v : list F) (zyx : list (list F)) (nd : nat)
    (r : list (list F)) (i : nat) : result (list (list F)) :=
  match zyx !! i with
  | Some zi =>
      vz ← broadcast2 nmul v (map (fun z => z * z) zi);
      let r := set2 r i i (nansum vz) in
      foldM (mom2_inner v zyx i) (seq (S i) (nd - S i)) r
  | None => Raise IndexError
  end.

Definition mom2 (self : ScalarStatistic F) : result (list (list F)) :=
  mom1 ← mom1 self;
  let mom0 := mom0 self in
  let v := map (fun x => x / mom0) (values self) in
  let nd := length (indices self) in
  let zyx := zip_with (fun i m => map (fun c => c - m) i) (indices self) mom1 in
  foldM (mom2_outer v zyx nd) (seq 0 nd) (zeros nd nd).

Definition count (self : ScalarStatistic F) : nat := length (values self).

(** What the loops of [mom2] store at [(i, j)], for weights [v] and
    offsets [zyx]: the entry is computed once, for the smaller index
    first, and written to both places. *)
Definition cov_entry (v : list F) (zyx : list (list F)) (i j : nat) : F :=
  if decide (i = j)
  then nansum (zip_with nmul v (map (fun z => z * z) (zyx !!! i)))
  else nansum (zip_with nmul (zip_with nmul v (zyx !!! (i `min` j)))
                 (zyx !!! (i `max` j))).

(** The pixel weights [value / mom0()] and the offsets
    [coord - mom1] that the statements about [mom2] speak of. *)
Definition weights (self : ScalarStatistic F) : list F :=
  map (fun x => x / mom0 self) (values self).

Definition deviation (coord : list F) (m : F) : list F :=
  map (fun c => c - m) coord.

(** The invariant of a sample set: every coordinate array is as long as
    the value array. *)
Definition sample_aligned (self : ScalarStatistic F) : Prop :=
  Forall (fun c => length c = length (values self)) (indices self).

Definition surface_area (self : ScalarStatistic F) : result F :=
  Raise NotImplementedError.

Definition perimeter (self : ScalarStatistic F) : result F :=
  Raise NotImplementedError.

End ScalarStatistic.

(** *** Directions, projections and principal axes *)

(** What [mom2_along] accepts: one direction or a list of directions, whose
    entries are ints or floats. *)
Inductive arraylike (F : Type) : Type :=
  | Vec (l : list (pyval F))
  | Rows (l : list (list (pyval F))).
Arguments Vec {F} l.
Arguments Rows {F} l.

(** What [mom2_along] returns: [np.asscalar] unwraps a 1x1 product. *)
Inductive ndresult (F : Type) : Type :=
  | Scalar (x : F)
  | Matrix (m : list (list F)).
Arguments Scalar {F} x.
Arguments Matrix {F} m.

Section Projections.
Context {F : Type} `{Numeric F} `{Promote F}.
Local Open Scope num_scope.

(** [np.linalg.eig]: eigenvalues and the matrix whose columns are the
    eigenvectors, or [LinAlgError]. *)
Variable eig : list (list F) -> result (list F * list (list F)).
(** [np.argsort] *)
Variable argsort : list F -> list nat.

(** [np.atleast_2d(direction).astype(np.float)]: a fresh float64 array
    with one row per direction, and the number of its columns. *)
Definition atleast_2d_float (direction : arraylike F)
  : result (list (list F) * nat) :=
  match direction with
  | Vec l => Ok ([map to_float l], length l)
  | Rows [] => Ok ([[]], 0)
  | Rows (r :: rs) =>
      if forallb (fun r' => Nat.eqb (length r') (length r)) rs
      then Ok (map (map to_float) (r :: rs), length r)
      else Raise ValueError
  end.

(** [row /= np.linalg.norm(row)] *)
Definition normalize (row : list F) : list F :=
  let n := norm row in map (fun x => x / n) row.

(** [np.dot(np.dot(w, self.mom2()), w.T)] for a [w] with [n] columns,
    unwrapped by [np.asscalar] when it has a single entry. *)
Definition project (self : ScalarStatistic F) (w : list (list F)) (n : nat)
  : result (ndresult F) :=
  m ← mom2 self;
  let nd := length (indices self) in
  wm ← dot w n m nd;
  r ← dot wm nd (transpose w n) (length w);
  match r with
  | [[x]] => Ok (Scalar x)
  | _ => Ok (Matrix r)
  end.

Definition mom2_along (self : ScalarStatistic F) (direction : arraylike F)
  : result (ndresult F) :=
  '(w, n) ← atleast_2d_float direction;
  project self (map normalize w) n.

Definition paxes (self : ScalarStatistic F) : result (list (list F)) :=
  mom2 ← mom2 self;
  '(w, v) ← eig mom2;
  let order := argsort w in
  mapM (column v) (reverse order).

Definition projected_paxes (self : ScalarStatistic F) (axes : arraylike F)
  : result (list (list F)) :=
  mom2 ← mom2_along self axes;
  match mom2 with
  | Scalar _ => Raise LinAlgError
  | Matrix m =>
      '(w, v) ← eig m;
      let order := argsort w in
      mapM (column v) (reverse order)
  end.

End Projections.

(** *** What the callers expect of [np.linalg.eig] and [np.argsort] *)

Section Contracts.
Context {F : Type} `{Numeric F} `{Promote F}.
Local Open Scope num_scope.

(** Exact arithmetic: the laws of the real numbers that float64 does not
    obey (its products and sums are rounded, and it has NaN), and every int
    converts. *)
Definition exact_arithmetic : Prop :=
  (∀ x y : F, x * y = y * x)
  ∧ (∀ x y z : F, x * (y * z) = (x * y) * z)
  ∧ (∀ x y z : F, x * (y + z) = x * y + x * z)
  ∧ (∀ x : F, x * nzero = nzero)
  ∧ (∀ x : F, x * nunit = x)
  ∧ (∀ x : F, nzero + x = x)
  ∧ (∀ x : F, ndiv x nunit = x)
  ∧ nsqrt nunit = nunit
  ∧ (∀ x : F, nisnan x = false)
  ∧ (∀ z : Z, fits z = true).

(** A direction of length one. *)
Definition is_unit (x : list F) : Prop :=
  np_sum (map (fun z => z * z) x) = nunit.

(** [m . x = lam x], row by row. *)
Definition is_eigenvector (m : list (list F)) (lam : F) (x : list F) : Prop :=
  length x = length m
  ∧ ∀ i row xi, m !! i = Some row -> x !! i = Some xi -> dot1 row x = lam * xi.

(** [lam] is an eigenvalue of [m]: [m] scales some direction of length one
    by it. *)
Definition eigenvalue (m : list (list F)) (lam : F) : Prop :=
  ∃ x, is_unit x ∧ is_eigenvector m lam x.

(** [eig(m)] has answered [(w, v)]: one eigenvalue per row of [m], and the
    [k]-th column of [v] is a unit eigenvector for the [k]-th of them. *)
Definition eig_contract (m : list (list F)) (w : list F) (v : list (list F))
  : Prop :=
  length w = length m ∧ dims (length m) v
  ∧ ∀ k lam x, w !! k = Some lam -> column v k = Ok x ->
               is_unit x ∧ is_eigenvector m lam x.

(** [argsort(w)] has answered [order]: the indices of [w], in an order in
    which the entries of [w] do not decrease. *)
Definition argsort_contract (le : F -> F -> Prop) (w : list F)
    (order : list nat) : Prop :=
  order ≡ₚ seq 0 (length w)
  ∧ ∀ a b oa ob, a ≤ b -> order !! a = Some oa -> order !! b = Some ob ->
                 le (w !!! oa) (w !!! ob).

End Contracts.

(** *** [mom2_along] on arrays in memory

    The caller's direction may be a NumPy array.  Arrays live in a store of
    buffers; an [ndarray] is a view on a buffer, and several views can share
    one buffer.  [np.atleast_2d] answers with a view on the caller's buffer,
    [astype] allocates a new buffer, and [row /= ...] writes through the row
    view into the buffer it belongs to. *)

Record ndarray : Type := mkNdarray {
  buf : nat;                 (* the buffer the view reads and writes *)
  nrows : option nat;        (* [None] for a 1-D array *)
  ncols : nat;
}.

Section Store.
Context {F : Type} `{Numeric F} `{Promote F}.
Local Open Scope num_scope.

Abbreviation store := (gmap nat (list (pyval F))).

(** The first [k] rows of length [n] of a flat buffer. *)
Fixpoint chunk {A : Type} (k n : nat) (l : list A) : list (list A) :=
  match k with
  | 0 => []
  | S k' => take n l :: chunk k' n (drop n l)
  end.

(** [np.atleast_2d(a)] for a 1-D or 2-D array: the same buffer, seen with
    two dimensions. *)
Definition atleast_2d (a : ndarray) : ndarray :=
  match nrows a with
  | None => mkNdarray (buf a) (Some 1) (ncols a)
  | Some _ => a
  end.

Definition rows_of (a : ndarray) : nat :=
  match nrows a with
  | None => 1
  | Some k => k
  end.

(** [a.astype(np.float)]: the converted data goes to a buffer that was not
    in the store before. *)
Definition astype_float (h : store) (a : ndarray) (data : list (pyval F))
  : store * ndarray :=
  let l := fresh (dom h) in
  (<[l := map (fun v => PyNum (to_float v)) data]> h,
   mkNdarray l (nrows a) (ncols a)).

(** What [row /= np.linalg.norm(row)] does to the data of a buffer with
    rows of length [n], for the row view at index [r]: the entries of that
    row are replaced, the others are kept. *)
Definition divide_row (n r : nat) (data : list (pyval F)) : list (pyval F) :=
  let row := map to_float (take n (drop (r * n) data)) in
  take (r * n) data ++ map PyNum (normalize row) ++ drop (r * n + n) data.

(** [row /= np.linalg.norm(row)] for the view [row = w[r]]: the write goes
    to the buffer of [w]. *)
Definition normalize_row (w : ndarray) (h : store) (r : nat) : store :=
  alter (divide_row (ncols w) r) (buf w) h.

(** How the caller's array reads as an argument of [mom2_along]. *)
Definition as_arraylike (a : ndarray) (data : list (pyval F)) : arraylike F :=
  match nrows a with
  | None => Vec data
  | Some k => Rows (chunk k (ncols a) data)
  end.

Definition read_matrix (h : store) (w : ndarray) : option (list (list F)) :=
  data ← h !! buf w;
  Some (map (map to_float) (chunk (rows_of w) (ncols w) data)).

(** [mom2_along(direction)] for a [direction] that is an array of the
    store: the store it leaves and what it returns. *)
Definition mom2_along_st (self : ScalarStatistic F) (h : store)
    (direction : ndarray) : store * result (ndresult F) :=
  match h !! buf direction with
  | None => (h, Raise ValueError)
  | Some data =>
      let '(h1, w) := astype_float h (atleast_2d direction) data in
      let h2 := foldl (normalize_row w) h1 (seq 0 (rows_of w)) in
      match read_matrix h2 w with
      | None => (h2, Raise ValueError)
      | Some wm => (h2, project self wm (ncols w))
      end
  end.

(** The loop of [mom2_along] run on the view [np.atleast_2d(direction)]
    itself, that is, with the [astype] copy left out. *)
Definition normalize_in_place (h : store) (direction : ndarray) : store :=
  let w := atleast_2d direction in
  foldl (normalize_row w) h (seq 0 (rows_of w)).

End Store.

(** ** MetaData descriptors *)

Record MetaData (F : Type) : Type := mkMetaData {
  key : string;
  description : string;
  default : pyval F;
  strict : bool;
}.
Arguments mkMetaData {F} key description default strict.
Arguments key {F} m.
Arguments description {F} m.
Arguments default {F} m.
Arguments strict {F} m.

(** What [warnings.warn] and [print] leave behind, in order.  [EvStruct i]
    is a ghost event: it marks the start of the loop iteration of
    [ppv_catalog] for the [i]-th structure. *)
Inductive event : Type :=
  | EvWarn (msg : string)
  | EvPrint (fields : list string)
  | EvStruct (i : nat).

(** The separator of the message lines: a newline and a tab. *)
Definition nl_tab : string := String (Ascii.ascii_of_nat 10) (String (Ascii.ascii_of_nat 9) EmptyString).

(** The text [s] occurs in the text [t]. *)
Definition contains (s t : string) : Prop := ∃ pre post, t = pre +:+ s +:+ post.

Section MetaData.
Context {F : Type}.
(** [str] of a float, as the [%s] conversion prints it. *)
Variable str_float : F -> string.

Definition str_pyval (v : pyval F) : string :=
  match v with
  | PyInt z => pretty z
  | PyNum x => str_float x
  end.

(** [MetaData.__init__] with its keyword defaults left to the caller:
    an empty description becomes ['no description']. *)
Definition MetaData_init (key description : string) (default : pyval F)
    (strict : bool) : MetaData F :=
  mkMetaData key
    (if decide (description = EmptyString) then "no description" else description)
    default strict.

(** [MetaData.__str__] *)
Definition MetaData_str (self : MetaData F) : string :=
  key self +:+ " (" +:+ description self +:+ ")".

(** [MetaData.__get__] on an instance carrying the dictionary [metadata]. *)
Definition __get__ (self : MetaData F) (metadata : gmap string (pyval F))
  : result (pyval F) :=
  if strict self && bool_decide (metadata !! key self = None)
  then Raise (KeyError ("Required metadata item not found: " +:+ MetaData_str self))
  else Ok (match metadata !! key self with
           | Some v => v
           | None => default self
           end).

(** [cl] is the list of the [MetaData] values of the class dictionary, in
    its iteration order. *)
Definition _missing_metadata (cl : list (MetaData F))
    (md : gmap string (pyval F)) : list (MetaData F) :=
  filter (fun m => md !! key m = None) cl.

Definition required_message (required : list (MetaData F)) : string :=
  "The following missing metadata items are required:" +:+ nl_tab +:+
  String.concat nl_tab (map MetaData_str required).

Definition warning_message (m : MetaData F) : string :=
  "Missing Metadata:" +:+ nl_tab +:+ " " +:+ MetaData_str m +:+ nl_tab +:+
  " Defaulting to " +:+ key m +:+ "=" +:+ str_pyval (default m).

(** The warnings emitted, in order, and the outcome. *)
Definition _warn_missing_metadata (cl : list (MetaData F))
    (md : gmap string (pyval F)) : list event * result unit :=
  let missing := _missing_metadata cl md in
  if Nat.eqb (length missing) 0 then ([], Ok tt)
  else
    let required := filter (fun m => strict m = true) missing in
    if negb (Nat.eqb (length required) 0)
    then ([], Raise (RuntimeError (required_message required)))
    else (map (fun m => EvWarn (warning_message m)) missing, Ok tt).

End MetaData.

(** ** PPVStatistic

    Metadata values are bare numbers: the optional [astropy] quantities are
    outside the embedding, so [_qsplit] always answers with the unit [1]. *)

Record PPVStatistic (F : Type) : Type := mkPPVStatistic {
  stat : ScalarStatistic F;
  metadata : gmap string (pyval F);
}.
Arguments mkPPVStatistic {F} stat metadata.
Arguments stat {F} p.
Arguments metadata {F} p.

(** The value of one catalog field: a number, or the pair of tagged axes of
    [_sky_paxes]. *)
Inductive field_value (F : Type) : Type :=
  | FNum (v : pyval F)
  | FAxes (a b : list (pyval F)).
Arguments FNum {F} v.
Arguments FAxes {F} a b.

Section PPVStatistic.
Context {F : Type} `{Numeric F} `{Promote F}.
Local Open Scope num_scope.

Variable eig : list (list F) -> result (list F * list (list F)).
Variable argsort : list F -> list nat.
Variable arctan2 : F -> F -> F.
Variable degrees : F -> F.
(** [np.radians(1)] *)
Variable radians1 : F.
(** [x ** 2] for a Python float [x]: the C library's [pow(x, 2.0)], which
    need not be the rounded product [x * x], and [OverflowError] when the
    result is out of range. *)
Variable float_pow2 : F -> result F.
(** [x ** 2] for a NumPy float64 scalar [x]: NumPy's power, which need not
    be the rounded product either, and which overflows to infinity without
    raising. *)
Variable np_pow2 : F -> F.
Variable str_float : F -> string.

Definition dx : MetaData F :=
  MetaData_init "dx" "Angular length of a pixel" (PyInt 1) false.
Definition dv : MetaData F :=
  MetaData_init "dv" "Velocity channel width" (PyInt 1) false.
Definition vaxis : MetaData F :=
  MetaData_init "vaxis" "Index of velocity axis (numpy convention)" (PyInt 1) false.
Definition bmaj : MetaData F :=
  MetaData_init "bmaj" "Beam major axis, sigma" (PyInt 0) false.
Definition bmin : MetaData F :=
  MetaData_init "bmin" "Beam minor axis, sigma" (PyInt 0) false.
Definition bunit : MetaData F :=
  MetaData_init "bunit" "Unit of intensity" (PyInt 1) false.
Definition dist : MetaData F :=
  MetaData_init "dist" "Distance" (PyInt 1) false.

(** The [MetaData] values of [PPVStatistic.__dict__]. *)
Definition PPVStatistic_descriptors : list (MetaData F) :=
  [dx; dv; vaxis; bmaj; bmin; bunit; dist].

(** [self.<d>] for a descriptor [d] of the class. *)
Definition attr (d : MetaData F) (self : PPVStatistic F) : result (pyval F) :=
  __get__ d (metadata self).

(** What reading the field [d] gives on the record [md] when the field is
    not strict: the entry, or the default. *)
Definition read_field (d : MetaData F) (md : gmap string (pyval F)) : pyval F :=
  match md !! key d with
  | Some x => x
  | None => default d
  end.

(** [x ** 2] for a metadata value: exact on an int, the library's power on
    a float. *)
Definition py_sq (a : pyval F) : result (pyval F) :=
  match a with
  | PyInt x => Ok (PyInt (x * x)%Z)
  | PyNum x => PyNum <$> float_pow2 x
  end.

(** [x ** 2] for what [sky_maj] and [sky_min] return, a NumPy float64. *)
Definition np_sq (a : pyval F) : pyval F :=
  match a with
  | PyInt x => PyInt (x * x)%Z
  | PyNum x => PyNum (np_pow2 x)
  end.

(** The factor [bunit * dx ** 2 * dv] of [flux], a function of the metadata
    alone. *)
Definition flux_factor (md : gmap string (pyval F)) : result (pyval F) :=
  sq ← py_sq (read_field dx md);
  t ← py_mul (read_field bunit md) sq;
  py_mul t (read_field dv md).

(** An index into a Python list of length [n], for [l[v]] and
    [l[v] = x]: an int, counted from the end when negative; an int of any
    size that is out of range is an [IndexError]. *)
Definition py_index (n : nat) (v : pyval F) : result nat :=
  match v with
  | PyInt i =>
      if (0 <=? i)%Z && (i <? Z.of_nat n)%Z then Ok (Z.to_nat i)
      else if (- Z.of_nat n <=? i)%Z && (i <? 0)%Z then Ok (Z.to_nat (i + Z.of_nat n))
      else Raise IndexError
  | PyNum _ => Raise TypeError
  end.

(** Whether an int fits the index type [Py_ssize_t] of a 64-bit build. *)
Definition fits_ssize (i : Z) : bool :=
  (- 2 ^ 63 <=? i)%Z && (i <? 2 ^ 63)%Z.

(** [l.pop(v)], keeping the list that is left.  The argument is converted
    to [Py_ssize_t] first: an int beyond it is an [OverflowError], and only
    then is the index looked at. *)
Definition list_pop {A : Type} (l : list A) (v : pyval F) : result (list A) :=
  match v with
  | PyInt i =>
      if fits_ssize i then i ← py_index (length l) v; Ok (delete i l)
      else Raise OverflowError
  | PyNum _ => Raise TypeError
  end.

Definition _qsplit (q : pyval F) : pyval F * pyval F := (PyInt 1, q).

(** [np.sqrt] of a number *)
Definition np_sqrt (v : pyval F) : F := nsqrt (to_float v).

Definition flux (self : PPVStatistic F) : result (pyval F) :=
  bunit ← attr bunit self;
  dx ← attr dx self;
  sq ← py_sq dx;
  t ← py_mul bunit sq;
  dv ← attr dv self;
  fac ← py_mul t dv;
  py_mul fac (PyNum (mom0 (stat self))).

(** The [try] block reads [dx] and finds no [unit] on the bare number. *)
Definition luminosity (self : PPVStatistic F) : result (pyval F) :=
  _ ← attr dx self;
  let fac := radians1 in
  dist ← attr dist self;
  d2 ← py_sq dist;
  flux ← flux self;
  t ← py_mul d2 flux;
  py_mul t (PyNum (np_pow2 fac)).

Definition _sky_paxes (self : PPVStatistic F)
  : result (list (pyval F) * list (pyval F)) :=
  vaxis ← attr vaxis self;
  ax ← list_pop [[PyInt 1; PyInt 0; PyInt 0];
                 [PyInt 0; PyInt 1; PyInt 0];
                 [PyInt 0; PyInt 0; PyInt 1]] vaxis;
  ab ← projected_paxes eig argsort (stat self) (Rows ax);
  match ab with
  | [a; b] => Ok (vaxis :: map PyNum a, vaxis :: map PyNum b)
  | _ => Raise ValueError
  end.

(** [d * np.sqrt(self.stat.mom2_along(direction))].  One direction gives a
    1x1 product, which [mom2_along] unwraps (see [mom2_along_Vec]); the
    other branch is never taken. *)
Definition scaled_sqrt_along (self : PPVStatistic F) (d : pyval F)
    (direction : list (pyval F)) : result (pyval F) :=
  m ← mom2_along (stat self) (Vec direction);
  match m with
  | Scalar x => py_mul d (PyNum (nsqrt x))
  | Matrix _ => Raise TypeError
  end.

Definition sky_maj (self : PPVStatistic F) : result (pyval F) :=
  dx ← attr dx self;
  '(a, b) ← _sky_paxes self;
  scaled_sqrt_along self dx a.

Definition sky_min (self : PPVStatistic F) : result (pyval F) :=
  dx ← attr dx self;
  '(a, b) ← _sky_paxes self;
  scaled_sqrt_along self dx b.

Definition sky_rad (self : PPVStatistic F) : result (pyval F) :=
  maj ← sky_maj self;
  let '(u, a) := _qsplit maj in
  mi ← sky_min self;
  let '(u, b) := _qsplit mi in
  ab ← py_mul a b;
  py_mul u (PyNum (np_sqrt ab)).

Definition vrms (self : PPVStatistic F) : result (pyval F) :=
  vaxis ← attr vaxis self;
  i ← py_index 3 vaxis;
  let ax := <[i := PyInt 1]> [PyInt 0; PyInt 0; PyInt 0] in
  dv ← attr dv self;
  scaled_sqrt_along self dv ax.

Definition sky_deconvolved_rad (self : PPVStatistic F) : result (pyval F) :=
  bmaj ← attr bmaj self;
  bmin ← attr bmin self;
  beam ← py_mul bmaj bmin;
  maj ← sky_maj self;
  let '(u, a) := _qsplit maj in
  mi ← sky_min self;
  let '(u, b) := _qsplit mi in
  da ← py_sub (np_sq a) beam;
  db ← py_sub (np_sq b) beam;
  py_mul u (PyNum (nsqrt (np_sqrt da * np_sqrt db))).

(** The two arguments that [sky_pa] hands to [np.arctan2]. *)
Definition sky_pa_args (self : PPVStatistic F) : result (pyval F * pyval F) :=
  '(a, b) ← _sky_paxes self;
  vaxis ← attr vaxis self;
  a ← list_pop a vaxis;
  match a with
  | a0 :: a1 :: _ => Ok (a0, a1)
  | _ => Raise IndexError
  end.

Definition sky_pa (self : PPVStatistic F) : result (pyval F) :=
  '(a0, a1) ← sky_pa_args self;
  Ok (PyNum (degrees (arctan2 (to_float a0) (to_float a1)))).

(** *** ppv_catalog *)

(** The public functions of [PPVStatistic.__dict__]. *)
Definition default_fields : list string :=
  ["flux"; "luminosity"; "sky_maj"; "sky_min"; "sky_rad"; "vrms";
   "sky_deconvolved_rad"; "sky_pa"].

(** [getattr(stat, lbl)()] for the attributes the class body defines;
    attributes inherited from [object] are not modelled. *)
Definition call_field (self : PPVStatistic F) (lbl : string)
  : result (field_value F) :=
  if decide (lbl = "flux") then FNum <$> flux self
  else if decide (lbl = "luminosity") then FNum <$> luminosity self
  else if decide (lbl = "sky_maj") then FNum <$> sky_maj self
  else if decide (lbl = "sky_min") then FNum <$> sky_min self
  else if decide (lbl = "sky_rad") then FNum <$> sky_rad self
  else if decide (lbl = "vrms") then FNum <$> vrms self
  else if decide (lbl = "sky_deconvolved_rad") then FNum <$> sky_deconvolved_rad self
  else if decide (lbl = "sky_pa") then FNum <$> sky_pa self
  else if decide (lbl = "_sky_paxes") then
    (fun ab => FAxes ab.1 ab.2) <$> _sky_paxes self
  else if decide (lbl ∈ ["dx"; "dv"; "vaxis"; "bmaj"; "bmin"; "bunit"; "dist";
                         "stat"; "metadata"; "__init__"])
  then Raise TypeError
  else Raise AttributeError.

(** [dict((lbl, getattr(stat, lbl)()) for lbl in fields)] *)
Definition record_of (self : PPVStatistic F) (fields : list string)
  : result (gmap string (field_value F)) :=
  foldM (fun d lbl => v ← call_field self lbl; Ok (<[lbl := v]> d)) fields ∅.

(** The loop over the structures, from the [i]-th on. *)
Fixpoint catalog_loop (structures : list (list F * list (list F)))
    (md : gmap string (pyval F)) (fields : list string) (i : nat)
    (acc : list (gmap string (field_value F)))
  : list event * result (list (gmap string (field_value F))) :=
  match structures with
  | [] => ([], Ok acc)
  | struct :: rest =>
      match (stat ← __init__ struct.1 struct.2;
             record_of (mkPPVStatistic stat md) fields) with
      | Raise e => ([EvStruct i], Raise e)
      | Ok rec =>
          let '(evs, r) := catalog_loop rest md fields (S i) (acc ++ [rec]) in
          (EvStruct i :: evs, r)
      end
  end.

(** The table constructor that [_build_table] ends in ([astropy]'s
    [Table] or a structured [np.array]). *)
Variable T : Type.
Variable Table : list (gmap string (field_value F)) -> result T.

(** Both converters start with [data[0].keys()]. *)
Definition _build_table (data : list (gmap string (field_value F))) : result T :=
  match data with
  | [] => Raise IndexError
  | _ => Table data
  end.

Definition ppv_catalog (structures : list (list F * list (list F)))
    (md : gmap string (pyval F)) (fields : option (list string))
  : list event * result T :=
  let '(warns, checked) := _warn_missing_metadata str_float PPVStatistic_descriptors md in
  match checked with
  | Raise e => (warns, Raise e)
  | Ok _ =>
      let fields := match fields with
                    | Some (f :: fs) => f :: fs
                    | _ => default_fields
                    end in
      let '(evs, r) := catalog_loop structures md fields 0 [] in
      (warns ++ EvPrint fields :: evs, r ≫= _build_table)
  end.

End PPVStatistic.

(** ** The rest of the module

    The classes that are declared but not implemented, the two converters
    behind [_build_table], and the notions that the properties of the
    second part are stated with. *)

(** [VectorStatistic.__init__] *)
Definition VectorStatistic_init {A B : Type} (values_tuple : A) (indices : B)
  : result unit :=
  Raise NotImplementedError.

(** [PPPStatistics.__init__] *)
Definition PPPStatistics_init {A B C : Type} (rhostat : A) (vstat : B)
    (metadata : C) : result unit :=
  Raise NotImplementedError.

Section Shapes.
Context {F : Type} `{Numeric F} `{Promote F}.

(** Two 1-D shapes that NumPy can combine element by element. *)
Definition broadcastable (a b : list F) : bool :=
  Nat.eqb (length a) 1 || Nat.eqb (length b) 1 || Nat.eqb (length a) (length b).

(** The sample set with every value multiplied by [c], and the one with the
    [k]-th coordinate array shifted by the [k]-th entry of [ts]. *)
Definition scale_values (c : F) (s : ScalarStatistic F) : ScalarStatistic F :=
  mkScalarStatistic (map (nmul c) (values s)) (indices s).

Definition shift_indices (ts : list F) (s : ScalarStatistic F)
  : ScalarStatistic F :=
  mkScalarStatistic (values s)
    (zip_with (fun idx t => map (fun x => nadd x t) idx) (indices s) ts).

(** The direction, or the directions, [d] with every entry multiplied by
    [c]. *)
Definition scale_direction (c : F) (d : arraylike F) : arraylike F :=
  match d with
  | Vec l => Vec (map (fun v => PyNum (nmul c (to_float v))) l)
  | Rows rs => Rows (map (map (fun v => PyNum (nmul c (to_float v)))) rs)
  end.

(** [m] without its [i]-th row and its [i]-th column. *)
Definition minor (i : nat) (m : list (list F)) : list (list F) :=
  map (delete i) (delete i m).

(** The [i]-th row of the identity, as a Python list of ints. *)
Definition basis_row (n i : nat) : list (pyval F) :=
  <[i := PyInt 1]> (replicate n (PyInt 0)).

(** The identity, as the list of its rows. *)
Definition identity_rows (n : nat) : list (list (pyval F)) :=
  map (basis_row n) (seq 0 n).

End Shapes.

(** *** Notions for the statements on [mom2_along] and [ppv_catalog] *)

Section CatalogNotions.
Context {F : Type} `{Numeric F} `{Promote F}.

Variable eig : list (list F) -> result (list F * list (list F)).
Variable argsort : list F -> list nat.
Variable arctan2 : F -> F -> F.
Variable degrees : F -> F.
Variable radians1 : F.
Variable float_pow2 : F -> result F.
Variable np_pow2 : F -> F.

(** The number of directions that [np.atleast_2d] sees in an argument. *)
Definition directions (direction : arraylike F) : nat :=
  match direction with
  | Vec _ => 1
  | Rows [] => 1
  | Rows rows => length rows
  end.

(** What a list of three entries answers to an index that is no valid
    index: [TypeError] for a float, [IndexError] for an int out of range. *)
Definition index_error (v : pyval F) : exn :=
  match v with
  | PyInt _ => IndexError
  | PyNum _ => TypeError
  end.

(** What [pop] answers to such an index: as above, except that an int
    beyond [Py_ssize_t] is an [OverflowError]. *)
Definition pop_error (v : pyval F) : exn :=
  match v with
  | PyInt i => if fits_ssize i then IndexError else OverflowError
  | PyNum _ => TypeError
  end.

Definition invalid_index (v : pyval F) : Prop :=
  match v with
  | PyInt i => (i < -3 ∨ 3 <= i)%Z
  | PyNum _ => True
  end.

(** The field list that [ppv_catalog] works with: [fields or [...]]. *)
Definition effective_fields (fields : option (list string)) : list string :=
  match fields with
  | Some (f :: fs) => f :: fs
  | _ => default_fields
  end.

(** The record of one structure: the body of the loop of [ppv_catalog]. *)
Definition structure_record (md : gmap string (pyval F)) (fields : list string)
    (struct : list F * list (list F)) : result (gmap string (field_value F)) :=
  record_of eig argsort arctan2 degrees radians1 float_pow2 np_pow2
    (mkPPVStatistic (mkScalarStatistic struct.1 struct.2) md) fields.

End CatalogNotions.

(** *** The converters behind [_build_table] *)

(** [sorted] on strings: Python compares them character by character. *)
#[global] Instance string_leb_dec
  : RelDecision (fun a b => String.leb a b = true) :=
  fun a b => decide (String.leb a b = true).

Definition sorted (l : list string) : list string :=
  merge_sort (fun a b => String.leb a b = true) l.

Section Converters.
Context {V : Type}.

(** [d] has every key of [d0]. *)
Definition covers (d0 d : gmap string V) : Prop := dom d0 ⊆ dom d.

#[global] Instance covers_dec (d0 d : gmap string V) : Decision (covers d0 d) :=
  decide (dom d0 ⊆ dom d).

(** [d[c]] *)
Definition getitem (d : gmap string V) (c : string) : result V :=
  match d !! c with
  | Some v => Ok v
  | None => Raise (KeyError c)
  end.

(** [sorted(data[0].keys())] *)
Definition column_names (data : list (gmap string V)) : result (list string) :=
  match data with
  | [] => Raise IndexError
  | d0 :: _ => Ok (sorted (map fst (map_to_list d0)))
  end.

(** [_data_to_astropy], up to the call [Table(cols, names=names)]: the
    columns and the names that are handed over. *)
Definition _data_to_astropy (data : list (gmap string V))
  : result (list (list V) * list string) :=
  names ← column_names data;
  cols ← mapM (fun c => mapM (fun d => getitem d c) data) names;
  Ok (cols, names).

(** [np.dtype(d)] of an entry [d], which refuses what is no data type, a
    Python number among others, with [TypeError]; and [np.array(data,
    dtype=dtypes)]. *)
Variable D : Type.
Variable np_dtype : V -> result D.
Variable A : Type.
Variable np_array : list (list V) -> list (string * D) -> result A.

(** [zip(names, data[0])], each entry through [np.dtype]. *)
Definition dtypes_of (names : list string) (row : list V)
  : result (list (string * D)) :=
  mapM (fun nd : string * V => dt ← np_dtype nd.2; Ok (nd.1, dt))
    (zip names row).

(** [_data_to_numpy]: the rows (one tuple per record), the dtypes from the
    first row, and the array. *)
Definition _data_to_numpy (data : list (gmap string V)) : result A :=
  names ← column_names data;
  rows ← mapM (fun d => mapM (fun c => getitem d c) names) data;
  row0 ← match rows with
         | row :: _ => Ok row
         | [] => Raise IndexError
         end;
  dtypes ← dtypes_of names row0;
  np_array rows dtypes.

End Converters.

Arguments dtypes_of {V D} np_dtype names row.
Arguments _data_to_numpy {V D} np_dtype {A} np_array data.

(** ** Instances of the library functions, and concrete inputs

    On a diagonal matrix [np.linalg.eig] answers with the diagonal as the
    eigenvalues and the identity as the eigenvectors.  The examples below
    only call it on such matrices. *)

Definition eig_of_diagonal {F : Type} `{Numeric F} (m : list (list F))
  : result (list F * list (list F)) :=
  Ok (imap (fun i row => match row !! i with Some x => x | None => nzero end) m,
      imap (fun i _ => <[i := nunit]> (replicate (length m) nzero)) m).

(** An [argsort] of float64 values: the indices, sorted by insertion. *)
Fixpoint insert_index (w : list float) (i : nat) (order : list nat) : list nat :=
  match order with
  | [] => [i]
  | j :: rest =>
      if PrimFloat.leb (w !!! j) (w !!! i) then j :: insert_index w i rest
      else i :: order
  end.

Definition argsort_float64 (w : list float) : list nat :=
  foldl (fun order i => insert_index w i order) [] (seq 0 (length w)).

(** The uniform 2x2 block of the concrete scenario, in float64. *)
Definition block : ScalarStatistic float :=
  mkScalarStatistic [1; 1; 1; 1]%float [[0; 0; 1; 1]; [0; 1; 0; 1]]%float.

(** Two pixels of an image that differ along the last axis only, over the
    exact reals; their covariance matrix; and an [argsort] for lists that
    are sorted already. *)
Definition pair_exact : ScalarStatistic R :=
  mkScalarStatistic [1; 1]%R [[0; 0]; [0; 2]]%R.

Definition pair_cov : list (list R) := [[0; 0]; [0; 1]]%R.

Definition argsort_sorted (w : list R) : list nat := seq 0 (length w).

(** The two pixels of [pair_along_x], over the exact reals. *)
Definition cube_exact : ScalarStatistic R :=
  mkScalarStatistic [1; 1]%R [[0; 0]; [0; 0]; [0; 2]]%R.

(** Two pixels whose values cancel. *)
Definition cancelling : ScalarStatistic float :=
  mkScalarStatistic [1; -1]%float [[0; 1]]%float.

(** A structure without pixels, in three dimensions. *)
Definition no_pixels : ScalarStatistic float :=
  mkScalarStatistic [] [[]; []; []].

(** The real number that a finite float64 stands for. *)
Definition float_real (x : float) : option R :=
  match Prim2SF x with
  | S754_zero _ => Some 0%R
  | S754_finite s m e =>
      Some (IZR (if s then Z.neg m else Z.pos m)
            * (if (0 <=? e)%Z then IZR (2 ^ e) else / IZR (2 ^ (- e))))%R
  | _ => None
  end.

(** Four pixels of an image on a slanted line, whose covariance matrix has
    the eigenvalues (3 + sqrt 5) / 4 and (3 - sqrt 5) / 4; the matrix over
    the reals; and the decomposition of the matrix rounded to the nearest
    float64, which is as close as an [eig] in float64 can get: the
    eigenvalues, and the unit eigenvectors as columns. *)
Definition tilted : ScalarStatistic float :=
  mkScalarStatistic [1; 1; 1; 1]%float
    [[1; -1; 1; -1]; [1; -1; 0; 0]]%float.

Definition tilted_cov : list (list R) := [[1; 1 / 2]; [1 / 2; 1 / 2]]%R.

Definition eig_of_tilted (m : list (list float))
  : result (list float * list (list float)) :=
  Ok ([0x1.4f1bbcdcbfa54p+0; 0x1.8722191a02d61p-3]%float,
      [[0x1.b38880b4603e4p-1; 0x1.0d2ca0da1530dp-1];
       [0x1.0d2ca0da1530dp-1; -0x1.b38880b4603e4p-1]]%float).

(** One pixel of value 6, one of value 18, and the float64 nearest to 0.1. *)
Definition six : ScalarStatistic float := mkScalarStatistic [6]%float [[0]]%float.
Definition eighteen : ScalarStatistic float :=
  mkScalarStatistic [18]%float [[0]]%float.
Definition one_tenth : float := 0x1.999999999999ap-4%float.

(** Two pixels of a cube that differ along the last axis only. *)
Definition pair_along_x : ScalarStatistic float :=
  mkScalarStatistic [1; 1]%float [[0; 0]; [0; 0]; [0; 2]]%float.

(** The same pixels behind a beam of area 100, larger than either axis. *)
Definition beam_10 : PPVStatistic float :=
  mkPPVStatistic pair_along_x
    {[ "vaxis" := PyInt 0; "bmaj" := PyInt 10; "bmin" := PyInt 10 ]}.

(** The same pixels behind a beam whose area is an int of 401 digits. *)
Definition huge_beam : PPVStatistic float :=
  mkPPVStatistic pair_along_x
    {[ "vaxis" := PyInt 0; "bmaj" := PyInt (10 ^ 400); "bmin" := PyInt 1 ]}.

(** Where a statement holds whatever [np.arctan2] and [np.degrees] compute,
    its example is run with these two functions in their place. *)
Definition any_arctan2 (y x : float) : float := y.
Definition any_degrees (x : float) : float := x.

(** Where a statement holds whatever the two power functions compute, its
    example is run with the rounded product in their place; the one for
    Python floats raises when the square of a finite number is infinite. *)
Definition checked_square (x : float) : result float :=
  if is_infinity (x * x)%float && negb (is_infinity x)
  then Raise OverflowError else Ok (x * x)%float.
Definition rounded_square (x : float) : float := (x * x)%float.

(** [np.dtype] on Python numbers, which are no data types, and an array
    constructor that keeps the rows as they come. *)
Definition dtype_of_number (d : Z) : result unit := Raise TypeError.
Definition rows_as_array (rows : list (list Z)) (dtypes : list (string * unit))
  : result (list (list Z)) := Ok rows.

(** Over the reals the power is the product. *)
Definition exact_square (x : R) : result R := Ok (x * x)%R.
Definition exact_np_square (x : R) : R := (x * x)%R.

(** [np.radians(1)] in float64, a printer of floats that the examples never
    reach, and a table constructor that keeps the records as they come. *)
Definition radians_of_one : float := 0x1.1df46a2529d39p-6%float.
Definition any_str_float (x : float) : string := "float".
Definition records_as_table (data : list (gmap string (field_value float)))
  : result (list (gmap string (field_value float))) := Ok data.

(** A structure with aligned arrays and one whose arrays do not align. *)
Definition aligned_structure : list float * list (list float) :=
  ([1; 1]%float, [[0; 0]; [0; 0]; [0; 2]]%float).
Definition misaligned_structure : list float * list (list float) :=
  ([1; 2; 3]%float, [[0; 1]; [0; 1]; [0; 1]]%float).

(** A class with two strict fields and one that is not. *)
Definition strict_class : list (MetaData float) :=
  [MetaData_init "a" "first" (PyInt 1) true;
   MetaData_init "b" "second" (PyInt 1) true;
   MetaData_init "c" "third" (PyInt 7) false].

(** A store with one array, the direction [0, 2]. *)
Definition store_0_2 : gmap nat (list (pyval float)) :=
  {[ 0 := [PyNum 0%float; PyNum 2%float] ]}.

Definition direction_0_2 : ndarray := mkNdarray 0 None 2.

(** * Properties *)

(** ** The error monad and the loops *)

Lemma bind_Ok {A B : Type} (f : A -> result B) (a : A) : Ok a ≫= f = f a.
Proof. reflexivity. Qed.

Lemma mapM_total {A B : Type} (f : A -> result B) (g : A -> B) (l : list A) :
  Forall (fun a => f a = Ok (g a)) l -> mapM f l = Ok (map g l).
Proof.
  induction 1 as [|a l Ha _ IH]; simpl; [done|].
  by rewrite Ha, bind_Ok, IH.
Qed.

(** ** Matrices as lists of rows *)

Section ArrayFacts.
Context {F : Type} `{Numeric F} `{Promote F}.
Local Open Scope num_scope.

Lemma broadcast2_same_length (f : F -> F -> F) (a b : list F) :
  length a = length b -> broadcast2 f a b = Ok (zip_with f a b).
Proof.
  intros Hl. unfold broadcast2.
  destruct a as [|x [|x' a]], b as [|y [|y' b]]; simpl in *; try done.
  all: by rewrite decide_True by lia.
Qed.

Lemma broadcast2_mismatch (f : F -> F -> F) (a b : list F) :
  length a ≠ length b -> length a ≠ 1 -> length b ≠ 1 ->
  broadcast2 f a b = Raise ValueError.
Proof.
  intros Hl Ha Hb. unfold broadcast2.
  destruct a as [|x [|x' a]], b as [|y [|y' b]]; simpl in *; try done.
  all: by rewrite decide_False by lia.
Qed.

Lemma dims_zeros (n : nat) : dims n (zeros n n).
Proof.
  split; unfold zeros; [by rewrite length_replicate|].
  apply Forall_replicate. by rewrite length_replicate.
Qed.

Lemma dims_set2 (n : nat) (r : list (list F)) (i j : nat) (x : F) :
  dims n r -> dims n (set2 r i j x).
Proof.
  intros [Hl Hr]. split; unfold set2; [by rewrite length_alter|].
  apply Forall_forall. intros row Hrow.
  apply list_elem_of_lookup in Hrow as [k Hk].
  destruct (decide (i = k)) as [->|Hne].
  - rewrite list_lookup_alter_eq in Hk.
    destruct (r !! k) as [row'|] eqn:E; simpl in Hk; [|done].
    injection Hk as <-. rewrite length_insert.
    eapply (proj1 (Forall_lookup _ _) Hr); eauto.
  - rewrite list_lookup_alter_ne in Hk by done.
    eapply (proj1 (Forall_lookup _ _) Hr); eauto.
Qed.

Lemma get2_set2_eq (n : nat) (r : list (list F)) (i j : nat) (x : F) :
  dims n r -> i < n -> j < n -> get2 (set2 r i j x) i j = Some x.
Proof.
  intros [Hl Hr] Hi Hj. unfold get2, set2.
  rewrite list_lookup_alter_eq.
  destruct (lookup_lt_is_Some_2 r i) as [row Hrow]; [lia|].
  rewrite Hrow. simpl.
  apply list_lookup_insert_eq.
  rewrite (proj1 (Forall_lookup _ _) Hr _ _ Hrow). done.
Qed.

Lemma get2_set2_ne (r : list (list F)) (i j p q : nat) (x : F) :
  (i, j) ≠ (p, q) -> get2 (set2 r i j x) p q = get2 r p q.
Proof.
  intros Hne. unfold get2, set2.
  destruct (decide (i = p)) as [->|Hip].
  - rewrite list_lookup_alter_eq.
    destruct (r !! p) as [row|]; simpl; [|done].
    apply list_lookup_insert_ne. congruence.
  - by rewrite list_lookup_alter_ne.
Qed.

End ArrayFacts.

(** ** The loops of [mom2] *)

Section Mom2Loops.
Context {F : Type} `{Numeric F} `{Promote F}.
Local Open Scope num_scope.

Variable v : list F.
Variable zyx : list (list F).
Hypothesis zyx_aligned : Forall (fun z => length z = length v) zyx.

Lemma zyx_lookup (i : nat) :
  i < length zyx ->
  ∃ z, zyx !! i = Some z ∧ zyx !!! i = z ∧ length z = length v.
Proof using zyx_aligned.
  intros Hi. destruct (lookup_lt_is_Some_2 zyx i Hi) as [z Hz].
  exists z. split; [done|]. split.
  - by apply list_lookup_total_correct.
  - eapply (proj1 (Forall_lookup _ _) zyx_aligned); eauto.
Qed.

Lemma cov_entry_sym (i j : nat) : cov_entry v zyx i j = cov_entry v zyx j i.
Proof.
  unfold cov_entry. destruct (decide (i = j)) as [->|Hne].
  - by rewrite decide_True.
  - rewrite decide_False by congruence.
    by rewrite (Nat.min_comm j i), (Nat.max_comm j i).
Qed.

Lemma mom2_inner_step (i j : nat) (r : list (list F)) :
  i < length zyx -> j < length zyx ->
  mom2_inner v zyx i r j =
    let x := nansum (zip_with nmul (zip_with nmul v (zyx !!! i)) (zyx !!! j)) in
    Ok (set2 (set2 r i j x) j i x).
Proof using zyx_aligned.
  intros Hi Hj. unfold mom2_inner.
  destruct (zyx_lookup i) as (zi & Hzi & Hti & Hli); [lia|].
  destruct (zyx_lookup j) as (zj & Hzj & Htj & Hlj); [lia|].
  rewrite Hzi, Hzj, Hti, Htj.
  rewrite (broadcast2_same_length nmul v zi) by done. rewrite bind_Ok.
  rewrite (broadcast2_same_length nmul _ zj)
    by (rewrite length_zip_with; lia).
  by rewrite bind_Ok.
Qed.

Lemma mom2_outer_step (i : nat) (r : list (list F)) :
  i < length zyx ->
  mom2_outer v zyx (length zyx) r i =
    foldM (mom2_inner v zyx i) (seq (S i) (length zyx - S i))
      (set2 r i i (nansum (zip_with nmul v (map (fun z => z * z) (zyx !!! i))))).
Proof using zyx_aligned.
  intros Hi. unfold mom2_outer.
  destruct (zyx_lookup i) as (zi & Hzi & Hti & Hli); [lia|].
  rewrite Hzi, Hti.
  rewrite (broadcast2_same_length nmul v) by (by rewrite length_map).
  by rewrite bind_Ok.
Qed.

Lemma mom2_inner_loop (i len a : nat) (r : list (list F)) :
  dims (length zyx) r -> i < a -> a + len ≤ length zyx ->
  ∃ r', foldM (mom2_inner v zyx i) (seq a len) r = Ok r'
        ∧ dims (length zyx) r'
        ∧ ∀ p q, get2 r' p q =
            if bool_decide ((p = i ∧ a ≤ q < a + len) ∨ (q = i ∧ a ≤ p < a + len))
            then Some (cov_entry v zyx p q) else get2 r p q.
Proof using zyx_aligned.
  revert a r. induction len as [|len IH]; intros a r Hr Hia Hlen.
  - exists r. split; [done|]. split; [done|]. intros p q.
    rewrite bool_decide_eq_false_2; [done|lia].
  - cbn [seq foldM]. rewrite mom2_inner_step by lia. cbn zeta.
    rewrite bind_Ok.
    set (x := nansum (zip_with nmul (zip_with nmul v (zyx !!! i)) (zyx !!! a))).
    assert (Hx : ∀ p q, (p = i ∧ q = a) ∨ (p = a ∧ q = i) ->
                        cov_entry v zyx p q = x).
    { intros p q [[-> ->]|[-> ->]]; unfold cov_entry;
        rewrite decide_False by lia.
      - by rewrite Nat.min_l, Nat.max_r by lia.
      - by rewrite Nat.min_r, Nat.max_l by lia. }
    destruct (IH (S a) (set2 (set2 r i a x) a i x)) as (r' & Hfold & Hd & Hget);
      [by do 2 apply dims_set2|lia|lia|].
    exists r'. split; [done|]. split; [done|].
    intros p q. rewrite Hget.
    repeat case_bool_decide; try done; try lia.
    + destruct (decide ((a, i) = (p, q))) as [[= <- <-]|Hne1].
      * rewrite (get2_set2_eq (length zyx)); [|by apply dims_set2|lia|lia].
        f_equal. symmetry. apply Hx. lia.
      * rewrite get2_set2_ne by done.
        assert (p = i ∧ q = a) as [-> ->].
        { destruct (decide (p = i)), (decide (q = i)),
            (decide (p = a)), (decide (q = a));
            subst; try lia; by destruct Hne1. }
        rewrite (get2_set2_eq (length zyx)); [|done|lia|lia].
        f_equal. symmetry. apply Hx. lia.
    + rewrite !get2_set2_ne; [done| |]; intros [= <- <-]; lia.
Qed.

Lemma mom2_outer_loop (len a : nat) (r : list (list F)) :
  dims (length zyx) r -> a + len ≤ length zyx ->
  ∃ r', foldM (mom2_outer v zyx (length zyx)) (seq a len) r = Ok r'
        ∧ dims (length zyx) r'
        ∧ ∀ p q, p < length zyx -> q < length zyx ->
            get2 r' p q =
              if bool_decide (a ≤ p `min` q < a + len)
              then Some (cov_entry v zyx p q) else get2 r p q.
Proof using zyx_aligned.
  revert a r. induction len as [|len IH]; intros a r Hr Hlen.
  - exists r. split; [done|]. split; [done|]. intros p q _ _.
    rewrite bool_decide_eq_false_2; [done|lia].
  - cbn [seq foldM]. rewrite mom2_outer_step by lia.
    set (d := nansum (zip_with nmul v (map (fun z => z * z) (zyx !!! a)))).
    assert (Hd : cov_entry v zyx a a = d).
    { unfold cov_entry. by rewrite decide_True by done. }
    destruct (mom2_inner_loop a (length zyx - S a) (S a) (set2 r a a d))
      as (r1 & Hfold1 & Hd1 & Hget1); [by apply dims_set2|lia|lia|].
    rewrite Hfold1, bind_Ok.
    destruct (IH (S a) r1) as (r' & Hfold & Hd' & Hget); [done|lia|].
    exists r'. split; [done|]. split; [done|].
    intros p q Hp Hq. rewrite Hget by done. rewrite Hget1.
    repeat case_bool_decide; try done; try lia.
    + assert (p = a ∧ q = a) as [-> ->] by lia.
      rewrite (get2_set2_eq (length zyx)); [by rewrite Hd|done|lia|lia].
    + apply get2_set2_ne. intros [= <- <-]. lia.
Qed.

End Mom2Loops.

(** ** ScalarStatistic: the moments *)

Section Moments.
Context {F : Type} `{Numeric F} `{Promote F}.
Local Open Scope num_scope.

Lemma get2_out_of_range (n : nat) (r : list (list F)) (i j : nat) :
  dims n r -> n ≤ i ∨ n ≤ j -> get2 r i j = None.
Proof.
  intros [Hl Hr] Hij. unfold get2.
  destruct (r !! i) as [row|] eqn:E; simpl; [|done].
  apply lookup_ge_None.
  rewrite (proj1 (Forall_lookup _ _) Hr _ _ E).
  apply lookup_lt_Some in E. lia.
Qed.

Lemma mom1_aligned (s : ScalarStatistic F) :
  sample_aligned s ->
  mom1 s = Ok (map (fun c => nansum (zip_with nmul c (values s)) / mom0 s)
                 (indices s)).
Proof.
  intros Hs. unfold mom1. apply mapM_total.
  eapply Forall_impl; [exact Hs|]. intros c Hc. cbn beta.
  by rewrite broadcast2_same_length.
Qed.

(** With aligned arrays the loops of [mom2] run to their end, and the
    matrix they leave holds [cov_entry] at every place. *)
Lemma mom2_aligned (s : ScalarStatistic F) (m1 : list F) :
  sample_aligned s -> mom1 s = Ok m1 ->
  let zyx := zip_with deviation (indices s) m1 in
  ∃ M, mom2 s = Ok M ∧ dims (length (indices s)) M
       ∧ length zyx = length (indices s)
       ∧ ∀ i j, i < length (indices s) -> j < length (indices s) ->
           get2 M i j = Some (cov_entry (weights s) zyx i j).
Proof.
  intros Hs Hm1 zyx.
  assert (Hlen : length zyx = length (indices s)).
  { rewrite mom1_aligned in Hm1 by done. injection Hm1 as <-.
    unfold zyx. rewrite length_zip_with, length_map. lia. }
  assert (Hal : Forall (fun z => length z = length (weights s)) zyx).
  { apply Forall_forall. intros z Hz.
    apply list_elem_of_lookup in Hz as [i Hi].
    unfold zyx in Hi. apply lookup_zip_with_Some in Hi
      as (c & m & -> & Hc & _).
    unfold deviation, weights. rewrite !length_map.
    eapply (proj1 (Forall_lookup _ _) Hs); eauto. }
  destruct (mom2_outer_loop (weights s) zyx Hal (length zyx) 0
              (zeros (length zyx) (length zyx)))
    as (M & Hfold & Hd & Hget); [apply dims_zeros|lia|].
  exists M. unfold mom2. rewrite Hm1, bind_Ok.
  fold (weights s). fold zyx. rewrite <- Hlen.
  split; [exact Hfold|]. split; [done|]. split; [done|].
  intros i j Hi Hj. rewrite Hget by done.
  rewrite bool_decide_eq_true_2; [done|lia].
Qed.

Lemma mom2_symmetric (s : ScalarStatistic F) (M : list (list F)) :
  sample_aligned s -> mom2 s = Ok M ->
  dims (length (indices s)) M ∧ ∀ i j, get2 M i j = get2 M j i.
Proof.
  intros Hs HM.
  destruct (mom2_aligned s _ Hs (mom1_aligned s Hs)) as (M' & HM' & Hd & _ & Hget).
  rewrite HM in HM'. injection HM' as <-. split; [done|].
  intros i j.
  destruct (decide (i < length (indices s) ∧ j < length (indices s)))
    as [[Hi Hj]|Hout].
  - rewrite !Hget by done. f_equal. apply cov_entry_sym.
  - rewrite !(get2_out_of_range _ _ _ _ Hd) by lia. done.
Qed.


End Moments.


(** C2. For values [1,1,1,1] at the indices ([0,0,1,1],[0,1,0,1]), in
    float64: [mom0() = 4], [mom1() = [0.5, 0.5]] and
    [mom2() = [[0.25, 0], [0, 0.25]]]. *)
Theorem block_moments :
  mom0 block = 4%float
  ∧ mom1 block = Ok [0.5; 0.5]%float
  ∧ mom2 block = Ok [[0.25; 0]; [0; 0.25]]%float.
Proof. repeat split; vm_compute; reflexivity. Qed.

(** ** ScalarStatistic: construction *)

Section Construction.
Context {F : Type} `{Numeric F} `{Promote F}.
Local Open Scope num_scope.

Lemma broadcast2_cases (f : F -> F -> F) (a b : list F) :
  (∃ c, broadcast2 f a b = Ok c) ∨ broadcast2 f a b = Raise ValueError.
Proof.
  unfold broadcast2.
  destruct a as [|x [|x' a]], b as [|y [|y' b]]; try case_decide; eauto.
Qed.

Lemma mapM_first_raise {A B : Type} (f : A -> result B) (e : exn) (l : list A) :
  Forall (fun a => (∃ b, f a = Ok b) ∨ f a = Raise e) l ->
  Exists (fun a => f a = Raise e) l ->
  mapM f l = Raise e.
Proof.
  induction 1 as [|a l Ha _ IH]; intros Hex; [by inversion Hex|].
  simpl. destruct Ha as [[b Hb]|Ha]; [|by rewrite Ha].
  rewrite Hb, bind_Ok. rewrite IH; [done|].
  inversion Hex as [?? Hbad|]; subst; [congruence|done].
Qed.

(** C4, as the code has it.  The constructor stores its arguments and
    never fails, whatever the lengths.  A mismatch shows later: when a
    coordinate array and the value array differ in length and neither has
    length 1 (which NumPy would stretch), [mom1()] and [mom2()] fail with
    the shape error. *)
Theorem init_unchecked_mismatch_downstream
    (vals : list F) (idx : list (list F)) :
  __init__ vals idx = Ok (mkScalarStatistic vals idx)
  ∧ (length vals ≠ 1 ->
     Exists (fun c => length c ≠ length vals ∧ length c ≠ 1) idx ->
     mom1 (mkScalarStatistic vals idx) = Raise ValueError
     ∧ mom2 (mkScalarStatistic vals idx) = Raise ValueError).
Proof.
  split; [done|]. intros Hv Hex.
  assert (Hm1 : mom1 (mkScalarStatistic vals idx) = Raise ValueError).
  { unfold mom1. simpl. apply mapM_first_raise.
    - apply Forall_forall. intros c _.
      destruct (broadcast2_cases nmul c vals) as [[iv Hiv]|Hiv];
        rewrite Hiv; eauto.
    - eapply Exists_impl; [exact Hex|]. intros c [Hc1 Hc2]. cbn beta.
      by rewrite broadcast2_mismatch. }
  split; [done|]. unfold mom2. by rewrite Hm1.
Qed.

End Construction.

Lemma init_unchecked_mismatch_downstream_witness :
  __init__ [1; 2; 3]%float [[0; 1]%float] = Ok (mkScalarStatistic [1; 2; 3]%float [[0; 1]%float])
  ∧ mom1 (mkScalarStatistic [1; 2; 3]%float [[0; 1]%float]) = Raise ValueError
  ∧ mom2 (mkScalarStatistic [1; 2; 3]%float [[0; 1]%float]) = Raise ValueError.
Proof.
  destruct (init_unchecked_mismatch_downstream [1; 2; 3]%float [[0; 1]%float])
    as [Hinit Hdown].
  split; [exact Hinit|].
  apply Hdown; [simpl; lia|].
  constructor. simpl. lia.
Defined.

(** C4 as stated fails: three values with a coordinate array of
    length two are accepted by the constructor. *)
Lemma init_accepts_mismatch :
  length [0; 1]%float ≠ length [1; 2; 3]%float
  ∧ ¬ (∃ e, __init__ [1; 2; 3]%float [[0; 1]%float] = Raise e).
Proof.
  split; [simpl; lia|]. intros [e He]. discriminate He.
Qed.

(** ** The metadata validation pass *)

Section Validation.
Context {F : Type}.
Variable str_float : F -> string.

Lemma elem_of_missing_metadata (cl : list (MetaData F))
    (md : gmap string (pyval F)) (m : MetaData F) :
  m ∈ _missing_metadata cl md ↔ m ∈ cl ∧ md !! key m = None.
Proof. unfold _missing_metadata. rewrite list_elem_of_filter. tauto. Qed.

Lemma warn_missing_metadata_cases (cl : list (MetaData F))
    (md : gmap string (pyval F)) :
  _warn_missing_metadata str_float cl md =
    match filter (fun m => strict m = true) (_missing_metadata cl md) with
    | [] => (map (fun m => EvWarn (warning_message str_float m))
               (_missing_metadata cl md), Ok tt)
    | required => ([], Raise (RuntimeError (required_message required)))
    end.
Proof.
  unfold _warn_missing_metadata.
  destruct (_missing_metadata cl md) as [|m missing] eqn:E; [done|].
  cbn [length Nat.eqb].
  destruct (filter _ (m :: missing)) as [|r required]; done.
Qed.

End Validation.

Lemma string_app_assoc (a b c : string) : (a +:+ b) +:+ c = a +:+ b +:+ c.
Proof. induction a as [|x a IH]; cbv [String.append]; fold String.append; [done|by f_equal]. Qed.

(** Every joined text occurs in the joined line. *)
Lemma concat_contains (sep : string) (l : list string) (x : string) :
  x ∈ l -> contains x (String.concat sep l).
Proof.
  induction l as [|y l IH]; intros Hin; [by apply elem_of_nil in Hin|].
  apply elem_of_cons in Hin as [->|Hin].
  - destruct l as [|z l]; simpl.
    + exists EmptyString, EmptyString.
      change (EmptyString +:+ y +:+ EmptyString) with (y +:+ EmptyString).
      clear. induction y as [|c y IH]; cbv [String.append]; fold String.append;
        [done|by f_equal].
    + by exists EmptyString, (sep +:+ String.concat sep (z :: l)).
  - destruct (IH Hin) as (pre & post & Hc).
    destruct l as [|z l]; [by apply elem_of_nil in Hin|].
    exists (y +:+ sep +:+ pre), post.
    change (String.concat sep (y :: z :: l))
      with (y +:+ sep +:+ String.concat sep (z :: l)).
    by rewrite Hc, !string_app_assoc.
Qed.

Section Catalog.
Context {F : Type} `{Numeric F} `{Promote F}.

Variable eig : list (list F) -> result (list F * list (list F)).
Variable argsort : list F -> list nat.
Variable arctan2 : F -> F -> F.
Variable degrees : F -> F.
Variable radians1 : F.
Variable float_pow2 : F -> result F.
Variable np_pow2 : F -> F.
Variable str_float : F -> string.
Variable T : Type.
Variable Table : list (gmap string (field_value F)) -> result T.

Lemma catalog_loop_events (structures : list (list F * list (list F)))
    (md : gmap string (pyval F)) (fields : list string) (i : nat)
    (acc : list (gmap string (field_value F))) :
  Forall (fun ev => ∃ k, ev = EvStruct k)
    (catalog_loop eig argsort arctan2 degrees radians1 float_pow2 np_pow2
       structures md fields i acc).1.
Proof.
  revert i acc. induction structures as [|st rest IH]; intros i acc; simpl.
  - constructor.
  - destruct (record_of _ _ _ _ _ _ _ _ _) as [rec|e]; simpl.
    + specialize (IH (S i) (acc ++ [rec])).
      destruct (catalog_loop _ _ _ _ _ _ _ rest md fields (S i) (acc ++ [rec]))
        as [evs r]. simpl in *. constructor; eauto.
    + repeat constructor. eauto.
Qed.

Lemma ppv_catalog_after_validation
    (md : gmap string (pyval F)) (warns : list event)
    (structures : list (list F * list (list F)))
    (fields : option (list string)) :
  _warn_missing_metadata str_float PPVStatistic_descriptors md = (warns, Ok tt) ->
  ∃ fs evs r,
    ppv_catalog eig argsort arctan2 degrees radians1 float_pow2 np_pow2 str_float T Table
      structures md fields = (warns ++ EvPrint fs :: evs, r)
    ∧ Forall (fun ev => ∃ k, ev = EvStruct k) evs.
Proof.
  intros Hpass. unfold ppv_catalog. rewrite Hpass.
  set (fs := match fields with Some (f :: fs) => f :: fs | _ => default_fields end).
  pose proof (catalog_loop_events structures md fs 0 []) as Hev.
  destruct (catalog_loop _ _ _ _ _ _ _ structures md fs 0 []) as [evs r].
  by exists fs, evs, (r ≫= _build_table T Table).
Qed.

Lemma descriptors_pass (md : gmap string (pyval F)) :
  ∃ warns,
    _warn_missing_metadata str_float PPVStatistic_descriptors md = (warns, Ok tt)
    ∧ Forall2
        (fun d ev =>
           ev = EvWarn ("Missing Metadata:" +:+ nl_tab +:+ " " +:+ key d
                        +:+ " (" +:+ description d +:+ ")" +:+ nl_tab
                        +:+ " Defaulting to " +:+ key d +:+ "="
                        +:+ str_pyval str_float (default d)))
        (filter (fun d => md !! key d = None) PPVStatistic_descriptors) warns.
Proof.
  rewrite warn_missing_metadata_cases. unfold _missing_metadata.
  destruct (filter (fun m : MetaData F => strict m = true) _)
    as [|r required] eqn:E.
  - eexists. split; [done|].
    apply Forall2_fmap_r, Forall_Forall2_diag, Forall_forall.
    intros d _. unfold warning_message, MetaData_str. cbv [compose].
    by rewrite !string_app_assoc.
  - assert (Hr : r ∈ filter (fun m : MetaData F => strict m = true)
                   (filter (fun m : MetaData F => md !! key m = None)
                      PPVStatistic_descriptors))
      by (rewrite E; left).
    apply list_elem_of_filter in Hr as [Hstrict Hr].
    apply list_elem_of_filter in Hr as [_ Hr].
    unfold PPVStatistic_descriptors in Hr.
    repeat (apply elem_of_cons in Hr as [->|Hr]; [done|]).
    by apply elem_of_nil in Hr.
Qed.

(** C5. Take the declared fields that the record lacks, in the order of
    the class.  If some of them are strict, the validation pass warns of
    nothing and raises one [RuntimeError]; its message is the heading
    followed by one line ["key (description)"] for each missing strict
    field, in order, so every missing strict field of the class occurs in
    it.  If none is strict, the pass does not fail and emits exactly one
    warning for each missing field, in order, whose text names the field,
    its description, and the default as [key=default].  [ppv_catalog] runs
    the pass once, before the loop over the structures: what it emits is
    the output of one pass (one warning per field of [PPVStatistic] that the
    record lacks), then the printed field list, then only the marks of the
    structures; and when the pass fails nothing else happens. *)
Theorem validation_once_before_structures
    (cl : list (MetaData F)) (md : gmap string (pyval F))
    (structures : list (list F * list (list F)))
    (fields : option (list string)) :
  (filter (fun d => strict d = true)
     (filter (fun d => md !! key d = None) cl) ≠ [] ->
   ∃ msg,
     _warn_missing_metadata str_float cl md = ([], Raise (RuntimeError msg))
     ∧ msg = "The following missing metadata items are required:" +:+ nl_tab
             +:+ String.concat nl_tab
                   (map (fun d => key d +:+ " (" +:+ description d +:+ ")")
                      (filter (fun d => strict d = true)
                         (filter (fun d => md !! key d = None) cl)))
     ∧ ∀ d, d ∈ cl -> strict d = true -> md !! key d = None ->
         contains (key d +:+ " (" +:+ description d +:+ ")") msg)
  ∧ (filter (fun d => strict d = true)
       (filter (fun d => md !! key d = None) cl) = [] ->
     ∃ warns,
       _warn_missing_metadata str_float cl md = (warns, Ok tt)
       ∧ Forall2
           (fun d ev =>
              ev = EvWarn ("Missing Metadata:" +:+ nl_tab +:+ " " +:+ key d
                           +:+ " (" +:+ description d +:+ ")" +:+ nl_tab
                           +:+ " Defaulting to " +:+ key d +:+ "="
                           +:+ str_pyval str_float (default d)))
           (filter (fun d => md !! key d = None) cl) warns)
  ∧ match _warn_missing_metadata str_float PPVStatistic_descriptors md with
    | (warns, Raise e) =>
        ppv_catalog eig argsort arctan2 degrees radians1 float_pow2 np_pow2 str_float T Table
          structures md fields = (warns, Raise e)
    | (warns, Ok _) =>
        ∃ fs evs r,
          ppv_catalog eig argsort arctan2 degrees radians1 float_pow2 np_pow2 str_float T Table
            structures md fields = (warns ++ EvPrint fs :: evs, r)
          ∧ Forall (fun ev => ∃ msg, ev = EvWarn msg) warns
          ∧ Forall (fun ev => ∃ k, ev = EvStruct k) evs
    end
  ∧ ∃ warns fs evs r,
      ppv_catalog eig argsort arctan2 degrees radians1 float_pow2 np_pow2 str_float T Table
        structures md fields = (warns ++ EvPrint fs :: evs, r)
      ∧ Forall2
          (fun d ev =>
             ev = EvWarn ("Missing Metadata:" +:+ nl_tab +:+ " " +:+ key d
                          +:+ " (" +:+ description d +:+ ")" +:+ nl_tab
                          +:+ " Defaulting to " +:+ key d +:+ "="
                          +:+ str_pyval str_float (default d)))
          (filter (fun d => md !! key d = None) PPVStatistic_descriptors) warns
      ∧ Forall (fun ev => ∃ k, ev = EvStruct k) evs.
Proof.
  pose proof (warn_missing_metadata_cases str_float cl md) as Hcl.
  unfold _missing_metadata in Hcl.
  split; [|split; [|split]].
  - intros Hreq. eexists. split; [|split; [reflexivity|]].
    + rewrite Hcl. destruct (filter _ (filter _ cl)); [done|]. reflexivity.
    + intros d Hd Hs Hmiss.
      destruct (concat_contains nl_tab
                  (map (fun d => key d +:+ " (" +:+ description d +:+ ")")
                     (filter (fun d => strict d = true)
                        (filter (fun d => md !! key d = None) cl)))
                  (key d +:+ " (" +:+ description d +:+ ")"))
        as (pre & post & Hc).
      { apply list_elem_of_fmap. exists d. split; [done|].
        apply list_elem_of_filter. split; [done|].
        by apply list_elem_of_filter. }
      rewrite Hc.
      exists ("The following missing metadata items are required:"
              +:+ nl_tab +:+ pre), post.
      by rewrite <- !string_app_assoc.
  - intros Hreq. rewrite Hreq in Hcl. eexists. split; [exact Hcl|].
    apply Forall2_fmap_r, Forall_Forall2_diag, Forall_forall.
    intros d _. unfold warning_message, MetaData_str. cbv [compose].
    by rewrite !string_app_assoc.
  - clear Hcl.
    pose proof (warn_missing_metadata_cases str_float
                  PPVStatistic_descriptors md) as Hcases.
    destruct (_warn_missing_metadata str_float PPVStatistic_descriptors md)
      as [warns [[]|e]] eqn:Hpass.
    + destruct (ppv_catalog_after_validation md warns structures fields Hpass)
        as (fs & evs & r & Hcat & Hevs).
      exists fs, evs, r. split; [done|]. split; [|done].
      destruct (filter _ _); [|done].
      injection Hcases as ->. apply Forall_forall.
      intros ev Hin. apply list_elem_of_fmap in Hin as (m & -> & _). eauto.
    + unfold ppv_catalog. by rewrite Hpass.
  - destruct (descriptors_pass md) as (warns & Hpass & Hwarns).
    destruct (ppv_catalog_after_validation md warns structures fields Hpass)
      as (fs & evs & r & Hcat & Hevs).
    by exists warns, fs, evs, r.
Qed.

(** C10. Every metadata field declared on [PPVStatistic] is non-strict.
    So, for every metadata record, the validation pass ends without an
    error and has warned of each absent field, [ppv_catalog] goes on to
    print the field list, and reading an absent field gives its default:
    0 for [bmaj] and [bmin], 1 for the others. *)
Theorem ppv_metadata_never_required (md : gmap string (pyval F)) :
  Forall (fun d => strict d = false) (PPVStatistic_descriptors (F:=F))
  ∧ map key (PPVStatistic_descriptors (F:=F))
      = ["dx"; "dv"; "vaxis"; "bmaj"; "bmin"; "bunit"; "dist"]
  ∧ (∃ warns,
       _warn_missing_metadata str_float PPVStatistic_descriptors md
         = (warns, Ok tt)
       ∧ (∀ d, d ∈ PPVStatistic_descriptors -> md !! key d = None ->
               EvWarn (warning_message str_float d) ∈ warns)
       ∧ ∀ structures fields, ∃ fs evs r,
           ppv_catalog eig argsort arctan2 degrees radians1 float_pow2 np_pow2 str_float T Table
             structures md fields = (warns ++ EvPrint fs :: evs, r))
  ∧ (∀ d, d ∈ PPVStatistic_descriptors -> md !! key d = None ->
          __get__ d md = Ok (default d)
          ∧ default d = if decide (key d = "bmaj" ∨ key d = "bmin")
                        then PyInt 0 else PyInt 1).
Proof.
  assert (Hs : Forall (fun d => strict d = false) (PPVStatistic_descriptors (F:=F)))
    by (repeat constructor).
  split; [done|]. split; [done|]. split.
  - rewrite warn_missing_metadata_cases.
    destruct (filter _ _) as [|r required] eqn:E.
    + eexists. split; [done|]. split.
      * intros d Hd Hmiss.
        apply list_elem_of_fmap. exists d. split; [done|].
        by apply elem_of_missing_metadata.
      * intros structures fields.
        edestruct (ppv_catalog_after_validation md) as (fs & evs & r & Hcat & _);
          [|by eauto].
        rewrite warn_missing_metadata_cases. by rewrite E.
    + assert (Hr : r ∈ filter (fun m : MetaData F => strict m = true)
                       (_missing_metadata PPVStatistic_descriptors md))
        by (rewrite E; left).
      apply list_elem_of_filter in Hr as [Hstrict Hr].
      apply elem_of_missing_metadata in Hr as [Hr _].
      pose proof (proj1 (Forall_forall _ _) Hs r Hr) as Hr'.
      cbn beta in Hr'. congruence.
  - intros d Hd Hmiss.
    pose proof (proj1 (Forall_forall _ _) Hs d Hd) as Hd'. cbn beta in Hd'.
    unfold __get__. rewrite Hd', Hmiss. split; [done|].
    unfold PPVStatistic_descriptors in Hd.
    repeat (apply elem_of_cons in Hd as [->|Hd]; [by vm_compute|]).
    by apply elem_of_nil in Hd.
Qed.

End Catalog.

Lemma validation_once_before_structures_witness :
  (∃ msg,
     _warn_missing_metadata any_str_float strict_class ∅
       = ([], Raise (RuntimeError msg))
     ∧ contains "a (first)" msg ∧ contains "b (second)" msg)
  ∧ (∃ warns,
       _warn_missing_metadata any_str_float strict_class
         {[ "a" := PyInt 2; "b" := PyInt 3 ]} = (warns, Ok tt)
       ∧ Forall2
           (fun d ev =>
              ev = EvWarn ("Missing Metadata:" +:+ nl_tab +:+ " " +:+ key d
                           +:+ " (" +:+ description d +:+ ")" +:+ nl_tab
                           +:+ " Defaulting to " +:+ key d +:+ "="
                           +:+ str_pyval any_str_float (default d)))
           [MetaData_init "c" "third" (PyInt 7) false] warns).
Proof.
  pose proof (fun md =>
                validation_once_before_structures eig_of_diagonal
                  argsort_float64 any_arctan2 any_degrees radians_of_one
                  checked_square rounded_square any_str_float _
                  records_as_table strict_class md [] None) as Hpass.
  split.
  - destruct (Hpass ∅) as (Hstrict & _).
    destruct Hstrict as (msg & Hrun & _ & Hall); [by vm_compute|].
    exists msg. split; [exact Hrun|]. split.
    + apply (Hall (MetaData_init "a" "first" (PyInt 1) true));
        [repeat constructor|reflexivity|reflexivity].
    + apply (Hall (MetaData_init "b" "second" (PyInt 1) true));
        [repeat constructor|reflexivity|reflexivity].
  - destruct (Hpass {[ "a" := PyInt 2; "b" := PyInt 3 ]}) as (_ & Hwarn & _).
    destruct Hwarn as (warns & Hrun & Hall); [by vm_compute|].
    exists warns. split; [exact Hrun|exact Hall].
Defined.

(** With nothing in the record, both strict fields are named in the one
    error; with the strict fields present, the third is warned of, with its
    default. *)
Example strict_fields_all_listed (str_float : float -> string) :
  _warn_missing_metadata str_float strict_class ∅
  = ([], Raise (RuntimeError
                  ("The following missing metadata items are required:"
                   +:+ nl_tab +:+ "a (first)" +:+ nl_tab +:+ "b (second)")))
  ∧ _warn_missing_metadata str_float strict_class
      {[ "a" := PyInt 2; "b" := PyInt 3 ]}
    = ([EvWarn ("Missing Metadata:" +:+ nl_tab +:+ " c (third)" +:+ nl_tab
                +:+ " Defaulting to c=7")], Ok tt).
Proof. split; vm_compute; reflexivity. Qed.

(** The empty record gets the seven warnings of [PPVStatistic]. *)
Example empty_record_seven_warnings (str_float : float -> string) :
  ∃ warns, _warn_missing_metadata str_float PPVStatistic_descriptors ∅
           = (warns, Ok tt) ∧ length warns = 7.
Proof. eexists. split; vm_compute; reflexivity. Qed.

(** ** [mom2_along] and the caller's array *)

Section ChunkFacts.
Context {A : Type}.

Lemma chunk_length (k n : nat) (l : list A) : length (chunk k n l) = k.
Proof. revert l; induction k as [|k IH]; intros l; simpl; [done|by rewrite IH]. Qed.

Lemma chunk_snoc (k n : nat) (l : list A) :
  chunk (S k) n l = chunk k n l ++ [take n (drop (k * n) l)].
Proof.
  revert l; induction k as [|k IH]; intros l; [done|].
  change (chunk (S (S k)) n l) with (take n l :: chunk (S k) n (drop n l)).
  rewrite IH. simpl. rewrite drop_drop. done.
Qed.

Lemma chunk_app_row (k n : nat) (row l : list A) :
  length row = n -> chunk (S k) n (row ++ l) = row :: chunk k n l.
Proof.
  intros Hn. simpl. rewrite take_app_length' by done.
  by rewrite drop_app_length' by done.
Qed.

Lemma chunk_rows_length (k n : nat) (l : list A) :
  k * n ≤ length l -> Forall (fun row => length row = n) (chunk k n l).
Proof.
  revert l; induction k as [|k IH]; intros l Hl; simpl; constructor.
  - rewrite length_take. lia.
  - apply IH. rewrite length_drop. lia.
Qed.

Lemma chunk_concat (n : nat) (rows : list (list A)) (rest : list A) :
  Forall (fun row => length row = n) rows ->
  chunk (length rows) n (concat rows ++ rest) = rows.
Proof.
  induction 1 as [|row rows Hrow _ IH]; [done|].
  cbn [length concat]. rewrite <- app_assoc, chunk_app_row by done.
  by rewrite IH.
Qed.

Lemma chunk_fmap {B : Type} (f : A -> B) (k n : nat) (l : list A) :
  chunk k n (map f l) = map (map f) (chunk k n l).
Proof.
  revert l; induction k as [|k IH]; intros l; simpl; [done|].
  change (map f l) with (f <$> l).
  rewrite <- fmap_take, <- fmap_drop. by rewrite <- IH.
Qed.

Lemma concat_chunk_length (k n : nat) (l : list A) (g : list A -> list A) :
  (∀ row, length (g row) = length row) ->
  k * n ≤ length l ->
  length (concat (map g (chunk k n l))) = k * n.
Proof.
  intros Hg. revert l; induction k as [|k IH]; intros l Hl; simpl; [done|].
  rewrite length_app, Hg, length_take, IH by (rewrite length_drop; lia). lia.
Qed.

End ChunkFacts.

Section StoreFacts.
Context {F : Type} `{Numeric F} `{Promote F}.

Lemma normalize_length (row : list F) : length (normalize row) = length row.
Proof. unfold normalize. by rewrite length_map. Qed.

Lemma foldl_normalize_row (w : ndarray) (h : gmap nat (list (pyval F)))
    (x : list (pyval F)) (rs : list nat) :
  foldl (normalize_row w) (<[buf w := x]> h) rs
  = <[buf w := foldl (fun d r => divide_row (ncols w) r d) x rs]> h.
Proof.
  revert x. induction rs as [|r rs IH]; intros x; simpl; [done|].
  unfold normalize_row at 2. rewrite alter_insert_eq. apply IH.
Qed.

Lemma foldl_divide_row (n k : nat) (x : list (pyval F)) :
  k * n ≤ length x ->
  foldl (fun d r => divide_row n r d) x (seq 0 k)
  = concat (map (fun row => map PyNum (normalize (map to_float row)))
              (chunk k n x))
    ++ drop (k * n) x.
Proof.
  induction k as [|k IH]; intros Hk; [by rewrite drop_0|].
  rewrite seq_S, foldl_app, IH by lia. simpl foldl. clear IH.
  set (g := fun row : list (pyval F) => map PyNum (normalize (map to_float row))).
  assert (Hg : ∀ row, length (g row) = length row).
  { intros row. unfold g. by rewrite !length_map, normalize_length, length_map. }
  pose proof (concat_chunk_length k n x g Hg ltac:(lia)) as HC.
  unfold divide_row.
  rewrite take_app_length' by done.
  rewrite (drop_app_length' _ _ (k * n)) by done.
  replace (k * n + n) with (length (concat (map g (chunk k n x))) + n) by lia.
  rewrite drop_app_add, drop_drop.
  rewrite chunk_snoc, map_app, concat_app. simpl.
  rewrite app_nil_r, <- !app_assoc.
  replace (n + k * n) with (k * n + n) by lia. done.
Qed.

End StoreFacts.

Section DirectionUnchanged.
Context {F : Type} `{Numeric F} `{Promote F}.

(** The store that [mom2_along] leaves is the old store with one new
    buffer, the float copy. *)
Lemma mom2_along_st_store (self : ScalarStatistic F)
    (h : gmap nat (list (pyval F))) (d : ndarray) (data : list (pyval F)) :
  h !! buf d = Some data ->
  (mom2_along_st self h d).1
  = <[fresh (dom h) :=
        foldl (fun x r => divide_row (ncols d) r x)
          (map (fun v => PyNum (to_float v)) data) (seq 0 (rows_of d))]> h.
Proof.
  intros Hd. unfold mom2_along_st. rewrite Hd.
  unfold astype_float.
  set (w := mkNdarray (fresh (dom h)) (nrows (atleast_2d d)) (ncols (atleast_2d d))).
  assert (Hw : rows_of w = rows_of d ∧ ncols w = ncols d).
  { unfold w, rows_of, atleast_2d. by destruct d as [b [k|] n]. }
  destruct Hw as [Hrows Hcols].
  rewrite (foldl_normalize_row w h). rewrite Hrows, Hcols.
  by destruct (read_matrix _ w).
Qed.

(** With the data of the right size, the stateful function returns what
    [mom2_along] returns on the contents of the array. *)
Lemma mom2_along_st_result (self : ScalarStatistic F)
    (h : gmap nat (list (pyval F))) (d : ndarray) (data : list (pyval F)) :
  h !! buf d = Some data ->
  length data = rows_of d * ncols d -> 0 < rows_of d ->
  (mom2_along_st self h d).2 = mom2_along self (as_arraylike d data).
Proof.
  intros Hd Hlen Hk. unfold mom2_along_st. rewrite Hd.
  unfold astype_float.
  set (w := mkNdarray (fresh (dom h)) (nrows (atleast_2d d)) (ncols (atleast_2d d))).
  assert (Hw : rows_of w = rows_of d ∧ ncols w = ncols d).
  { unfold w, rows_of, atleast_2d. by destruct d as [b [k|] n]. }
  destruct Hw as [Hrows Hcols].
  rewrite (foldl_normalize_row w h). unfold read_matrix.
  change (buf w) with (fresh (dom h)). rewrite lookup_insert_eq.
  cbn [mbind option_bind]. rewrite Hrows, Hcols.
  set (k := rows_of d) in *. set (n := ncols d) in *.
  rewrite foldl_divide_row by (rewrite length_map; lia).
  set (g := fun row : list (pyval F) => map PyNum (normalize (map to_float row))).
  set (x := map (fun v => PyNum (to_float v)) data).
  assert (Hrows_n : Forall (fun row => length row = n) (map g (chunk k n x))).
  { apply Forall_fmap. eapply Forall_impl.
    - apply chunk_rows_length. unfold x. rewrite length_map. lia.
    - intros row Hrow. simpl. unfold g.
      by rewrite !length_map, normalize_length, length_map. }
  pose proof (chunk_concat n _ (drop (k * n) x) Hrows_n) as Hc.
  rewrite length_map, chunk_length in Hc. rewrite Hc.
  assert (Hread : map (map to_float) (map g (chunk k n x))
                  = map normalize (map (map to_float) (chunk k n data))).
  { unfold x. rewrite chunk_fmap. rewrite !map_map.
    apply map_ext. intros row. unfold g. rewrite !map_map. simpl.
    rewrite map_id. done. }
  rewrite Hread. unfold mom2_along, as_arraylike. fold n.
  assert (Hall : Forall (fun row => length row = n) (chunk k n data))
    by (apply chunk_rows_length; lia).
  unfold k, rows_of in *.
  destruct (nrows d) as [k'|] eqn:Ek.
  - destruct (chunk k' n data) as [|r rs] eqn:Ec.
    { pose proof (chunk_length k' n data) as Hl. rewrite Ec in Hl. simpl in Hl. lia. }
    cbn [atleast_2d_float].
    apply Forall_cons in Hall as [Hr Hrs].
    assert (Hfor : forallb (fun r' => Nat.eqb (length r') (length r)) rs = true).
    { apply forallb_forall. intros r' Hr'.
      apply list_elem_of_In in Hr'.
      rewrite (proj1 (Forall_forall _ _) Hrs r' Hr'), Hr.
      apply Nat.eqb_refl. }
    rewrite Hfor, Hr. done.
  - simpl. rewrite firstn_all2 by lia.
    by replace (length data) with n by lia.
Qed.

(** C9. [mom2_along(direction)] leaves the caller's direction array as it
    was: the only change to the store is one new buffer, the float copy
    made by [astype], and it is this copy that the loop divides in place;
    the buffer of [direction], and every other buffer that existed, reads
    as before. *)
Theorem mom2_along_keeps_direction (self : ScalarStatistic F)
    (h : gmap nat (list (pyval F))) (d : ndarray) (data : list (pyval F)) :
  h !! buf d = Some data ->
  ∃ copy,
    (mom2_along_st self h d).1 = <[fresh (dom h) := copy]> h
    ∧ h !! fresh (dom h) = None
    ∧ copy = foldl (fun x r => divide_row (ncols d) r x)
               (map (fun v => PyNum (to_float v)) data) (seq 0 (rows_of d))
    ∧ (mom2_along_st self h d).1 !! buf d = Some data
    ∧ ∀ l, is_Some (h !! l) -> (mom2_along_st self h d).1 !! l = h !! l.
Proof.
  intros Hd. eexists. split; [by apply mom2_along_st_store|].
  assert (Hfresh : h !! fresh (dom h) = None).
  { apply not_elem_of_dom. apply is_fresh. }
  split; [done|]. split; [done|].
  rewrite (mom2_along_st_store _ _ _ _ Hd).
  split.
  - rewrite lookup_insert_ne; [done|]. intros Heq. congruence.
  - intros l [x Hx]. rewrite lookup_insert_ne; [done|]. intros Heq. congruence.
Qed.

End DirectionUnchanged.

Lemma mom2_along_keeps_direction_witness :
  ∃ copy,
    (mom2_along_st block store_0_2 direction_0_2).1
      = <[fresh (dom store_0_2) := copy]> store_0_2
    ∧ store_0_2 !! fresh (dom store_0_2) = None
    ∧ copy = foldl (fun x r => divide_row (ncols direction_0_2) r x)
               (map (fun v => PyNum (to_float v)) [PyNum 0%float; PyNum 2%float])
               (seq 0 (rows_of direction_0_2))
    ∧ (mom2_along_st block store_0_2 direction_0_2).1 !! buf direction_0_2
        = Some [PyNum 0%float; PyNum 2%float]
    ∧ ∀ l, is_Some (store_0_2 !! l) ->
           (mom2_along_st block store_0_2 direction_0_2).1 !! l = store_0_2 !! l.
Proof.
  apply (mom2_along_keeps_direction block store_0_2 direction_0_2).
  reflexivity.
Defined.

(** The copy is what protects the caller: the same loop on the view that
    [np.atleast_2d] returns writes into the caller's buffer. *)
Example normalize_in_place_overwrites :
  normalize_in_place store_0_2 direction_0_2 !! 0
  = Some [PyNum 0%float; PyNum 1%float]
  ∧ (mom2_along_st block store_0_2 direction_0_2).1 !! 1
    = Some [PyNum 0%float; PyNum 1%float].
Proof. split; vm_compute; reflexivity. Qed.

(** A descriptor is one of the seven of the class. *)
Ltac declared :=
  unfold PPVStatistic_descriptors; apply list_elem_of_In; simpl; tauto.

(** ** PPVStatistic: the sky axes and the position angle *)

Section SkyAxes.
Context {F : Type} `{Numeric F} `{Promote F}.

Variable eig : list (list F) -> result (list F * list (list F)).
Variable argsort : list F -> list nat.
Variable arctan2 : F -> F -> F.
Variable degrees : F -> F.

(** Reading a field of [PPVStatistic] never fails, and gives the entry of
    the record when there is one. *)
Lemma attr_present (d : MetaData F) (self : PPVStatistic F) (x : pyval F) :
  metadata self !! key d = Some x -> attr d self = Ok x.
Proof.
  intros Hx. unfold attr, __get__. rewrite Hx.
  rewrite bool_decide_eq_false_2 by done. by rewrite andb_false_r.
Qed.

Lemma attr_total (d : MetaData F) (self : PPVStatistic F) :
  d ∈ PPVStatistic_descriptors ->
  attr d self = Ok (read_field d (metadata self)).
Proof.
  intros Hd. unfold attr, __get__.
  assert (Hs : strict d = false).
  { unfold PPVStatistic_descriptors in Hd.
    repeat (apply elem_of_cons in Hd as [->|Hd]; [done|]).
    by apply elem_of_nil in Hd. }
  by rewrite Hs.
Qed.

(** What [sky_pa] passes to [np.arctan2], by the value of [vaxis], when the
    major axis of the projection is [[p0, p1]]: [_sky_paxes] puts the value
    of [vaxis] in front of it, and [a.pop(vaxis)] then removes the entry
    at the index [vaxis]. *)
Lemma sky_pa_args_by_vaxis (self : PPVStatistic F) (i : Z) (p0 p1 : F)
    (b : list (pyval F)) :
  metadata self !! "vaxis" = Some (PyInt i) ->
  _sky_paxes eig argsort self = Ok ([PyInt i; PyNum p0; PyNum p1], b) ->
  (i = 0%Z -> sky_pa_args eig argsort self = Ok (PyNum p0, PyNum p1))
  ∧ (i = 1%Z -> sky_pa_args eig argsort self = Ok (PyInt 1, PyNum p1))
  ∧ (i = 2%Z -> sky_pa_args eig argsort self = Ok (PyInt 2, PyNum p0)).
Proof.
  intros Hv Hax. repeat split; intros ->.
  all: unfold sky_pa_args; rewrite Hax, bind_Ok.
  all: rewrite (attr_present vaxis self _ Hv); done.
Qed.

End SkyAxes.

(** C3, at [vaxis = 1].  The two pixels differ along the last axis, so the
    major sky axis has the in-plane components [0, 1]; [_sky_paxes] tags it
    as [[1, 0, 1]], and [sky_pa] removes the entry at index 1, the first
    in-plane component, instead of the tag: [np.arctan2] is called with
    [(1, 1)], the tag and the second component, and not with [(0, 1)]. *)
Theorem sky_pa_pops_in_plane_component (arctan2 : float -> float -> float)
    (degrees : float -> float) :
  let self := mkPPVStatistic pair_along_x {[ "vaxis" := PyInt 1 ]} in
  _sky_paxes eig_of_diagonal argsort_float64 self
    = Ok ([PyInt 1; PyNum 0%float; PyNum 1%float],
          [PyInt 1; PyNum 1%float; PyNum 0%float])
  ∧ sky_pa_args eig_of_diagonal argsort_float64 self
    = Ok (PyInt 1, PyNum 1%float)
  ∧ sky_pa eig_of_diagonal argsort_float64 arctan2 degrees self
    = Ok (PyNum (degrees (arctan2 1%float 1%float))).
Proof.
  intros self.
  assert (Hax : _sky_paxes eig_of_diagonal argsort_float64 self
                = Ok ([PyInt 1; PyNum 0%float; PyNum 1%float],
                      [PyInt 1; PyNum 1%float; PyNum 0%float]))
    by (vm_compute; reflexivity).
  assert (Hargs : sky_pa_args eig_of_diagonal argsort_float64 self
                  = Ok (PyInt 1, PyNum 1%float))
    by (vm_compute; reflexivity).
  split; [done|]. split; [done|].
  unfold sky_pa. rewrite Hargs. reflexivity.
Qed.

(** The same happens with no [vaxis] in the record, whose default is 1,
    and with [vaxis = 2], where the second in-plane component is lost. *)
Example sky_pa_args_default_and_last :
  sky_pa_args eig_of_diagonal argsort_float64 (mkPPVStatistic pair_along_x ∅)
  = Ok (PyInt 1, PyNum 1%float)
  ∧ _sky_paxes eig_of_diagonal argsort_float64
      (mkPPVStatistic pair_along_x {[ "vaxis" := PyInt 2 ]})
    = Ok ([PyInt 2; PyNum 0%float; PyNum 1%float],
          [PyInt 2; PyNum 1%float; PyNum 0%float])
  ∧ sky_pa_args eig_of_diagonal argsort_float64
      (mkPPVStatistic pair_along_x {[ "vaxis" := PyInt 2 ]})
    = Ok (PyInt 2, PyNum 0%float).
Proof. repeat split; vm_compute; reflexivity. Qed.

(** With [vaxis = 0] the tag is what [pop] removes: the same pixels seen in
    a cube whose velocity axis is the first. *)
Example sky_pa_vaxis_0 (arctan2 : float -> float -> float)
    (degrees : float -> float) :
  sky_pa eig_of_diagonal argsort_float64 arctan2 degrees
    (mkPPVStatistic pair_along_x {[ "vaxis" := PyInt 0 ]})
  = Ok (PyNum (degrees (arctan2 0%float 1%float))).
Proof.
  assert (Hargs : sky_pa_args eig_of_diagonal argsort_float64
                    (mkPPVStatistic pair_along_x {[ "vaxis" := PyInt 0 ]})
                  = Ok (PyNum 0%float, PyNum 1%float))
    by (vm_compute; reflexivity).
  unfold sky_pa. rewrite Hargs. reflexivity.
Qed.

(** ** PPVStatistic: the flux *)

Section Flux.
Context {F : Type} `{Numeric F} `{Promote F}.
Local Open Scope num_scope.

Variable float_pow2 : F -> result F.

(** On any arithmetic, float64 included: [flux()] computes the factor
    [(bunit * dx ** 2) * dv] from the metadata, then multiplies it with
    [mom0()]. *)
Lemma flux_formula (self : PPVStatistic F) :
  flux float_pow2 self
  = (fac ← flux_factor float_pow2 (metadata self);
     py_mul fac (PyNum (mom0 (stat self)))).
Proof.
  unfold flux, flux_factor.
  rewrite !attr_total by declared. rewrite !bind_Ok.
  destruct (py_sq float_pow2 _) as [sq|e]; [|done]. rewrite !bind_Ok.
  by destruct (py_mul _ sq) as [t|e].
Qed.

Lemma py_mul_float (fac : pyval F) (x : F) :
  py_mul fac (PyNum x) = (f ← checked_float fac; Ok (PyNum (f * x))).
Proof. by destruct fac. Qed.

Lemma np_sum_scale (c : F) (l : list F) :
  (∀ x y z : F, x * (y + z) = x * y + x * z) -> (∀ x : F, x * nzero = nzero) ->
  np_sum (map (nmul c) l) = c * np_sum l.
Proof.
  intros mul_add_distr mul_zero.
  destruct l as [|x l]; simpl; [by rewrite mul_zero|].
  revert x. induction l as [|y l IH]; intros x; simpl; [done|].
  by rewrite <- mul_add_distr, IH.
Qed.

(** Scaling every value by [c] scales [mom0()] by [c]. *)
Lemma mom0_scale (c : F) (s : ScalarStatistic F) :
  exact_arithmetic ->
  mom0 (mkScalarStatistic (map (nmul c) (values s)) (indices s))
  = c * mom0 s.
Proof.
  intros (_ & _ & mul_add_distr & mul_zero & _ & _ & _ & _ & no_nan & _).
  unfold mom0, nansum. cbn [values].
  assert (Hid : ∀ l : list F,
            map (fun x => if nisnan x then nzero else x) l = l).
  { intros l. rewrite <- (map_id l) at 2. apply List.map_ext.
    intros x. by rewrite no_nan. }
  rewrite !Hid. by apply np_sum_scale.
Qed.

(** C6.  On every arithmetic [flux()] is the factor
    [bunit * dx ** 2 * dv], computed from the metadata alone, times
    [mom0()]; when the factor cannot be computed, because the power or the
    conversion of an int overflows, [flux()] fails with the error of the
    factor.  For a record whose factor is computed, [flux()] is linear in
    [mom0()] in exact arithmetic: when [mom0()] scales by [c], in
    particular when every value is scaled by [c], the flux scales by [c].
    In float64 the last product is rounded, and the flux of the scaled
    values is [c] times the flux only up to that rounding. *)
Theorem flux_linear_in_mom0 (md : gmap string (pyval F)) :
  (∀ s, flux float_pow2 (mkPPVStatistic s md)
        = (sq ← py_sq float_pow2 (read_field dx md);
           t ← py_mul (read_field bunit md) sq;
           fac ← py_mul t (read_field dv md);
           py_mul fac (PyNum (mom0 s))))
  ∧ (∀ s e, flux_factor float_pow2 md = Raise e ->
            flux float_pow2 (mkPPVStatistic s md) = Raise e)
  ∧ (exact_arithmetic ->
     ∀ fac, flux_factor float_pow2 md = Ok fac ->
       (∀ s1 s2 c,
          mom0 s2 = c * mom0 s1 ->
          ∃ f1, flux float_pow2 (mkPPVStatistic s1 md) = Ok (PyNum f1)
                ∧ flux float_pow2 (mkPPVStatistic s2 md) = Ok (PyNum (c * f1)))
       ∧ (∀ s c,
            ∃ f1, flux float_pow2 (mkPPVStatistic s md) = Ok (PyNum f1)
                  ∧ flux float_pow2
                      (mkPPVStatistic
                         (mkScalarStatistic (map (nmul c) (values s))
                            (indices s)) md)
                    = Ok (PyNum (c * f1)))).
Proof.
  split; [|split].
  - intros s. rewrite flux_formula. unfold flux_factor. cbn [metadata stat].
    destruct (py_sq float_pow2 _) as [sq|e]; [|done]. rewrite !bind_Ok.
    by destruct (py_mul _ sq) as [t|e].
  - intros s e He. rewrite flux_formula. cbn [metadata]. by rewrite He.
  - intros Hex fac Hfac.
    pose proof Hex as (mul_comm & mul_assoc & _ & _ & _ & _ & _ & _ & _ & Hfits).
    assert (Hflux : ∀ s, flux float_pow2 (mkPPVStatistic s md)
                         = Ok (PyNum (to_float fac * mom0 s))).
    { intros s. rewrite flux_formula. cbn [metadata stat].
      rewrite Hfac, bind_Ok, py_mul_float.
      destruct fac as [z|x]; cbn [checked_float to_float]; [|done].
      by rewrite Hfits. }
    assert (Hscale : ∀ s1 s2 c,
              mom0 s2 = c * mom0 s1 ->
              ∃ f1, flux float_pow2 (mkPPVStatistic s1 md) = Ok (PyNum f1)
                    ∧ flux float_pow2 (mkPPVStatistic s2 md)
                      = Ok (PyNum (c * f1))).
    { intros s1 s2 c Hm. eexists. split; [apply Hflux|].
      rewrite Hflux, Hm.
      by rewrite mul_assoc, (mul_comm _ c), <- mul_assoc. }
    split; [exact Hscale|].
    intros s c. apply Hscale. by apply mom0_scale.
Qed.

End Flux.

Lemma exact_arithmetic_reals : exact_arithmetic (F:=R).
Proof.
  unfold exact_arithmetic. cbn.
  split; [intros; lra|]. split; [intros; lra|]. split; [intros; lra|].
  split; [intros; lra|]. split; [intros; lra|]. split; [intros; lra|].
  split; [intros; apply Rdiv_1_r|]. split; [apply sqrt_1|]. done.
Qed.

Lemma flux_linear_in_mom0_witness :
  ∃ f1, flux exact_square (mkPPVStatistic pair_exact ∅) = Ok (PyNum f1)
        ∧ flux exact_square
            (mkPPVStatistic
               (mkScalarStatistic (map (Rmult 3) (values pair_exact))
                  (indices pair_exact)) ∅)
          = Ok (PyNum (3 * f1)%R).
Proof.
  destruct (flux_linear_in_mom0 (F:=R) exact_square ∅)
    as (_ & _ & Hexact).
  destruct (Hexact exact_arithmetic_reals (PyInt 1) eq_refl) as [_ Hvalues].
  exact (Hvalues pair_exact 3%R).
Defined.

(** The claim fails in float64: with [bunit = 0.1], the values [18] have
    three times the [mom0()] of the values [6], and the flux of the first is
    not three times the flux of the second, whatever the power function
    computes ([0.1 * 18] is 1.8, and [3 * (0.1 * 6)] is
    1.8000000000000003). *)
Lemma flux_not_linear_float64 :
  mom0 eighteen = (3 * mom0 six)%float
  ∧ ∀ pw : float -> result float,
      ∃ f1 f2,
        flux pw (mkPPVStatistic six {[ "bunit" := PyNum one_tenth ]})
        = Ok (PyNum f1)
        ∧ flux pw (mkPPVStatistic eighteen {[ "bunit" := PyNum one_tenth ]})
          = Ok (PyNum f2)
        ∧ (f2 =? 3 * f1)%float = false.
Proof.
  split; [vm_compute; reflexivity|].
  intros pw. eexists _, _.
  split; [vm_compute; reflexivity|].
  split; [vm_compute; reflexivity|].
  vm_compute. reflexivity.
Qed.

(** And [flux()] can fail: squaring the pixel length [2 ** 600] is beyond
    float64, and Python's power raises. *)
Example flux_power_overflows :
  flux checked_square (mkPPVStatistic six {[ "dx" := PyNum 0x1p+600%float ]})
  = Raise OverflowError.
Proof. vm_compute. reflexivity. Qed.

(** ** IEEE 754 binary64: the square root of a negative difference

    Facts about the specification of [float] that the beam deconvolution
    needs: rounding a non-zero integer at an exponent that is not below the
    smallest one never gives zero, so subtracting a greater number gives a
    negative number or minus infinity, whose square root is NaN. *)

Section Binary64.
Local Open Scope Z_scope.

Lemma digits2_pos_size (p : positive) : digits2_pos p = Pos.size p.
Proof. induction p; simpl; congruence. Qed.

Lemma digits2_pos_bounds (p : positive) :
  2 ^ (Z.pos (digits2_pos p) - 1) <= Z.pos p < 2 ^ Z.pos (digits2_pos p).
Proof.
  rewrite digits2_pos_size. split.
  - pose proof (Pos.size_le p) as Hle.
    assert (Hpow : Z.pos (2 ^ Pos.size p) = 2 ^ Z.pos (Pos.size p))
      by (by rewrite Pos2Z.inj_pow).
    assert (H2 : 2 ^ Z.pos (Pos.size p) = 2 * 2 ^ (Z.pos (Pos.size p) - 1)).
    { rewrite <- Z.pow_succ_r by lia. f_equal. lia. }
    lia.
  - pose proof (Pos.size_gt p) as Hgt.
    assert (Hpow : Z.pos (2 ^ Pos.size p) = 2 ^ Z.pos (Pos.size p))
      by (by rewrite Pos2Z.inj_pow).
    lia.
Qed.

Lemma iter_pos_iter {A : Type} (f : A -> A) (p : positive) (x : A) :
  SpecFloat.iter_pos f p x = Pos.iter f x p.
Proof.
  revert x. induction p as [p IH|p IH|]; intros x; simpl; [|by rewrite !IH|done].
  rewrite !IH. rewrite <- !Pos.iter_swap. done.
Qed.

Lemma shr_1_positive (m : positive) (r s : bool) :
  1 < Z.pos (digits2_pos m) ->
  ∃ m', shr_m (shr_1 (Build_shr_record (Z.pos m) r s)) = Z.pos m'
        ∧ Z.pos (digits2_pos m') = Z.pos (digits2_pos m) - 1.
Proof.
  intros Hd. destruct m as [m|m|]; simpl in *; [| |lia].
  all: exists m; split; [done|lia].
Qed.

Lemma iter_shr_1_positive (p m : positive) (r s : bool) :
  Z.pos p < Z.pos (digits2_pos m) ->
  ∃ m', shr_m (Pos.iter shr_1 (Build_shr_record (Z.pos m) r s) p) = Z.pos m'
        ∧ Z.pos (digits2_pos m') = Z.pos (digits2_pos m) - Z.pos p.
Proof.
  induction p as [|p IH] using Pos.peano_ind; intros Hp.
  - simpl. apply shr_1_positive. lia.
  - rewrite Pos.iter_succ.
    destruct IH as (m' & Hm' & Hd'); [lia|].
    destruct (Pos.iter shr_1 _ p) as [m0 r0 s0]. simpl in Hm'. subst m0.
    destruct (shr_1_positive m' r0 s0) as (m'' & Hm'' & Hd''); [lia|].
    exists m''. split; [done|lia].
Qed.

Lemma shr_fexp_positive (m : positive) (e : Z) (l : location) :
  emin <= e ->
  ∃ m', shr_m (shr_fexp prec emax (Z.pos m) e l).1 = Z.pos m'
        ∧ emin <= (shr_fexp prec emax (Z.pos m) e l).2.
Proof.
  intros He. unfold shr_fexp, shr.
  assert (Hrec : ∃ r s, shr_record_of_loc (Z.pos m) l
                        = Build_shr_record (Z.pos m) r s)
    by (destruct l as [|[]]; simpl; eauto).
  destruct Hrec as (r & s & ->).
  destruct (fexp prec emax (Zdigits2 (Z.pos m) + e) - e) as [|p|p] eqn:En;
    cbn [fst snd shr_m].
  - exists m. split; [done|lia].
  - rewrite iter_pos_iter.
    destruct (iter_shr_1_positive p m r s) as (m' & Hm' & _).
    { unfold fexp, SpecFloat.emin, prec, emax in *. simpl Zdigits2 in En. lia. }
    exists m'. split; [done|]. unfold SpecFloat.emin, prec, emax in *. lia.
  - exists m. split; [done|lia].
Qed.

Lemma round_nearest_even_positive (m : positive) (l : location) :
  ∃ m', round_nearest_even (Z.pos m) l = Z.pos m'.
Proof.
  unfold round_nearest_even.
  destruct l as [|[]]; try destruct (Z.even (Z.pos m)); simpl; eauto.
Qed.

Lemma binary_round_aux_signed (sx : bool) (m : positive) (e : Z) (l : location) :
  emin <= e ->
  (∃ m' e', binary_round_aux prec emax sx (Z.pos m) e l = S754_finite sx m' e')
  ∨ binary_round_aux prec emax sx (Z.pos m) e l = S754_infinity sx.
Proof.
  intros He. unfold binary_round_aux.
  destruct (shr_fexp_positive m e l He) as (m1 & Hm1 & He1).
  destruct (shr_fexp prec emax (Z.pos m) e l) as [mrs' e']. simpl in Hm1, He1.
  rewrite Hm1.
  destruct (round_nearest_even_positive m1 (loc_of_shr_record mrs')) as [m2 ->].
  destruct (shr_fexp_positive m2 e' loc_Exact He1) as (m3 & Hm3 & He3).
  destruct (shr_fexp prec emax (Z.pos m2) e' loc_Exact) as [mrs'' e''].
  simpl in Hm3. rewrite Hm3.
  destruct (e'' <=? emax - prec); eauto.
Qed.

Lemma binary_round_signed (sx : bool) (m : positive) (e : Z) :
  emin <= e ->
  (∃ m' e', binary_round prec emax sx m e = S754_finite sx m' e')
  ∨ binary_round prec emax sx m e = S754_infinity sx.
Proof.
  intros He. unfold binary_round.
  destruct (shl_align m e _) as [mz ez] eqn:Es.
  apply binary_round_aux_signed.
  unfold shl_align in Es.
  destruct (fexp prec emax (Z.pos (digits2_pos m) + e) - e) eqn:En;
    injection Es as <- <-; try lia.
  unfold fexp, SpecFloat.emin, prec, emax in *. lia.
Qed.

Lemma pos_iter_xO (m d : positive) :
  Z.pos (Pos.iter xO m d) = Z.pos m * 2 ^ Z.pos d.
Proof.
  induction d as [|d IH] using Pos.peano_ind.
  - simpl. lia.
  - rewrite Pos.iter_succ, Pos2Z.inj_xO, IH, Pos2Z.inj_succ.
    rewrite Z.pow_succ_r by lia. lia.
Qed.

Lemma shl_align_value (m : positive) (e ez : Z) :
  ez <= e -> Z.pos (shl_align m e ez).1 = Z.pos m * 2 ^ (e - ez).
Proof.
  intros He. unfold shl_align.
  destruct (ez - e) as [|d|d] eqn:Ed; simpl.
  - replace (e - ez) with 0 by lia. lia.
  - lia.
  - rewrite pos_iter_xO. f_equal. f_equal. lia.
Qed.

Lemma valid_finite (s : bool) (m : positive) (e : Z) :
  valid_binary (S754_finite s m e) = true ->
  emin <= e ∧ Z.pos (digits2_pos m) <= prec
  ∧ (Z.pos (digits2_pos m) = prec ∨ e = emin).
Proof.
  simpl. unfold bounded, canonical_mantissa. intros Hb.
  apply andb_prop in Hb as [Hc _]. apply Z.eqb_eq in Hc.
  unfold fexp, SpecFloat.emin, prec, emax in *. lia.
Qed.

(** Two valid finite numbers of the same sign compare as their exponents
    do, then as their mantissas do; so do their mantissas once aligned. *)
Lemma aligned_lt (mx my : positive) (ex ey : Z) :
  valid_binary (S754_finite false mx ex) = true ->
  valid_binary (S754_finite false my ey) = true ->
  ex < ey ∨ (ex = ey ∧ Z.pos mx < Z.pos my) ->
  Z.pos mx * 2 ^ (ex - Z.min ex ey) < Z.pos my * 2 ^ (ey - Z.min ex ey).
Proof.
  intros Hx Hy Hlt.
  apply valid_finite in Hx as (Hex & Hdx & _).
  apply valid_finite in Hy as (Hey & Hdy & Hny).
  destruct Hlt as [Hlt|[-> Hlt]].
  - rewrite Z.min_l by lia. rewrite Z.sub_diag, Z.pow_0_r, Z.mul_1_r.
    assert (Hdy' : Z.pos (digits2_pos my) = prec)
      by (unfold SpecFloat.emin, prec, emax in *; lia).
    pose proof (digits2_pos_bounds mx) as [_ Hmx].
    pose proof (digits2_pos_bounds my) as [Hmy _].
    rewrite Hdy' in Hmy.
    assert (Hp : 2 ^ Z.pos (digits2_pos mx) <= 2 ^ prec)
      by (apply Z.pow_le_mono_r; lia).
    assert (H2 : 2 ^ 1 <= 2 ^ (ey - ex)) by (apply Z.pow_le_mono_r; lia).
    assert (Hs : 2 ^ prec = 2 ^ (prec - 1) * 2 ^ 1)
      by (rewrite <- Z.pow_add_r by (unfold prec; lia); f_equal; lia).
    nia.
  - rewrite Z.min_id, Z.sub_diag, Z.pow_0_r. lia.
Qed.

Lemma binary_normalize_negative (d e : Z) :
  d < 0 -> emin <= e ->
  SFsqrt prec emax (binary_normalize prec emax d e false) = S754_nan.
Proof.
  intros Hd He. destruct d as [|p|p]; [lia|lia|]. simpl binary_normalize.
  destruct (binary_round_signed true p e He) as [(m' & e' & ->)| ->]; done.
Qed.

(** In binary64, the difference of a number and a greater one has no real
    square root: it is negative and not zero, since there is no underflow
    in a subtraction. *)
Lemma SFsqrt_SFsub_lt (x y : spec_float) :
  valid_binary x = true -> valid_binary y = true ->
  SFltb x y = true ->
  SFsqrt prec emax (SFsub prec emax x y) = S754_nan.
Proof.
  intros Hx Hy Hlt. unfold SFltb in Hlt.
  destruct x as [sx|sx| |sx mx ex], y as [sy|sy| |sy my ey];
    try discriminate Hlt;
    try (by destruct sx, sy).
  cbn [SFsub]. simpl in Hlt.
  pose proof (valid_finite _ _ _ Hx) as (Hex & _).
  pose proof (valid_finite _ _ _ Hy) as (Hey & _).
  apply binary_normalize_negative; [|lia].
  rewrite !shl_align_value by lia.
  assert (Hpx : 0 < Z.pos mx * 2 ^ (ex - Z.min ex ey))
    by (apply Z.mul_pos_pos; [lia|apply Z.pow_pos_nonneg; lia]).
  assert (Hpy : 0 < Z.pos my * 2 ^ (ey - Z.min ex ey))
    by (apply Z.mul_pos_pos; [lia|apply Z.pow_pos_nonneg; lia]).
  destruct sx, sy; simpl cond_Zopp; try done; try lia.
  - (* both negative *)
    assert (Hlt' : ey < ex ∨ (ey = ex ∧ Z.pos my < Z.pos mx)).
    { destruct (Z.compare_spec ex ey) as [->|?|?]; try done; [|lia].
      right. split; [done|].
      rewrite Pos.compare_cont_spec in Hlt. simpl in Hlt.
      destruct (Pos.compare_spec mx my); simpl in Hlt; try done; lia. }
    pose proof (aligned_lt my mx ey ex Hy Hx Hlt') as Hal.
    rewrite (Z.min_comm ey ex) in Hal. lia.
  - (* both positive *)
    assert (Hlt' : ex < ey ∨ (ex = ey ∧ Z.pos mx < Z.pos my)).
    { destruct (Z.compare_spec ex ey) as [->|?|?]; try done; [|lia].
      right. split; [done|].
      rewrite Pos.compare_cont_spec in Hlt. simpl in Hlt.
      destruct (Pos.compare_spec mx my); simpl in Hlt; try done; lia. }
    pose proof (aligned_lt mx my ex ey Hx Hy Hlt') as Hal. lia.
Qed.

(** The same on primitive floats. *)
Lemma is_nan_spec (x : float) : is_nan x = true <-> Prim2SF x = S754_nan.
Proof.
  unfold is_nan. rewrite FloatAxioms.eqb_spec. unfold SFeqb.
  destruct (Prim2SF x) as [s|s| |s m e]; simpl.
  - split; [discriminate|discriminate].
  - destruct s; split; discriminate.
  - tauto.
  - rewrite Z.compare_refl, Pos.compare_cont_refl.
    destruct s; split; discriminate.
Qed.

Lemma sqrt_sub_lt_nan (x y : float) :
  (x <? y)%float = true -> is_nan (PrimFloat.sqrt (x - y)%float) = true.
Proof.
  intros Hlt. apply is_nan_spec.
  rewrite sqrt_spec, sub_spec.
  rewrite ltb_spec in Hlt.
  apply SFsqrt_SFsub_lt; [apply Prim2SF_valid|apply Prim2SF_valid|done].
Qed.

Lemma mul_nan_l (x y : float) : is_nan x = true -> is_nan (x * y)%float = true.
Proof.
  rewrite !is_nan_spec, mul_spec. by intros ->.
Qed.

Lemma mul_nan_r (x y : float) : is_nan y = true -> is_nan (x * y)%float = true.
Proof.
  rewrite !is_nan_spec, mul_spec. intros ->.
  by destruct (Prim2SF x).
Qed.

Lemma sqrt_nan (x : float) : is_nan x = true -> is_nan (PrimFloat.sqrt x) = true.
Proof.
  rewrite !is_nan_spec, sqrt_spec. by intros ->.
Qed.

End Binary64.

(** ** PPVStatistic: the deconvolved radius *)

Section Deconvolution.
Variable eig : list (list float) -> result (list float * list (list float)).
Variable argsort : list float -> list nat.
Variable np_pow2 : float -> float.

Lemma py_mul_float_Ok {F : Type} `{Numeric F} `{Promote F} (d v : pyval F)
    (x : F) :
  py_mul d (PyNum x) = Ok v ->
  ∃ f, checked_float d = Ok f ∧ v = PyNum (nmul f x).
Proof.
  rewrite py_mul_float. destruct (checked_float d) as [f|e]; [|done].
  rewrite bind_Ok. intros [= <-]. eauto.
Qed.

Lemma scaled_sqrt_along_is_float (self : PPVStatistic float) (d : pyval float)
    (direction : list (pyval float)) (v : pyval float) :
  scaled_sqrt_along self d direction = Ok v -> ∃ a, v = PyNum a.
Proof.
  unfold scaled_sqrt_along.
  destruct (mom2_along _ _) as [[x|m]|e]; simpl; [|done|done].
  intros Hv. apply py_mul_float_Ok in Hv as (f & _ & ->). eauto.
Qed.

Lemma sky_maj_is_float (self : PPVStatistic float) (v : pyval float) :
  sky_maj eig argsort self = Ok v -> ∃ a, v = PyNum a.
Proof.
  unfold sky_maj. destruct (attr dx self) as [d|e]; simpl; [|done].
  destruct (_sky_paxes eig argsort self) as [[a b]|e]; simpl; [|done].
  apply scaled_sqrt_along_is_float.
Qed.

Lemma sky_min_is_float (self : PPVStatistic float) (v : pyval float) :
  sky_min eig argsort self = Ok v -> ∃ a, v = PyNum a.
Proof.
  unfold sky_min. destruct (attr dx self) as [d|e]; simpl; [|done].
  destruct (_sky_paxes eig argsort self) as [[a b]|e]; simpl; [|done].
  apply scaled_sqrt_along_is_float.
Qed.

(** C8.  When [sky_maj()] and [sky_min()] have
    returned the axes [a] and [b], the beam area [bmaj * bmin] has a float,
    and this float exceeds [a ** 2] or [b ** 2] as NumPy's power computes
    them, [sky_deconvolved_rad()] does not raise: it returns a float, and
    this float is NaN. *)
Theorem sky_deconvolved_rad_unresolved (self : PPVStatistic float)
    (a b beam : float) :
  sky_maj eig argsort self = Ok (PyNum a) ->
  sky_min eig argsort self = Ok (PyNum b) ->
  (bm ← py_mul (read_field bmaj (metadata self))
         (read_field bmin (metadata self));
   checked_float bm) = Ok beam ->
  (np_pow2 a <? beam)%float = true ∨ (np_pow2 b <? beam)%float = true ->
  ∃ r, sky_deconvolved_rad eig argsort np_pow2 self = Ok (PyNum r)
       ∧ is_nan r = true.
Proof.
  intros Ha Hb Hbm Hbeam.
  unfold sky_deconvolved_rad.
  rewrite !attr_total by declared. rewrite !bind_Ok.
  destruct (py_mul (read_field bmaj _) _) as [bm|e] eqn:Ebm; [|done].
  cbn [mbind result_bind] in Hbm. rewrite bind_Ok.
  rewrite Ha, bind_Ok. cbn [_qsplit]. rewrite Hb, bind_Ok.
  assert (Hsub : ∀ x, py_sub (np_sq np_pow2 (PyNum x)) bm
                      = Ok (PyNum (np_pow2 x - beam)%float)).
  { intros x. cbn [np_sq]. destruct bm as [z|y]; cbn [py_sub checked_float] in *.
    - destruct (fits z); [|done]. rewrite !bind_Ok.
      by injection Hbm as <-.
    - rewrite !bind_Ok. by injection Hbm as <-. }
  rewrite !Hsub, !bind_Ok. eexists. split; [reflexivity|].
  apply mul_nan_r, sqrt_nan. cbn [np_sqrt to_float].
  destruct Hbeam as [Hlt|Hlt].
  - apply mul_nan_l. apply (sqrt_sub_lt_nan _ _ Hlt).
  - apply mul_nan_r. apply (sqrt_sub_lt_nan _ _ Hlt).
Qed.

End Deconvolution.

Lemma sky_deconvolved_rad_unresolved_witness :
  ∃ r, sky_deconvolved_rad eig_of_diagonal argsort_float64 rounded_square
         beam_10 = Ok (PyNum r)
       ∧ is_nan r = true.
Proof.
  apply (sky_deconvolved_rad_unresolved eig_of_diagonal argsort_float64
           rounded_square beam_10 1%float 0%float 100%float).
  - vm_compute. reflexivity.
  - vm_compute. reflexivity.
  - vm_compute. reflexivity.
  - left. vm_compute. reflexivity.
Defined.

(** The claim fails for a beam that is an int too large for a float: the
    axes are 1 and 0, the beam area [10 ** 400] exceeds their squares, and
    [sky_deconvolved_rad()] raises [OverflowError] at the subtraction,
    whatever the power computes. *)
Lemma huge_beam_overflows :
  sky_maj eig_of_diagonal argsort_float64 huge_beam = Ok (PyNum 1%float)
  ∧ sky_min eig_of_diagonal argsort_float64 huge_beam = Ok (PyNum 0%float)
  ∧ py_mul (read_field bmaj (metadata huge_beam))
      (read_field bmin (metadata huge_beam)) = Ok (PyInt (10 ^ 400))
  ∧ ∀ pw : float -> float,
      sky_deconvolved_rad eig_of_diagonal argsort_float64 pw huge_beam
      = Raise OverflowError.
Proof.
  split; [vm_compute; reflexivity|].
  split; [vm_compute; reflexivity|].
  split; [vm_compute; reflexivity|].
  intros pw. vm_compute. reflexivity.
Qed.

(** ** ScalarStatistic: principal axes *)

Section Transposition.
Context {F : Type} `{Numeric F} `{Promote F}.

Lemma column_dims (n : nat) (v : list (list F)) (o : nat) :
  Forall (fun row => length row = n) v -> o < n ->
  column v o = Ok (omap (fun row => row !! o) v)
  ∧ length (omap (fun row : list F => row !! o) v) = length v.
Proof.
  intros Hv Ho. unfold column.
  induction Hv as [|row v Hrow _ [IH1 IH2]]; [done|].
  destruct (lookup_lt_is_Some_2 row o) as [x Hx]; [lia|].
  cbn [mapM omap list_omap]. rewrite Hx. cbn [mapM].
  rewrite bind_Ok, IH1, bind_Ok. split; [done|]. simpl. by rewrite IH2.
Qed.

Lemma omap_column_lookup (v : list (list F)) (i j : nat) :
  Forall (fun row => j < length row) v ->
  omap (fun row : list F => row !! j) v !! i = get2 v i j.
Proof.
  intros Hv. revert i. induction Hv as [|row v Hrow _ IH]; intros i; [done|].
  destruct (lookup_lt_is_Some_2 row j Hrow) as [x Hx].
  cbn [omap list_omap]. rewrite Hx.
  destruct i as [|i]; [|apply IH].
  unfold get2. change ((row :: v) !! 0) with (Some row).
  change ((x :: omap (fun row0 : list F => row0 !! j) v) !! 0) with (Some x).
  by rewrite <- Hx.
Qed.

Lemma transpose_symmetric (n : nat) (m : list (list F)) :
  dims n m -> (∀ i j, get2 m i j = get2 m j i) -> transpose m n = m.
Proof.
  intros [Hl Hr] Hsym. unfold transpose.
  apply list_eq. intros j. rewrite list_lookup_fmap.
  destruct (decide (j < n)) as [Hj|Hj].
  - rewrite lookup_seq_lt by done. simpl.
    destruct (lookup_lt_is_Some_2 m j) as [row Hrow]; [lia|].
    rewrite Hrow. f_equal. apply list_eq. intros i.
    rewrite omap_column_lookup
      by (eapply Forall_impl; [exact Hr|]; intros r Hlen; simpl in *; lia).
    rewrite Hsym. unfold get2. by rewrite Hrow.
  - rewrite lookup_seq_ge by lia. simpl. symmetry.
    apply lookup_ge_None. lia.
Qed.

Lemma transpose_single (x : list F) :
  transpose [x] (length x) = map (fun z => [z]) x.
Proof.
  unfold transpose. apply list_eq. intros j. rewrite !list_lookup_fmap.
  destruct (decide (j < length x)) as [Hj|Hj].
  - rewrite lookup_seq_lt by done. simpl.
    destruct (lookup_lt_is_Some_2 x j Hj) as [z Hz]. by rewrite Hz.
  - rewrite lookup_seq_ge by lia. simpl.
    by rewrite (proj2 (lookup_ge_None x j)) by lia.
Qed.

Lemma transpose_columns (x : list F) :
  transpose (map (fun z => [z]) x) 1 = [x].
Proof.
  unfold transpose. simpl. f_equal.
  induction x as [|z x IH]; [done|]. simpl. f_equal. exact IH.
Qed.

Lemma dot_row (x : list F) (q : nat) (m : list (list F)) (p : nat) :
  q = length m -> dot [x] q m p = Ok [map (dot1 x) (transpose m p)].
Proof.
  intros ->. unfold dot. by rewrite Nat.eqb_refl.
Qed.

End Transposition.

Section PrincipalAxes.
Context {F : Type} `{Numeric F} `{Promote F}.
Local Open Scope num_scope.

(** The laws of exact arithmetic that the statements on eigenvalues use. *)
Hypothesis mul_comm : ∀ x y : F, x * y = y * x.
Hypothesis mul_assoc : ∀ x y z : F, x * (y * z) = (x * y) * z.
Hypothesis mul_add_distr : ∀ x y z : F, x * (y + z) = x * y + x * z.
Hypothesis mul_zero : ∀ x : F, x * nzero = nzero.
Hypothesis mul_one : ∀ x : F, x * nunit = x.
Hypothesis add_zero : ∀ x : F, nzero + x = x.
Hypothesis div_one : ∀ x : F, ndiv x nunit = x.
Hypothesis sqrt_one : nsqrt nunit = nunit.

Lemma dot1_comm (a b : list F) : dot1 a b = dot1 b a.
Proof using mul_comm.
  unfold dot1. f_equal. revert b.
  induction a as [|x a IH]; intros [|y b]; simpl; [done..|].
  by rewrite mul_comm, IH.
Qed.

Lemma dot1_scale (lam : F) (x : list F) :
  dot1 (map (nmul lam) x) x = lam * np_sum (map (fun z => z * z) x).
Proof using mul_assoc mul_add_distr mul_zero add_zero.
  assert (Hfold : ∀ l a,
            fold_left nadd (zip_with nmul (map (nmul lam) l) l) (lam * a)
            = lam * fold_left nadd (map (fun z => z * z) l) a).
  { induction l as [|z l IH]; intros a; simpl; [done|].
    rewrite <- mul_assoc, <- mul_add_distr. apply IH. }
  unfold dot1. rewrite <- (mul_zero lam), Hfold. f_equal.
  destruct x as [|z x]; simpl; [done|]. by rewrite add_zero.
Qed.

Lemma normalize_unit (x : list F) : is_unit x -> normalize x = x.
Proof using div_one sqrt_one.
  intros Hx. unfold normalize, norm. rewrite Hx, sqrt_one.
  rewrite <- (map_id x) at 2. apply List.map_ext. apply div_one.
Qed.

(** Along a unit eigenvector of a symmetric [mom2()], [mom2_along] gives
    the eigenvalue. *)
Lemma mom2_along_unit_eigenvector (s : ScalarStatistic F) (m : list (list F))
    (lam : F) (x : list F) :
  mom2 s = Ok m -> dims (length (indices s)) m ->
  (∀ i j, get2 m i j = get2 m j i) ->
  is_unit x -> is_eigenvector m lam x ->
  mom2_along s (Vec (map PyNum x)) = Ok (Scalar lam).
Proof using mul_comm mul_assoc mul_add_distr mul_zero mul_one add_zero
  div_one sqrt_one.
  intros Hm Hd Hsym Hunit [Hlen Heig].
  unfold mom2_along. cbn [atleast_2d_float]. rewrite bind_Ok.
  rewrite map_map. cbn [to_float]. rewrite map_id, length_map.
  cbn [map]. rewrite (normalize_unit x Hunit).
  unfold project. rewrite Hm, bind_Ok.
  destruct Hd as [Hdl Hdr]. pose proof (conj Hdl Hdr) as Hd.
  rewrite (dot_row x) by done.
  rewrite bind_Ok. rewrite (transpose_symmetric _ m Hd Hsym).
  assert (Hrow : map (dot1 x) m = map (nmul lam) x).
  { apply list_eq. intros i. rewrite !list_lookup_fmap.
    destruct (m !! i) as [row|] eqn:Erow; simpl.
    - destruct (lookup_lt_is_Some_2 x i) as [xi Hxi].
      { rewrite Hlen. by eapply lookup_lt_Some. }
      rewrite Hxi. simpl. f_equal. rewrite dot1_comm. by eapply Heig.
    - by rewrite (proj2 (lookup_ge_None x i))
        by (rewrite Hlen; by apply lookup_ge_None). }
  rewrite Hrow, transpose_single.
  rewrite dot_row by (rewrite length_map; lia).
  rewrite bind_Ok. cbn [length]. rewrite transpose_columns. cbn [map].
  rewrite dot1_scale, Hunit, mul_one. done.
Qed.

Lemma lookup_total_seq (w : list F) :
  map (fun o => w !!! o) (seq 0 (length w)) = w.
Proof.
  apply list_eq. intros i. rewrite list_lookup_fmap.
  destruct (decide (i < length w)) as [Hi|Hi].
  - rewrite lookup_seq_lt by done. simpl. symmetry.
    by apply list_lookup_lookup_total_lt.
  - rewrite lookup_seq_ge by lia. simpl. symmetry.
    apply lookup_ge_None. lia.
Qed.

End PrincipalAxes.

Section AxesOrder.
Context {F : Type} `{Numeric F} `{Promote F}.
Local Open Scope num_scope.

Variable eig : list (list F) -> result (list F * list (list F)).
Variable argsort : list F -> list nat.
(** The order in which the eigenvalues are sorted. *)
Variable le : F -> F -> Prop.

(** C7. In any arithmetic, float64 included: when [eig] answers [(w, v)]
    of the right shape and [argsort] sorts, [paxes()] returns the columns
    of [v] in the reverse of the order of [argsort], one per dimension,
    and the entries of [w] taken in that order are all of [w], in
    descending order.  In exact arithmetic, and with an [eig] whose columns
    are unit eigenvectors for its eigenvalues, the axes are unit
    eigenvectors of [mom2()] and [mom2_along] of the k-th axis is the k-th
    eigenvalue in descending order. *)
Theorem paxes_descending_eigenvalues (s : ScalarStatistic F)
    (m : list (list F)) (w : list F) (v : list (list F)) :
  sample_aligned s -> mom2 s = Ok m ->
  eig m = Ok (w, v) -> length w = length m -> dims (length m) v ->
  argsort_contract le w (argsort w) ->
  let lams := map (fun o => w !!! o) (reverse (argsort w)) in
  ∃ axes,
    paxes eig argsort s = Ok axes
    ∧ Forall2 (fun o x => column v o = Ok x) (reverse (argsort w)) axes
    ∧ length axes = length (indices s)
    ∧ length lams = length (indices s)
    ∧ lams ≡ₚ w
    ∧ (∀ a b la lb, a ≤ b -> lams !! a = Some la -> lams !! b = Some lb ->
                    le lb la)
    ∧ (exact_arithmetic -> eig_contract m w v ->
       ∀ k x lam, axes !! k = Some x -> lams !! k = Some lam ->
                  is_unit x ∧ is_eigenvector m lam x
                  ∧ mom2_along s (Vec (map PyNum x)) = Ok (Scalar lam)).
Proof.
  intros Hs Hm Heig Hlw [Hvl Hvr] [Hperm Hasc] lams.
  destruct (mom2_symmetric s m Hs Hm) as [[Hml Hmr] Hsym].
  set (order := argsort w) in *.
  set (g := fun o => omap (fun row : list F => row !! o) v).
  assert (Hin : ∀ o, o ∈ order -> o < length m).
  { intros o Ho. rewrite Hperm in Ho. apply elem_of_seq in Ho. lia. }
  assert (Hcol : ∀ o, o ∈ order -> column v o = Ok (g o)).
  { intros o Ho. by apply (column_dims (length m)); [|apply Hin]. }
  assert (Hlen : length order = length (indices s)).
  { rewrite Hperm, length_seq. lia. }
  exists (map g (reverse order)).
  split; [|split; [|split; [|split; [|split; [|split]]]]].
  - unfold paxes. rewrite Hm, bind_Ok, Heig, bind_Ok. fold order.
    apply mapM_total. apply Forall_forall. intros o Ho.
    apply Hcol. by apply (proj1 (elem_of_reverse _ _)).
  - apply Forall2_fmap_r, Forall_Forall2_diag, Forall_forall.
    intros o Ho. apply Hcol. by apply (proj1 (elem_of_reverse _ _)).
  - by rewrite length_map, length_reverse.
  - unfold lams. by rewrite length_map, length_reverse.
  - unfold lams. rewrite reverse_Permutation, Hperm.
    by rewrite lookup_total_seq.
  - intros a b la lb Hab Ha Hb. unfold lams in Ha, Hb.
    rewrite list_lookup_fmap in Ha, Hb.
    destruct (reverse order !! a) as [oa|] eqn:Ea; [|done].
    destruct (reverse order !! b) as [ob|] eqn:Eb; [|done].
    injection Ha as <-. injection Hb as <-.
    pose proof (lookup_lt_Some _ _ _ Ea) as Hla.
    pose proof (lookup_lt_Some _ _ _ Eb) as Hlb.
    rewrite length_reverse in Hla, Hlb.
    rewrite reverse_lookup in Ea, Eb by done.
    apply (Hasc (length order - S b)%nat (length order - S a)%nat); [lia|done..].
  - intros (Hmc & Hma & Hmd & Hmz & Hmo & Haz & Hdo & Hso & _)
      (_ & _ & Hcols) k x lam Hx Hlam.
    unfold lams in Hlam.
    rewrite list_lookup_fmap in Hx. rewrite list_lookup_fmap in Hlam.
    destruct (reverse order !! k) as [o|] eqn:Eo; [|done].
    injection Hx as <-. injection Hlam as <-.
    assert (Ho : o ∈ order).
    { apply (proj1 (elem_of_reverse _ _)). by eapply list_elem_of_lookup_2. }
    assert (Hwo : w !! o = Some (w !!! o)).
    { apply list_lookup_lookup_total_lt. rewrite Hlw. by apply Hin. }
    destruct (Hcols o (w !!! o) (g o) Hwo (Hcol o Ho)) as [Hunit Hvec].
    split; [done|]. split; [done|].
    by apply (mom2_along_unit_eigenvector Hmc Hma Hmd Hmz Hmo Haz Hdo Hso s m).
Qed.

End AxesOrder.

Lemma pair_exact_mom2 : mom2 pair_exact = Ok pair_cov.
Proof.
  unfold mom2, mom1, mom0, pair_exact, pair_cov. simpl.
  unfold nansum, np_sum. simpl. repeat f_equal; lra.
Qed.

Lemma pair_cov_eig_contract :
  eig_contract pair_cov [0; 1]%R [[1; 0]; [0; 1]]%R.
Proof.
  split; [done|]. split; [by repeat constructor|].
  intros k lam x Hk Hx.
  destruct k as [|[|k]]; simpl in Hk; [| |done].
  all: injection Hk as <-; vm_compute in Hx; injection Hx as <-.
  all: split; [unfold is_unit, np_sum; simpl; lra|].
  all: split; [done|]; intros i row xi Hrow Hxi.
  all: destruct i as [|[|i]]; simpl in Hrow, Hxi; [| |done].
  all: injection Hrow as <-; injection Hxi as <-.
  all: unfold dot1; simpl; lra.
Qed.

Lemma paxes_descending_eigenvalues_witness :
  let lams := map (fun o => [0; 1]%R !!! o) (reverse (argsort_sorted [0; 1]%R)) in
  ∃ axes,
    paxes eig_of_diagonal argsort_sorted pair_exact = Ok axes
    ∧ Forall2 (fun o x => column [[1; 0]; [0; 1]]%R o = Ok x)
        (reverse (argsort_sorted [0; 1]%R)) axes
    ∧ length axes = length (indices pair_exact)
    ∧ length lams = length (indices pair_exact)
    ∧ lams ≡ₚ [0; 1]%R
    ∧ (∀ a b la lb, a ≤ b -> lams !! a = Some la -> lams !! b = Some lb ->
                    (lb <= la)%R)
    ∧ ∀ k x lam, axes !! k = Some x -> lams !! k = Some lam ->
                 is_unit x ∧ is_eigenvector pair_cov lam x
                 ∧ mom2_along pair_exact (Vec (map PyNum x)) = Ok (Scalar lam).
Proof.
  destruct (paxes_descending_eigenvalues (F:=R) (H:=exact)
              eig_of_diagonal argsort_sorted Rle
              pair_exact pair_cov [0; 1]%R [[1; 0]; [0; 1]]%R)
    as (axes & Hrun & Hcols & Hla & Hll & Hperm & Hdesc & Hexact).
  - repeat constructor.
  - exact pair_exact_mom2.
  - reflexivity.
  - reflexivity.
  - by repeat constructor.
  - split; [done|]. intros a b oa ob Hab Ha Hb.
    destruct a as [|[|a]], b as [|[|b]]; simpl in Ha, Hb; try done; try lia.
    all: injection Ha as <-; injection Hb as <-; simpl; lra.
  - exists axes. do 6 (split; [assumption|]).
    exact (Hexact exact_arithmetic_reals pair_cov_eig_contract).
Defined.

(** *** The slanted line: eigenvalues that no float64 holds *)

Lemma no_dyadic_root (k : nat) :
  ∀ q : Z,
    (q * q - 3 * q * 2 ^ Z.of_nat k + 2 ^ Z.of_nat k * 2 ^ Z.of_nat k ≠ 0)%Z.
Proof.
  induction k as [|k IH]; intros q.
  - change (2 ^ Z.of_nat 0)%Z with 1%Z.
    destruct (Z.Even_or_Odd q) as [[h ->]|[h ->]]; lia.
  - rewrite Nat2Z.inj_succ, Z.pow_succ_r by lia.
    set (t := (2 ^ Z.of_nat k)%Z) in *.
    destruct (Z.Even_or_Odd q) as [[h ->]|[h ->]].
    + specialize (IH h). intros Hq. apply IH. nia.
    + lia.
Qed.

(** A finite float64 is an integer over a power of two. *)
Lemma float_real_dyadic (x : float) (r : R) :
  float_real x = Some r ->
  ∃ (p : Z) (k : nat), (r * IZR (2 ^ Z.of_nat k) = IZR p)%R.
Proof.
  unfold float_real. destruct (Prim2SF x) as [s|s| |s m e]; [|done..|].
  - intros [= <-]. exists 0%Z, 0%nat. lra.
  - intros [= <-]. set (sm := if s then Z.neg m else Z.pos m).
    destruct (Z.leb_spec 0 e) as [He|He].
    + exists (sm * 2 ^ e)%Z, 0%nat. rewrite mult_IZR.
      change (IZR (2 ^ Z.of_nat 0)) with 1%R. lra.
    + exists sm, (Z.to_nat (- e)). rewrite Z2Nat.id by lia.
      assert (Hnz : IZR (2 ^ (- e)) ≠ 0%R).
      { apply not_0_IZR. apply Z.pow_nonzero; lia. }
      rewrite Rmult_assoc, Rinv_l by done. lra.
Qed.

(** The eigenvalues of the matrix are the roots of 4 r^2 - 6 r + 1. *)
Lemma tilted_cov_characteristic (r : R) :
  eigenvalue tilted_cov r -> (4 * r * r - 6 * r + 1 = 0)%R.
Proof.
  intros (x & Hunit & Hlen & Heig).
  destruct x as [|x0 [|x1 [|? ?]]]; try done.
  pose proof (Heig 0%nat _ _ eq_refl eq_refl) as E0.
  pose proof (Heig 1%nat _ _ eq_refl eq_refl) as E1.
  unfold is_unit, np_sum in Hunit. unfold dot1, np_sum in E0, E1.
  simpl in Hunit, E0, E1.
  assert (H0 : (x0 * (4 * r * r - 6 * r + 1) = 0)%R) by nra.
  assert (H1 : (x1 * (4 * r * r - 6 * r + 1) = 0)%R) by nra.
  replace (4 * r * r - 6 * r + 1)%R
    with ((x0 * (4 * r * r - 6 * r + 1)) * x0
          + (x1 * (4 * r * r - 6 * r + 1)) * x1)%R.
  - rewrite H0, H1. lra.
  - transitivity ((4 * r * r - 6 * r + 1) * (x0 * x0 + x1 * x1))%R; [ring|].
    rewrite Hunit. ring.
Qed.

Lemma float_real_no_eigenvalue (lam : float) (r : R) :
  float_real lam = Some r -> ¬ eigenvalue tilted_cov r.
Proof.
  intros Hr Heig. apply tilted_cov_characteristic in Heig.
  destruct (float_real_dyadic lam r Hr) as (p & k & Hp).
  apply (no_dyadic_root k (2 * p)).
  apply eq_IZR. rewrite plus_IZR, minus_IZR, !mult_IZR, <- Hp.
  set (t := IZR (2 ^ Z.of_nat k)).
  transitivity ((4 * r * r - 6 * r + 1) * (t * t))%R; [ring|].
  rewrite Heig. ring.
Qed.

Lemma tilted_mom2 :
  mom2 tilted = Ok [[1; 0x1p-1]; [0x1p-1; 0x1p-1]]%float.
Proof. vm_compute. reflexivity. Qed.

Lemma tilted_cov_denoted :
  Forall2 (Forall2 (fun f r => float_real f = Some r))
    [[1; 0x1p-1]; [0x1p-1; 0x1p-1]]%float tilted_cov.
Proof.
  assert (H1 : float_real 1 = Some 1%R).
  { unfold float_real. vm_compute Prim2SF. cbv iota beta.
    change (0 <=? -52)%Z with false. cbv iota.
    change (2 ^ (- -52))%Z with 4503599627370496%Z. f_equal. lra. }
  assert (H2 : float_real 0x1p-1 = Some (1 / 2)%R).
  { unfold float_real. vm_compute Prim2SF. cbv iota beta.
    change (0 <=? -53)%Z with false. cbv iota.
    change (2 ^ (- -53))%Z with 9007199254740992%Z. f_equal. lra. }
  repeat constructor; done.
Qed.

(** In float64 the claim fails on the slanted line.  Its [mom2()] is
    [[1, 0.5], [0.5, 0.5]], exactly; the eigenvalues of this matrix are
    irrational, so no float64 is one of them, and whatever [eig] and
    [argsort] answer, no value that [mom2_along] returns along a returned
    axis is an eigenvalue of [mom2()].  And when [eig] answers with the
    float64 values nearest to the eigenvalues and unit eigenvectors,
    [mom2_along] of the first axis is 1.3090169943749477, one unit in the
    last place above the eigenvalue 1.3090169943749475 that goes with it. *)
Lemma paxes_float64_inexact :
  mom2 tilted = Ok [[1; 0x1p-1]; [0x1p-1; 0x1p-1]]%float
  ∧ Forall2 (Forall2 (fun f r => float_real f = Some r))
      [[1; 0x1p-1]; [0x1p-1; 0x1p-1]]%float tilted_cov
  ∧ (∀ eig argsort axes x lam r,
       paxes eig argsort tilted = Ok axes -> x ∈ axes ->
       mom2_along tilted (Vec (map PyNum x)) = Ok (Scalar lam) ->
       float_real lam = Some r -> ¬ eigenvalue tilted_cov r)
  ∧ paxes eig_of_tilted argsort_float64 tilted
    = Ok [[0x1.b38880b4603e4p-1; 0x1.0d2ca0da1530dp-1];
          [0x1.0d2ca0da1530dp-1; -0x1.b38880b4603e4p-1]]%float
  ∧ mom2_along tilted
      (Vec [PyNum 0x1.b38880b4603e4p-1; PyNum 0x1.0d2ca0da1530dp-1]%float)
    = Ok (Scalar 0x1.4f1bbcdcbfa55p+0%float)
  ∧ (0x1.4f1bbcdcbfa55p+0 =? 0x1.4f1bbcdcbfa54p+0)%float = false.
Proof.
  split; [exact tilted_mom2|]. split; [exact tilted_cov_denoted|].
  split; [intros; by eapply float_real_no_eigenvalue|].
  split; [vm_compute; reflexivity|]. split; [vm_compute; reflexivity|].
  reflexivity.
Qed.


(** * Further properties

    What the rest of the code shows: shapes and errors of [mom1] and
    [mom2_along], the metadata pass against the later reads, the index
    [vaxis], the records and the loop of [ppv_catalog], the converters, and
    the algebra of the moments. *)

(** ** Shapes and shape errors *)

Section ShapeErrors.
Context {F : Type} `{Numeric F} `{Promote F}.
Local Open Scope num_scope.

Lemma broadcast2_broadcastable (f : F -> F -> F) (a b : list F) :
  broadcastable a b = true -> ∃ c, broadcast2 f a b = Ok c.
Proof.
  unfold broadcastable, broadcast2. intros Hb.
  destruct a as [|x [|x' a]], b as [|y [|y' b]]; simpl in *; eauto;
    try discriminate.
  apply Nat.eqb_eq in Hb. rewrite decide_True by lia. eauto.
Qed.

Lemma broadcast2_not_broadcastable (f : F -> F -> F) (a b : list F) :
  broadcastable a b = false -> broadcast2 f a b = Raise ValueError.
Proof.
  unfold broadcastable. intros Hb.
  apply orb_false_elim in Hb as [Hb Hab].
  apply orb_false_elim in Hb as [Ha Hb].
  apply Nat.eqb_neq in Ha, Hb, Hab. by apply broadcast2_mismatch.
Qed.

Lemma mapM_all_ok {A B : Type} (f : A -> result B) (l : list A) :
  Forall (fun a => ∃ b, f a = Ok b) l ->
  ∃ bs, mapM f l = Ok bs ∧ length bs = length l.
Proof.
  induction 1 as [|a l [b Hb] _ (bs & Hbs & Hlen)]; [by exists []|].
  exists (b :: bs). cbn [mapM]. rewrite Hb, bind_Ok, Hbs, bind_Ok.
  split; [done|]. simpl. by rewrite Hlen.
Qed.

(** X1. [mom1()] returns, with one entry per coordinate array, exactly when
    every coordinate array can be broadcast against the value array (equal
    lengths, or one of the two of length 1); otherwise [mom1()], and with it
    [mom2()], fail with the shape error.  A coordinate array of length 1 is
    therefore accepted without notice. *)
Theorem mom1_broadcast_or_shape_error (s : ScalarStatistic F) :
  if forallb (fun c => broadcastable c (values s)) (indices s)
  then ∃ m1, mom1 s = Ok m1 ∧ length m1 = length (indices s)
  else mom1 s = Raise ValueError ∧ mom2 s = Raise ValueError.
Proof.
  destruct (forallb _ _) eqn:Hall.
  - unfold mom1. apply mapM_all_ok.
    apply Forall_forall. intros c Hc.
    destruct (broadcast2_broadcastable nmul c (values s)) as [iv Hiv].
    { rewrite forallb_forall in Hall. apply Hall. by apply list_elem_of_In. }
    rewrite Hiv. eauto.
  - assert (Hm1 : mom1 s = Raise ValueError).
    { unfold mom1. apply mapM_first_raise.
      - apply Forall_forall. intros c _.
        destruct (broadcast2_cases nmul c (values s)) as [[iv Hiv]|Hiv];
          rewrite Hiv; eauto.
      - apply Exists_exists.
        assert (Hex : ∃ c, In c (indices s)
                           ∧ broadcastable c (values s) = false).
        { clear -Hall. induction (indices s) as [|c l IH]; [done|].
          simpl in Hall. apply andb_false_iff in Hall as [Hc|Hl].
          - exists c. split; [by left|done].
          - destruct (IH Hl) as (c' & Hin & Hc'). exists c'. split; [by right|done]. }
        destruct Hex as (c & Hin & Hc). exists c.
        split; [by apply list_elem_of_In|].
        by rewrite broadcast2_not_broadcastable. }
    split; [done|]. unfold mom2. by rewrite Hm1.
Qed.

Lemma dot_shape (a : list (list F)) (q : nat) (b : list (list F)) (p : nat)
    (c : list (list F)) :
  dot a q b p = Ok c ->
  length c = length a ∧ Forall (fun row => length row = p) c.
Proof.
  unfold dot. destruct (Nat.eqb q (length b)); [|done].
  intros [= <-]. split; [by rewrite length_map|].
  apply Forall_forall. intros row Hrow.
  apply list_elem_of_fmap in Hrow as (r & -> & _).
  unfold transpose. by rewrite !length_map, length_seq.
Qed.

Lemma dot_mismatch (a : list (list F)) (q : nat) (b : list (list F)) (p : nat) :
  q ≠ length b -> dot a q b p = Raise ValueError.
Proof. intros Hq. unfold dot. by rewrite (proj2 (Nat.eqb_neq _ _) Hq). Qed.

Lemma atleast_2d_float_rows (d : arraylike F) (w : list (list F)) (n : nat) :
  atleast_2d_float d = Ok (w, n) -> length w = directions d.
Proof.
  destruct d as [l|[|r rs]]; simpl.
  - by intros [= <- <-].
  - by intros [= <- <-].
  - destruct (forallb _ rs); [|done]. intros [= <- <-].
    simpl. by rewrite length_map.
Qed.

(** The product [w . mom2 . w.T] has one row and one column per row of
    [w], and is unwrapped exactly when [w] has one row. *)
Lemma project_shape (s : ScalarStatistic F) (w : list (list F)) (n : nat)
    (r : ndresult F) :
  project s w n = Ok r ->
  match r with
  | Scalar _ => length w = 1
  | Matrix m => length w ≠ 1 ∧ dims (length w) m
  end.
Proof.
  unfold project.
  destruct (mom2 s) as [m|e]; [|done]. rewrite bind_Ok.
  destruct (dot w n m _) as [wm|e] eqn:Hwm; [|done].
  rewrite bind_Ok.
  destruct (dot wm _ _ _) as [rr|e] eqn:Hrr; [|done]. rewrite bind_Ok.
  apply dot_shape in Hwm as [Hwl _]. apply dot_shape in Hrr as [Hrl Hrr].
  rewrite Hwl in Hrl.
  assert (Hdims : dims (length w) rr) by done.
  destruct rr as [|[|x [|y row]] [|row' rr]]; intros [= <-]; simpl in *;
    try done; split; try done; try lia.
  all: inversion Hrr as [|?? Hrow _]; simpl in Hrow; lia.
Qed.

(** X2. What [mom2_along] returns has the shape that the number of
    directions decides: a scalar for one direction, and a square matrix
    with one row per direction for two or more. *)
Theorem mom2_along_shape (s : ScalarStatistic F) (d : arraylike F)
    (r : ndresult F) :
  mom2_along s d = Ok r ->
  match r with
  | Scalar _ => directions d = 1
  | Matrix m => directions d ≠ 1 ∧ dims (directions d) m
  end.
Proof.
  unfold mom2_along.
  destruct (atleast_2d_float d) as [[w n]|e] eqn:Hw; [|done].
  rewrite bind_Ok. intros Hr. apply project_shape in Hr.
  rewrite length_map, (atleast_2d_float_rows _ _ _ Hw) in Hr. exact Hr.
Qed.

(** One direction, as [sky_maj], [sky_min] and [vrms] pass it: the result
    is a scalar. *)
Lemma mom2_along_Vec (s : ScalarStatistic F) (l : list (pyval F))
    (r : ndresult F) :
  mom2_along s (Vec l) = Ok r -> ∃ x, r = Scalar x.
Proof.
  unfold mom2_along. cbn [atleast_2d_float]. rewrite bind_Ok.
  intros Hr. apply project_shape in Hr.
  destruct r as [x|m]; [eauto|]. by destruct Hr.
Qed.

(** X3. A direction whose length is not the number of coordinate arrays
    makes [mom2_along] fail with the shape error of [np.dot], for every
    aligned sample set. *)
Theorem mom2_along_wrong_length (s : ScalarStatistic F) (d : arraylike F)
    (w : list (list F)) (n : nat) :
  sample_aligned s ->
  atleast_2d_float d = Ok (w, n) -> n ≠ length (indices s) ->
  mom2_along s d = Raise ValueError.
Proof.
  intros Hs Hw Hn.
  destruct (mom2_aligned s _ Hs (mom1_aligned s Hs)) as (m & Hm & [Hml _] & _).
  unfold mom2_along. rewrite Hw, bind_Ok. unfold project.
  rewrite Hm, bind_Ok. by rewrite dot_mismatch by lia.
Qed.

End ShapeErrors.

Lemma mom2_along_shape_witness :
  match Scalar 1%float with
  | Scalar _ => directions (Vec [PyInt 0; PyInt 0; PyInt 1] : arraylike float) = 1
  | Matrix m =>
      directions (Vec [PyInt 0; PyInt 0; PyInt 1] : arraylike float) ≠ 1
      ∧ dims (directions (Vec [PyInt 0; PyInt 0; PyInt 1] : arraylike float)) m
  end.
Proof.
  apply (mom2_along_shape pair_along_x (Vec [PyInt 0; PyInt 0; PyInt 1])).
  vm_compute. reflexivity.
Defined.

Lemma mom2_along_wrong_length_witness :
  mom2_along block (Vec [PyInt 1; PyInt 0; PyInt 0]) = Raise ValueError.
Proof.
  apply (mom2_along_wrong_length block (Vec [PyInt 1; PyInt 0; PyInt 0])
           [[1; 0; 0]%float] 3).
  - repeat constructor.
  - reflexivity.
  - simpl. lia.
Defined.

(** ** The metadata pass and the later reads *)

Section ValidationReads.
Context {F : Type}.
Variable str_float : F -> string.

Lemma get_cases (d : MetaData F) (md : gmap string (pyval F)) :
  (md !! key d = None ∧ strict d = true
   ∧ __get__ d md = Raise (KeyError ("Required metadata item not found: "
                                      +:+ MetaData_str d)))
  ∨ (¬ (md !! key d = None ∧ strict d = true)
     ∧ __get__ d md = Ok (match md !! key d with
                          | Some v => v
                          | None => default d
                          end)).
Proof.
  unfold __get__. destruct (strict d), (md !! key d) as [v|] eqn:E; simpl.
  - right. split; [|done]. by intros [? _].
  - left. done.
  - right. split; [|done]. by intros [? _].
  - right. split; [|done]. by intros [_ ?].
Qed.

(** X4. The pass and the reads agree: [_warn_missing_metadata] returns
    normally exactly when reading every declared field of the class
    succeeds, and it raises its [RuntimeError] exactly when reading some
    declared field would raise [KeyError]. *)
Theorem validation_guards_reads (cl : list (MetaData F))
    (md : gmap string (pyval F)) :
  ((_warn_missing_metadata str_float cl md).2 = Ok tt
   ↔ ∀ d, d ∈ cl -> ∃ v, __get__ d md = Ok v)
  ∧ ((∃ msg, (_warn_missing_metadata str_float cl md).2 = Raise (RuntimeError msg))
     ↔ ∃ d msg, d ∈ cl ∧ __get__ d md = Raise (KeyError msg)).
Proof.
  rewrite warn_missing_metadata_cases.
  destruct (filter _ (_missing_metadata cl md)) as [|r required] eqn:E; simpl.
  - assert (Hnone : ∀ d, d ∈ cl -> ¬ (md !! key d = None ∧ strict d = true)).
    { intros d Hd [Hmiss Hstrict].
      assert (Hin : d ∈ filter (fun m : MetaData F => strict m = true)
                          (_missing_metadata cl md)).
      { apply list_elem_of_filter. split; [done|].
        by apply elem_of_missing_metadata. }
      rewrite E in Hin. by apply elem_of_nil in Hin. }
    split; split; try done.
    + intros _ d Hd. destruct (get_cases d md) as [(? & ? & _)|[_ ->]]; [|eauto].
      by destruct (Hnone d Hd).
    + by intros [msg ?].
    + intros (d & msg & Hd & Hget).
      destruct (get_cases d md) as [(? & ? & _)|[_ Hok]]; [|congruence].
      by destruct (Hnone d Hd).
  - assert (Hr : r ∈ filter (fun m : MetaData F => strict m = true)
                       (_missing_metadata cl md)) by (rewrite E; left).
    apply list_elem_of_filter in Hr as [Hstrict Hr].
    apply elem_of_missing_metadata in Hr as [Hr Hmiss].
    destruct (get_cases r md) as [(_ & _ & Hget)|[Hno _]];
      [|by destruct Hno].
    split; split; try done.
    + intros Hall. destruct (Hall r Hr) as [v Hv]. congruence.
    + eauto.
    + eauto.
Qed.

(** X5. Putting a key into the record takes the fields of that key, and no
    other, off the list of missing fields; and a record that holds the key
    of every declared field passes without an error and without a warning,
    strict fields or not. *)
Theorem missing_metadata_insert (cl : list (MetaData F))
    (md : gmap string (pyval F)) (k : string) (v : pyval F) :
  _missing_metadata cl (<[k := v]> md)
  = filter (fun m => key m ≠ k) (_missing_metadata cl md)
  ∧ ((∀ d, d ∈ cl -> is_Some (md !! key d)) ->
     _warn_missing_metadata str_float cl md = ([], Ok tt)).
Proof.
  split.
  - unfold _missing_metadata. induction cl as [|d cl IH]; [done|].
    rewrite !filter_cons.
    destruct (decide (key d = k)) as [<-|Hne].
    + rewrite lookup_insert_eq. rewrite decide_False by done.
      destruct (decide (md !! key d = None)).
      * rewrite filter_cons. by rewrite decide_False by (intros Hk; by apply Hk).
      * done.
    + rewrite lookup_insert_ne by done.
      destruct (decide (md !! key d = None)).
      * rewrite filter_cons. rewrite decide_True by done. by rewrite IH.
      * done.
  - intros Hall. unfold _warn_missing_metadata.
    assert (Hempty : _missing_metadata cl md = []).
    { destruct (_missing_metadata cl md) as [|m ms] eqn:E; [done|].
      assert (Hm : m ∈ _missing_metadata cl md) by (rewrite E; left).
      apply elem_of_missing_metadata in Hm as [Hm Hmiss].
      destruct (Hall m Hm) as [x Hx]. congruence. }
    by rewrite Hempty.
Qed.

End ValidationReads.

(** ** The index [vaxis] *)

Section VelocityAxis.
Context {F : Type} `{Numeric F} `{Promote F}.

Variable eig : list (list F) -> result (list F * list (list F)).
Variable argsort : list F -> list nat.
Variable arctan2 : F -> F -> F.
Variable degrees : F -> F.
Variable np_pow2 : F -> F.

Lemma py_index_invalid (v : pyval F) :
  invalid_index v -> py_index 3 v = Raise (index_error v).
Proof.
  destruct v as [i|x]; simpl; [|done]. intros Hi.
  change (Z.of_nat 3) with 3%Z. change (- (3))%Z with (-3)%Z.
  destruct (Z.leb_spec 0 i), (Z.ltb_spec i 3); simpl; try lia.
  all: destruct (Z.leb_spec (-3) i), (Z.ltb_spec i 0); simpl; try done; lia.
Qed.

Lemma list_pop_invalid {A : Type} (l : list A) (v : pyval F) :
  length l = 3 -> invalid_index v -> list_pop l v = Raise (pop_error v).
Proof.
  intros Hl Hbad. unfold list_pop, pop_error. rewrite Hl.
  destruct v as [i|x]; [|done].
  destruct (fits_ssize i); [|done].
  by rewrite (py_index_invalid (PyInt i) Hbad).
Qed.

(** X6. With a [vaxis] that is no index of a list of three entries, a float
    or an int outside -3..2, every quantity that uses the velocity axis
    fails before the eigen-decomposition.  Those that go through
    [ax.pop(vaxis)], that is [_sky_paxes], [sky_maj], [sky_min], [sky_rad],
    [sky_pa], and [sky_deconvolved_rad] once its beam area is computed, fail
    with the error of [pop]: [TypeError] for the float, [IndexError] for
    the int, and [OverflowError] for an int beyond the index type.  [vrms],
    which assigns [ax[vaxis] = 1], fails with [TypeError] for the float and
    [IndexError] for every such int.  So all of them fail in the same way
    unless the int is beyond the index type. *)
Theorem invalid_vaxis_raises (self : PPVStatistic F) (v : pyval F) :
  metadata self !! "vaxis" = Some v -> invalid_index v ->
  _sky_paxes eig argsort self = Raise (pop_error v)
  ∧ sky_maj eig argsort self = Raise (pop_error v)
  ∧ sky_min eig argsort self = Raise (pop_error v)
  ∧ sky_rad eig argsort self = Raise (pop_error v)
  ∧ sky_deconvolved_rad eig argsort np_pow2 self
    = (_ ← py_mul (read_field bmaj (metadata self))
             (read_field bmin (metadata self));
       Raise (pop_error v))
  ∧ sky_pa eig argsort arctan2 degrees self = Raise (pop_error v)
  ∧ vrms self = Raise (index_error v)
  ∧ (pop_error v = index_error v
     ↔ ¬ ∃ i, v = PyInt i ∧ fits_ssize i = false).
Proof.
  intros Hv Hbad.
  assert (Hax : _sky_paxes eig argsort self = Raise (pop_error v)).
  { unfold _sky_paxes. rewrite (attr_present vaxis self v Hv), bind_Ok.
    by rewrite list_pop_invalid. }
  assert (Hmaj : sky_maj eig argsort self = Raise (pop_error v)).
  { unfold sky_maj. rewrite attr_total by declared. by rewrite bind_Ok, Hax. }
  assert (Hmin : sky_min eig argsort self = Raise (pop_error v)).
  { unfold sky_min. rewrite attr_total by declared. by rewrite bind_Ok, Hax. }
  repeat (split; [done|]). split; [|split; [|split; [|split]]].
  - unfold sky_rad. by rewrite Hmaj.
  - unfold sky_deconvolved_rad. rewrite !attr_total by declared.
    rewrite !bind_Ok. destruct (py_mul _ _) as [beam|e]; [|done].
    by rewrite !bind_Ok, Hmaj.
  - unfold sky_pa, sky_pa_args. by rewrite Hax.
  - unfold vrms. rewrite (attr_present vaxis self v Hv), bind_Ok.
    by rewrite py_index_invalid.
  - unfold pop_error, index_error. destruct v as [i|x].
    + destruct (fits_ssize i) eqn:Ei.
      * split; [|done]. intros _ (j & [= <-] & Hj). congruence.
      * split; [done|]. intros Hno. exfalso. apply Hno. eauto.
    + split; [|done]. intros _ (j & [=] & _).
Qed.

(** X7. With [vaxis = 0], [sky_pa()] is the angle of the major axis of the
    projection on the last two axes: for the major axis [[p0, p1]] it is
    [degrees(arctan2(p0, p1))]. *)
Theorem sky_pa_velocity_first (self : PPVStatistic F) (p0 p1 : F)
    (q : list F) :
  metadata self !! "vaxis" = Some (PyInt 0) ->
  projected_paxes eig argsort (stat self)
    (Rows [[PyInt 0; PyInt 1; PyInt 0]; [PyInt 0; PyInt 0; PyInt 1]])
  = Ok [[p0; p1]; q] ->
  sky_pa eig argsort arctan2 degrees self
  = Ok (PyNum (degrees (arctan2 p0 p1))).
Proof.
  intros Hv Hp.
  assert (Hax : _sky_paxes eig argsort self
                = Ok ([PyInt 0; PyNum p0; PyNum p1], PyInt 0 :: map PyNum q)).
  { unfold _sky_paxes. rewrite (attr_present vaxis self _ Hv), bind_Ok.
    change (list_pop _ (PyInt 0))
      with (Ok [[PyInt 0; PyInt 1; PyInt 0]; [PyInt 0; PyInt 0; PyInt 1]]
              : result (list (list (pyval F)))).
    by rewrite bind_Ok, Hp, bind_Ok. }
  destruct (sky_pa_args_by_vaxis eig argsort self 0 p0 p1 _ Hv Hax)
    as (Hargs & _ & _).
  unfold sky_pa. by rewrite Hargs.
Qed.

End VelocityAxis.

Lemma invalid_vaxis_raises_witness :
  let self := mkPPVStatistic pair_along_x {[ "vaxis" := PyInt (2 ^ 63) ]} in
  _sky_paxes eig_of_diagonal argsort_float64 self
  = Raise (pop_error (PyInt (2 ^ 63) : pyval float))
  ∧ sky_maj eig_of_diagonal argsort_float64 self
    = Raise (pop_error (PyInt (2 ^ 63) : pyval float))
  ∧ sky_min eig_of_diagonal argsort_float64 self
    = Raise (pop_error (PyInt (2 ^ 63) : pyval float))
  ∧ sky_rad eig_of_diagonal argsort_float64 self
    = Raise (pop_error (PyInt (2 ^ 63) : pyval float))
  ∧ sky_deconvolved_rad eig_of_diagonal argsort_float64 rounded_square self
    = (_ ← py_mul (read_field bmaj (metadata self))
             (read_field bmin (metadata self));
       Raise (pop_error (PyInt (2 ^ 63) : pyval float)))
  ∧ sky_pa eig_of_diagonal argsort_float64 any_arctan2 any_degrees self
    = Raise (pop_error (PyInt (2 ^ 63) : pyval float))
  ∧ vrms self = Raise (index_error (PyInt (2 ^ 63) : pyval float))
  ∧ (pop_error (PyInt (2 ^ 63) : pyval float)
     = index_error (PyInt (2 ^ 63) : pyval float)
     ↔ ¬ ∃ i, (PyInt (2 ^ 63) : pyval float) = PyInt i
              ∧ fits_ssize i = false).
Proof.
  apply (invalid_vaxis_raises eig_of_diagonal argsort_float64
           any_arctan2 any_degrees rounded_square
           (mkPPVStatistic pair_along_x {[ "vaxis" := PyInt (2 ^ 63) ]})
           (PyInt (2 ^ 63))).
  - reflexivity.
  - simpl. lia.
Defined.

(** An index one beyond the index type: the sky quantities raise
    [OverflowError], [vrms] raises [IndexError]. *)
Example vaxis_beyond_index_type :
  sky_maj eig_of_diagonal argsort_float64
    (mkPPVStatistic pair_along_x {[ "vaxis" := PyInt (2 ^ 63) ]})
  = Raise OverflowError
  ∧ vrms (mkPPVStatistic pair_along_x {[ "vaxis" := PyInt (2 ^ 63) ]})
    = Raise IndexError.
Proof. split; vm_compute; reflexivity. Qed.

Lemma sky_pa_velocity_first_witness :
  sky_pa eig_of_diagonal argsort_float64 any_arctan2 any_degrees
    (mkPPVStatistic pair_along_x {[ "vaxis" := PyInt 0 ]})
  = Ok (PyNum (any_degrees (any_arctan2 0%float 1%float))).
Proof.
  apply (sky_pa_velocity_first eig_of_diagonal argsort_float64
           any_arctan2 any_degrees
           (mkPPVStatistic pair_along_x {[ "vaxis" := PyInt 0 ]})
           0%float 1%float [1; 0]%float).
  - reflexivity.
  - vm_compute. reflexivity.
Defined.

(** ** The records and the loop of [ppv_catalog] *)

Section CatalogLoop.
Context {F : Type} `{Numeric F} `{Promote F}.

Variable eig : list (list F) -> result (list F * list (list F)).
Variable argsort : list F -> list nat.
Variable arctan2 : F -> F -> F.
Variable degrees : F -> F.
Variable radians1 : F.
Variable float_pow2 : F -> result F.
Variable np_pow2 : F -> F.
Variable str_float : F -> string.
Variable T : Type.
Variable Table : list (gmap string (field_value F)) -> result T.

Abbreviation call := (call_field eig argsort arctan2 degrees radians1 float_pow2 np_pow2).
Abbreviation record := (structure_record eig argsort arctan2 degrees radians1 float_pow2 np_pow2).
Abbreviation catalog :=
  (ppv_catalog eig argsort arctan2 degrees radians1 float_pow2 np_pow2 str_float T Table).

Lemma record_fold (self : PPVStatistic F) (fields : list string)
    (d0 d : gmap string (field_value F)) :
  foldM (fun d lbl => v ← call self lbl; Ok (<[lbl := v]> d)) fields d0 = Ok d ->
  (∀ lbl, is_Some (d !! lbl) ↔ is_Some (d0 !! lbl) ∨ lbl ∈ fields)
  ∧ ∀ lbl v, d !! lbl = Some v ->
             d0 !! lbl = Some v ∨ (lbl ∈ fields ∧ call self lbl = Ok v).
Proof.
  clear str_float Table.
  revert d0. induction fields as [|f fields IH]; intros d0; cbn [foldM].
  - intros [= <-]. split; [|by left].
    intros lbl. rewrite elem_of_nil. tauto.
  - destruct (call self f) as [v|e] eqn:Ef; [|done]. rewrite !bind_Ok.
    intros Hd. destruct (IH _ Hd) as [Hdom Hval]. split.
    + intros lbl. rewrite Hdom, elem_of_cons.
      destruct (decide (f = lbl)) as [->|Hne].
      * rewrite lookup_insert_eq. split; [auto|]. intros _. left. eauto.
      * rewrite lookup_insert_ne by done. split; [tauto|].
        intros [?|[?|?]]; [tauto|congruence|tauto].
    + intros lbl v' Hl. destruct (Hval lbl v' Hl) as [Hin|[Hin Hc]].
      * destruct (decide (f = lbl)) as [->|Hne].
        -- rewrite lookup_insert_eq in Hin. injection Hin as <-.
           right. split; [left|done].
        -- rewrite lookup_insert_ne in Hin by done. by left.
      * right. split; [by right|done].
Qed.

(** X8. The record of a structure has the requested field names as its
    keys, each once however often it was asked for, and no other key; and
    the entry of a name is what calling the method of that name on the
    structure's statistic returns. *)
Theorem record_of_keys (self : PPVStatistic F) (fields : list string)
    (d : gmap string (field_value F)) :
  record_of eig argsort arctan2 degrees radians1 float_pow2 np_pow2 self fields = Ok d ->
  (∀ lbl, is_Some (d !! lbl) ↔ lbl ∈ fields)
  ∧ ∀ lbl v, d !! lbl = Some v -> call self lbl = Ok v.
Proof.
  intros Hd. destruct (record_fold self fields ∅ d Hd) as [Hdom Hval].
  split.
  - intros lbl. rewrite Hdom, lookup_empty.
    split; [intros [[? [=]]|?]; done|auto].
  - intros lbl v Hl. destruct (Hval lbl v Hl) as [Hin|[_ Hc]]; [|done].
    by rewrite lookup_empty in Hin.
Qed.

Lemma catalog_loop_ok (structures : list (list F * list (list F)))
    (md : gmap string (pyval F)) (fields : list string) (i : nat)
    (acc recs : list (gmap string (field_value F))) :
  mapM (record md fields) structures = Ok recs ->
  catalog_loop eig argsort arctan2 degrees radians1 float_pow2 np_pow2 structures md fields i acc
  = (map EvStruct (seq i (length structures)), Ok (acc ++ recs)).
Proof.
  revert i acc recs.
  induction structures as [|st rest IH]; intros i acc recs; cbn [mapM].
  - intros [= <-]. by rewrite app_nil_r.
  - destruct (record md fields st) as [rec|e] eqn:Erec; [|done].
    rewrite bind_Ok.
    destruct (mapM (record md fields) rest) as [recs'|e] eqn:Erest; [|done].
    rewrite bind_Ok. intros [= <-].
    cbn [catalog_loop].
    change (stat ← __init__ st.1 st.2;
            record_of eig argsort arctan2 degrees radians1 float_pow2 np_pow2
              (mkPPVStatistic stat md) fields)
      with (record md fields st).
    rewrite Erec, (IH (S i) (acc ++ [rec]) recs' eq_refl).
    cbn [length seq map]. by rewrite <- app_assoc.
Qed.

Lemma catalog_loop_raise (pre post : list (list F * list (list F)))
    (st : list F * list (list F))
    (md : gmap string (pyval F)) (fields : list string) (i : nat)
    (acc recs : list (gmap string (field_value F))) (e : exn) :
  mapM (record md fields) pre = Ok recs ->
  record md fields st = Raise e ->
  catalog_loop eig argsort arctan2 degrees radians1 float_pow2 np_pow2 (pre ++ st :: post)
    md fields i acc
  = (map EvStruct (seq i (S (length pre))), Raise e).
Proof.
  revert i acc recs.
  induction pre as [|st' pre IH]; intros i acc recs; cbn [mapM].
  - intros _ Hst. cbn [app catalog_loop].
    change (stat ← __init__ st.1 st.2;
            record_of eig argsort arctan2 degrees radians1 float_pow2 np_pow2
              (mkPPVStatistic stat md) fields)
      with (record md fields st).
    by rewrite Hst.
  - destruct (record md fields st') as [rec|e'] eqn:Erec; [|done].
    rewrite bind_Ok.
    destruct (mapM (record md fields) pre) as [recs'|e'] eqn:Epre; [|done].
    intros _ Hst. cbn [app catalog_loop].
    change (stat ← __init__ st'.1 st'.2;
            record_of eig argsort arctan2 degrees radians1 float_pow2 np_pow2
              (mkPPVStatistic stat md) fields)
      with (record md fields st').
    rewrite Erec, (IH (S i) (acc ++ [rec]) recs' eq_refl Hst). done.
Qed.

(** The pass of [ppv_catalog] never fails: no field of [PPVStatistic] is
    strict. *)
Lemma ppv_validation_ok (md : gmap string (pyval F)) :
  ∃ warns, _warn_missing_metadata str_float PPVStatistic_descriptors md
           = (warns, Ok tt).
Proof.
  rewrite warn_missing_metadata_cases.
  destruct (filter _ _) as [|r required] eqn:E; [eauto|].
  assert (Hr : r ∈ filter (fun m : MetaData F => strict m = true)
                     (_missing_metadata PPVStatistic_descriptors md))
    by (rewrite E; left).
  apply list_elem_of_filter in Hr as [Hstrict Hr].
  apply elem_of_missing_metadata in Hr as [Hr _].
  unfold PPVStatistic_descriptors in Hr.
  repeat (apply elem_of_cons in Hr as [->|Hr]; [done|]).
  by apply elem_of_nil in Hr.
Qed.

Lemma ppv_catalog_unfold (structures : list (list F * list (list F)))
    (md : gmap string (pyval F)) (fields : option (list string))
    (warns : list event) :
  _warn_missing_metadata str_float PPVStatistic_descriptors md = (warns, Ok tt) ->
  catalog structures md fields
  = (warns ++ EvPrint (effective_fields fields)
             :: (catalog_loop eig argsort arctan2 degrees radians1 float_pow2 np_pow2 structures
                   md (effective_fields fields) 0 []).1,
     (catalog_loop eig argsort arctan2 degrees radians1 float_pow2 np_pow2 structures
        md (effective_fields fields) 0 []).2 ≫= _build_table T Table).
Proof.
  intros Hpass. unfold ppv_catalog. rewrite Hpass.
  fold (effective_fields fields).
  by destruct (catalog_loop _ _ _ _ _ _ _ _ _ _).
Qed.

Lemma mapM_Ok_length {A B : Type} (f : A -> result B) (l : list A)
    (bs : list B) :
  mapM f l = Ok bs -> length bs = length l.
Proof.
  revert bs. induction l as [|a l IH]; intros bs; cbn [mapM].
  - by intros [= <-].
  - destruct (f a) as [b|e]; [|done]. rewrite bind_Ok.
    destruct (mapM f l) as [bs'|e]; [|done]. rewrite bind_Ok.
    intros [= <-]. simpl. by rewrite (IH bs').
Qed.

(** X9. When the record of every structure can be computed, [ppv_catalog]
    visits the structures in order and hands the table constructor one
    record per structure, in the order of the structures: the outcome is
    that of [Table] on this list.  Before, it has emitted the warnings of
    the pass and printed the field list. *)
Theorem ppv_catalog_records_in_order
    (structures : list (list F * list (list F)))
    (md : gmap string (pyval F)) (fields : option (list string))
    (recs : list (gmap string (field_value F))) :
  structures ≠ [] ->
  mapM (record md (effective_fields fields)) structures = Ok recs ->
  ∃ warns,
    _warn_missing_metadata str_float PPVStatistic_descriptors md = (warns, Ok tt)
    ∧ catalog structures md fields
      = (warns ++ EvPrint (effective_fields fields)
                 :: map EvStruct (seq 0 (length structures)),
         Table recs)
    ∧ length recs = length structures.
Proof.
  intros Hne Hrecs. destruct (ppv_validation_ok md) as [warns Hpass].
  exists warns. split; [done|].
  rewrite (ppv_catalog_unfold _ _ _ _ Hpass).
  rewrite (catalog_loop_ok _ _ _ 0 [] recs Hrecs). cbn [fst snd app].
  pose proof (mapM_Ok_length _ _ _ Hrecs) as Hlen.
  split; [|done]. rewrite bind_Ok. unfold _build_table.
  destruct recs as [|rec recs]; [|done].
  destruct structures; [done|]. simpl in Hlen. lia.
Qed.

(** X10. [ppv_catalog] is all or nothing: when the record of some structure
    cannot be computed, and those of the structures before it can, the
    error of that structure is the outcome.  The structures after it are
    not visited and no table is built, whatever the records so far. *)
Theorem ppv_catalog_first_error
    (pre post : list (list F * list (list F))) (st : list F * list (list F))
    (md : gmap string (pyval F)) (fields : option (list string))
    (recs : list (gmap string (field_value F))) (e : exn) :
  mapM (record md (effective_fields fields)) pre = Ok recs ->
  record md (effective_fields fields) st = Raise e ->
  ∃ warns,
    _warn_missing_metadata str_float PPVStatistic_descriptors md = (warns, Ok tt)
    ∧ catalog (pre ++ st :: post) md fields
      = (warns ++ EvPrint (effective_fields fields)
                 :: map EvStruct (seq 0 (S (length pre))),
         Raise e).
Proof.
  intros Hpre Hst. destruct (ppv_validation_ok md) as [warns Hpass].
  exists warns. split; [done|].
  rewrite (ppv_catalog_unfold _ _ _ _ Hpass).
  by rewrite (catalog_loop_raise pre post st _ _ 0 [] recs e Hpre Hst).
Qed.

(** X11. With no structure at all, [ppv_catalog] fails with [IndexError],
    for every metadata record and every field list: the pass runs, the
    field list is printed, and the converter then asks for the first of no
    records. *)
Theorem ppv_catalog_no_structures (md : gmap string (pyval F))
    (fields : option (list string)) :
  ∃ warns,
    _warn_missing_metadata str_float PPVStatistic_descriptors md = (warns, Ok tt)
    ∧ catalog [] md fields
      = (warns ++ [EvPrint (effective_fields fields)], Raise IndexError).
Proof.
  destruct (ppv_validation_ok md) as [warns Hpass].
  exists warns. split; [done|].
  by rewrite (ppv_catalog_unfold _ _ _ _ Hpass).
Qed.

End CatalogLoop.

Lemma record_of_keys_witness :
  (∀ lbl, is_Some (({[ "flux" := FNum (PyNum 2%float);
                       "vrms" := FNum (PyNum 0%float) ]}
                    : gmap string (field_value float)) !! lbl)
          ↔ lbl ∈ ["vrms"; "flux"; "vrms"])
  ∧ ∀ lbl v,
      ({[ "flux" := FNum (PyNum 2%float); "vrms" := FNum (PyNum 0%float) ]}
       : gmap string (field_value float)) !! lbl = Some v ->
      call_field eig_of_diagonal argsort_float64 any_arctan2 any_degrees
        radians_of_one checked_square rounded_square
        (mkPPVStatistic
           (mkScalarStatistic aligned_structure.1 aligned_structure.2) ∅)
        lbl = Ok v.
Proof.
  apply (record_of_keys eig_of_diagonal argsort_float64 any_arctan2
           any_degrees radians_of_one checked_square rounded_square
           (mkPPVStatistic
              (mkScalarStatistic aligned_structure.1 aligned_structure.2) ∅)
           ["vrms"; "flux"; "vrms"]).
  vm_compute. reflexivity.
Defined.

Lemma ppv_catalog_records_in_order_witness :
  ∃ warns,
    _warn_missing_metadata any_str_float PPVStatistic_descriptors ∅
    = (warns, Ok tt)
    ∧ ppv_catalog eig_of_diagonal argsort_float64 any_arctan2 any_degrees
        radians_of_one checked_square rounded_square any_str_float _ records_as_table
        [aligned_structure; aligned_structure] ∅ (Some ["flux"])
      = (warns ++ EvPrint (effective_fields (Some ["flux"]))
                 :: map EvStruct (seq 0 2),
         records_as_table [ {[ "flux" := FNum (PyNum 2%float) ]};
                            {[ "flux" := FNum (PyNum 2%float) ]} ])
    ∧ length [ ({[ "flux" := FNum (PyNum 2%float) ]}
                : gmap string (field_value float));
               {[ "flux" := FNum (PyNum 2%float) ]} ] = 2.
Proof.
  apply (ppv_catalog_records_in_order eig_of_diagonal argsort_float64
           any_arctan2 any_degrees radians_of_one checked_square rounded_square any_str_float _
           records_as_table [aligned_structure; aligned_structure] ∅
           (Some ["flux"])).
  - discriminate.
  - vm_compute. reflexivity.
Defined.

Lemma ppv_catalog_first_error_witness :
  ∃ warns,
    _warn_missing_metadata any_str_float PPVStatistic_descriptors ∅
    = (warns, Ok tt)
    ∧ ppv_catalog eig_of_diagonal argsort_float64 any_arctan2 any_degrees
        radians_of_one checked_square rounded_square any_str_float _ records_as_table
        ([aligned_structure] ++ misaligned_structure :: [aligned_structure])
        ∅ (Some ["vrms"])
      = (warns ++ EvPrint (effective_fields (Some ["vrms"]))
                 :: map EvStruct (seq 0 2),
         Raise ValueError).
Proof.
  apply (ppv_catalog_first_error eig_of_diagonal argsort_float64
           any_arctan2 any_degrees radians_of_one checked_square rounded_square any_str_float _
           records_as_table [aligned_structure] [aligned_structure]
           misaligned_structure ∅ (Some ["vrms"])
           [ {[ "vrms" := FNum (PyNum 0%float) ]} ]).
  - vm_compute. reflexivity.
  - vm_compute. reflexivity.
Defined.

(** ** The converters behind [_build_table] *)

Lemma mapM_Ok_Forall2 {A B : Type} (f : A -> result B) (l : list A)
    (bs : list B) :
  mapM f l = Ok bs -> Forall2 (fun a b => f a = Ok b) l bs.
Proof.
  revert bs. induction l as [|a l IH]; intros bs; cbn [mapM].
  - intros [= <-]. constructor.
  - destruct (f a) as [b|e] eqn:Ea; [|done]. rewrite bind_Ok.
    destruct (mapM f l) as [bs'|e]; [|done]. rewrite bind_Ok.
    intros [= <-]. constructor; [done|by apply IH].
Qed.

Lemma mapM_Raise_inv {A B : Type} (f : A -> result B) (l : list A) (e : exn) :
  mapM f l = Raise e -> ∃ a, a ∈ l ∧ f a = Raise e.
Proof.
  induction l as [|a l IH]; cbn [mapM]; [done|].
  destruct (f a) as [b|e'] eqn:Ea.
  - rewrite bind_Ok. destruct (mapM f l) as [bs|e'] eqn:El; [done|].
    intros [= ->]. destruct (IH eq_refl) as (a' & Hin & Ha').
    exists a'. split; [by right|done].
  - intros [= ->]. exists a. split; [left|done].
Qed.

(** The order of [sorted] on strings is a total preorder. *)
Lemma string_compare_trans (c : comparison) (s1 s2 s3 : string) :
  String.compare s1 s2 = c -> String.compare s2 s3 = c ->
  String.compare s1 s3 = c.
Proof.
  revert s2 s3. induction s1 as [|a1 s1 IH]; intros [|a2 s2] [|a3 s3];
    simpl; try congruence.
  unfold Ascii.compare.
  destruct (N.compare_spec (Ascii.N_of_ascii a1) (Ascii.N_of_ascii a2))
    as [E12|L12|G12];
  destruct (N.compare_spec (Ascii.N_of_ascii a2) (Ascii.N_of_ascii a3))
    as [E23|L23|G23]; intros H12 H23; try congruence.
  all: first
    [ rewrite E12, E23, N.compare_refl; by eauto
    | rewrite (proj2 (N.compare_lt_iff _ _)) by lia; congruence
    | rewrite (proj2 (N.compare_gt_iff _ _)) by lia; congruence ].
Qed.

#[local] Instance string_leb_total
  : Total (fun a b => String.leb a b = true).
Proof. intros a b. apply String.leb_total. Qed.

#[local] Instance string_leb_trans
  : Transitive (fun a b => String.leb a b = true).
Proof.
  intros s1 s2 s3. unfold String.leb.
  destruct (String.compare s1 s2) eqn:E12; [| |done];
  destruct (String.compare s2 s3) eqn:E23; try done; intros _ _.
  - by rewrite (string_compare_trans Eq s1 s2 s3).
  - apply String.compare_eq_iff in E12 as ->. by rewrite E23.
  - apply String.compare_eq_iff in E23 as <-. by rewrite E12.
  - by rewrite (string_compare_trans Lt s1 s2 s3).
Qed.

Lemma sorted_spec (l : list string) :
  StronglySorted (fun a b => String.leb a b = true) (sorted l)
  ∧ sorted l ≡ₚ l.
Proof.
  split; [apply StronglySorted_merge_sort; apply _|].
  apply merge_sort_Permutation.
Qed.

Section ConverterFacts.
Context {V : Type}.

Variable D : Type.
Variable np_dtype : V -> result D.
Variable A : Type.
Variable np_array : list (list V) -> list (string * D) -> result A.

Lemma column_names_spec (d0 : gmap string V) (rest : list (gmap string V)) :
  ∃ names, column_names (d0 :: rest) = Ok names
    ∧ StronglySorted (fun a b => String.leb a b = true) names
    ∧ NoDup names
    ∧ ∀ c, c ∈ names ↔ is_Some (d0 !! c).
Proof.
  eexists. split; [reflexivity|].
  destruct (sorted_spec (map fst (map_to_list d0))) as [Hs Hp].
  split; [done|]. split.
  - rewrite Hp. apply NoDup_fst_map_to_list.
  - intros c. rewrite Hp, list_elem_of_fmap. split.
    + intros ([c' v] & -> & Hin). apply elem_of_map_to_list in Hin. eauto.
    + intros [v Hv]. exists (c, v). split; [done|].
      by apply elem_of_map_to_list.
Qed.

Lemma covers_lookup (d0 d : gmap string V) :
  covers d0 d ↔ ∀ c, is_Some (d0 !! c) -> is_Some (d !! c).
Proof.
  unfold covers. rewrite elem_of_subseteq.
  split; intros Hc c; specialize (Hc c); by rewrite !elem_of_dom in *.
Qed.

Lemma getitem_Ok (d : gmap string V) (c : string) (v : V) :
  getitem d c = Ok v ↔ d !! c = Some v.
Proof. unfold getitem. destruct (d !! c); split; congruence. Qed.

Lemma getitem_Raise (d : gmap string V) (c : string) (e : exn) :
  getitem d c = Raise e ↔ d !! c = None ∧ e = KeyError c.
Proof.
  unfold getitem. destruct (d !! c); split; try congruence.
  - by intros [? _].
  - by intros [= <-].
  - by intros [_ ->].
Qed.

Lemma getitem_covered (d0 : gmap string V) (rest : list (gmap string V))
    (names : list string) :
  Forall (covers d0) rest -> column_names (d0 :: rest) = Ok names ->
  ∀ d c, d ∈ d0 :: rest -> c ∈ names -> ∃ v, getitem d c = Ok v.
Proof.
  intros Hrest Hn d c Hd Hc.
  assert (Hall : Forall (covers d0) (d0 :: rest)).
  { constructor; [|done]. unfold covers. reflexivity. }
  destruct (column_names_spec d0 rest) as (names' & Hn' & _ & _ & Hkeys).
  rewrite Hn in Hn'. injection Hn' as <-.
  rewrite Forall_forall in Hall.
  destruct (proj1 (covers_lookup d0 d) (Hall d Hd) c (proj1 (Hkeys c) Hc))
    as [v Hv].
  exists v. by apply getitem_Ok.
Qed.

Lemma data_to_astropy_ok (d0 : gmap string V) (rest : list (gmap string V))
    (names : list string) :
  Forall (covers d0) rest -> column_names (d0 :: rest) = Ok names ->
  ∃ cols, _data_to_astropy (d0 :: rest) = Ok (cols, names)
    ∧ Forall2 (fun c col => Forall2 (fun d v => d !! c = Some v) (d0 :: rest) col)
        names cols.
Proof.
  intros Hrest Hn.
  destruct (mapM_all_ok (fun c => mapM (fun d => getitem d c) (d0 :: rest)) names)
    as (cols & Hcols & Hlc).
  { apply Forall_forall. intros c Hc.
    destruct (mapM_all_ok (fun d => getitem d c) (d0 :: rest)) as (col & Hcol & _);
      [|eauto].
    apply Forall_forall. intros d Hd. by eapply getitem_covered. }
  exists cols. unfold _data_to_astropy. rewrite Hn, bind_Ok, Hcols, bind_Ok.
  split; [done|]. apply mapM_Ok_Forall2 in Hcols.
  eapply Forall2_impl; [exact Hcols|]. intros c col Hcol. cbv beta in Hcol.
  apply mapM_Ok_Forall2 in Hcol.
  eapply Forall2_impl; [exact Hcol|]. intros d v. apply getitem_Ok.
Qed.

Lemma data_to_numpy_ok (d0 : gmap string V) (rest : list (gmap string V))
    (names : list string) :
  Forall (covers d0) rest -> column_names (d0 :: rest) = Ok names ->
  ∃ rows row0, rows !! 0 = Some row0
    ∧ _data_to_numpy np_dtype np_array (d0 :: rest)
      = (dtypes ← dtypes_of np_dtype names row0; np_array rows dtypes)
    ∧ Forall2 (fun d row => Forall2 (fun c v => d !! c = Some v) names row)
        (d0 :: rest) rows.
Proof.
  intros Hrest Hn.
  destruct (mapM_all_ok (fun d => mapM (fun c => getitem d c) names) (d0 :: rest))
    as (rows & Hrows & Hlr).
  { apply Forall_forall. intros d Hd.
    destruct (mapM_all_ok (fun c => getitem d c) names) as (row & Hrow & _);
      [|eauto].
    apply Forall_forall. intros c Hc. by eapply getitem_covered. }
  destruct rows as [|row0 rows]; [done|].
  exists (row0 :: rows), row0. split; [done|].
  unfold _data_to_numpy. rewrite Hn, bind_Ok, Hrows, !bind_Ok.
  split; [done|]. apply mapM_Ok_Forall2 in Hrows.
  eapply Forall2_impl; [exact Hrows|]. intros d row Hrow. cbv beta in Hrow.
  apply mapM_Ok_Forall2 in Hrow.
  eapply Forall2_impl; [exact Hrow|]. intros c v. apply getitem_Ok.
Qed.

(** X12. On records that all have the keys of the first one, both
    converters get through their comprehensions and assemble the same
    content: the names are the keys of the first record, sorted and without
    repetition; the astropy converter hands [Table] one column per name; the
    numpy converter builds one row per record, asks [np.dtype] for a data
    type of each entry of the first row, and answers what [np.array] makes
    of the rows and these types, or the error of either; and the entry of
    record [i] under the [j]-th name is found at position [i] of column [j]
    and at position [j] of row [i].  Keys that only later records have are
    left out without a word.  Where [np.dtype] refuses every entry, as it
    does Python numbers, and the first record has a key, the numpy converter
    raises that refusal. *)
Theorem converters_transposed (d0 : gmap string V)
    (rest : list (gmap string V)) :
  Forall (covers d0) rest ->
  ∃ names cols rows row0,
    _data_to_astropy (d0 :: rest) = Ok (cols, names)
    ∧ rows !! 0 = Some row0
    ∧ _data_to_numpy np_dtype np_array (d0 :: rest)
      = (dtypes ← dtypes_of np_dtype names row0; np_array rows dtypes)
    ∧ (∀ e, (∀ v, np_dtype v = Raise e) -> d0 ≠ ∅ ->
         _data_to_numpy np_dtype np_array (d0 :: rest) = Raise e)
    ∧ StronglySorted (fun a b => String.leb a b = true) names
    ∧ NoDup names
    ∧ (∀ c, c ∈ names ↔ is_Some (d0 !! c))
    ∧ length cols = length names
    ∧ length rows = S (length rest)
    ∧ ∀ i j d c, (d0 :: rest) !! i = Some d -> names !! j = Some c ->
        ∃ v, d !! c = Some v
             ∧ cols !! j ≫= (fun col => col !! i) = Some v
             ∧ rows !! i ≫= (fun row => row !! j) = Some v.
Proof.
  intros Hrest.
  destruct (column_names_spec d0 rest) as (names & Hn & Hsort & Hnd & Hkeys).
  destruct (data_to_astropy_ok d0 rest names Hrest Hn) as (cols & Hcols & Hc2).
  destruct (data_to_numpy_ok d0 rest names Hrest Hn)
    as (rows & row0 & Hr0 & Hrows & Hr2).
  exists names, cols, rows, row0.
  do 3 (split; [done|]).
  split.
  { intros e He Hne. rewrite Hrows.
    destruct (Forall2_lookup_r _ _ _ _ _ Hr2 Hr0) as (d & Hd & Hrow).
    simpl in Hd. injection Hd as <-.
    destruct names as [|c names'].
    - exfalso. apply Hne, map_eq. intros c. rewrite lookup_empty.
      destruct (d0 !! c) eqn:Hc; [|done].
      assert (Hin : c ∈ @nil string) by (apply Hkeys; eauto).
      by apply elem_of_nil in Hin.
    - inversion Hrow as [|? v ? row' _ _]; subst.
      unfold dtypes_of. cbn [zip zip_with mapM snd]. by rewrite He. }
  repeat (split; [done|]).
  split; [symmetry; by eapply Forall2_length|].
  split; [symmetry; apply (Forall2_length _ _ _ Hr2)|].
  intros i j d c Hi Hj.
  destruct (Forall2_lookup_l _ _ _ _ _ Hc2 Hj) as (col & Hcj & Hcol).
  destruct (Forall2_lookup_l _ _ _ _ _ Hr2 Hi) as (row & Hri & Hrow).
  destruct (Forall2_lookup_l _ _ _ _ _ Hcol Hi) as (v & Hv & Hgv).
  destruct (Forall2_lookup_l _ _ _ _ _ Hrow Hj) as (v' & Hv' & Hgv').
  exists v. split; [done|].
  rewrite Hcj, Hri. simpl. split; [done|]. congruence.
Qed.

(** X13. When some record lacks a key of the first record, both converters
    fail with [KeyError] in their comprehensions, each for a key of the
    first record that some record lacks (the two need not name the same
    key): no table is built from ragged records. *)
Theorem converters_missing_key (d0 : gmap string V)
    (rest : list (gmap string V)) :
  Exists (fun d => ¬ covers d0 d) rest ->
  (∃ c d, _data_to_astropy (d0 :: rest) = Raise (KeyError c)
          ∧ is_Some (d0 !! c) ∧ d ∈ rest ∧ d !! c = None)
  ∧ (∃ c d, _data_to_numpy np_dtype np_array (d0 :: rest) = Raise (KeyError c)
            ∧ is_Some (d0 !! c) ∧ d ∈ rest ∧ d !! c = None).
Proof.
  intros Hex.
  destruct (column_names_spec d0 rest) as (names & Hn & _ & _ & Hkeys).
  assert (Hbad : ∀ c d e, c ∈ names -> d ∈ d0 :: rest ->
            getitem d c = Raise e ->
            e = KeyError c ∧ is_Some (d0 !! c) ∧ d ∈ rest ∧ d !! c = None).
  { intros c d e Hc Hd Hg. apply getitem_Raise in Hg as [Hnone ->].
    apply Hkeys in Hc. split; [done|]. split; [done|]. split; [|done].
    apply elem_of_cons in Hd as [->|Hd]; [|done].
    rewrite Hnone in Hc. by destruct Hc. }
  assert (Hno : ∀ d, d ∈ rest -> (∀ c, c ∈ names -> is_Some (d !! c)) -> covers d0 d).
  { intros d Hd Hc. apply covers_lookup. intros c Hc0.
    apply Hc. by apply Hkeys. }
  apply Exists_exists in Hex as (dbad & Hdbad & Hncov).
  unfold _data_to_astropy, _data_to_numpy. rewrite Hn, !bind_Ok. split.
  - destruct (mapM (fun c => mapM (fun d => getitem d c) (d0 :: rest)) names)
      as [cols|e] eqn:Hcols.
    + exfalso. apply Hncov, Hno; [done|]. intros c Hc.
      apply mapM_Ok_Forall2 in Hcols.
      apply list_elem_of_lookup in Hc as [j Hj].
      destruct (Forall2_lookup_l _ _ _ _ _ Hcols Hj) as (col & _ & Hcol).
      apply mapM_Ok_Forall2 in Hcol.
      assert (Hd : dbad ∈ d0 :: rest) by (by right).
      apply list_elem_of_lookup in Hd as [i Hi].
      destruct (Forall2_lookup_l _ _ _ _ _ Hcol Hi) as (v & _ & Hv).
      apply getitem_Ok in Hv. eauto.
    + apply mapM_Raise_inv in Hcols as (c & Hc & Hcol).
      apply mapM_Raise_inv in Hcol as (d & Hd & Hg).
      destruct (Hbad c d e Hc Hd Hg) as (-> & ? & ? & ?). by exists c, d.
  - destruct (mapM (fun d => mapM (fun c => getitem d c) names) (d0 :: rest))
      as [rows|e] eqn:Hrows.
    + exfalso. apply Hncov, Hno; [done|]. intros c Hc.
      apply mapM_Ok_Forall2 in Hrows.
      assert (Hd : dbad ∈ d0 :: rest) by (by right).
      apply list_elem_of_lookup in Hd as [i Hi].
      destruct (Forall2_lookup_l _ _ _ _ _ Hrows Hi) as (row & _ & Hrow).
      apply mapM_Ok_Forall2 in Hrow.
      apply list_elem_of_lookup in Hc as [j Hj].
      destruct (Forall2_lookup_l _ _ _ _ _ Hrow Hj) as (v & _ & Hv).
      apply getitem_Ok in Hv. eauto.
    + apply mapM_Raise_inv in Hrows as (d & Hd & Hrow).
      apply mapM_Raise_inv in Hrow as (c & Hc & Hg).
      destruct (Hbad c d e Hc Hd Hg) as (-> & ? & ? & ?). by exists c, d.
Qed.

End ConverterFacts.

Lemma converters_transposed_witness :
  ∃ names cols rows row0,
    _data_to_astropy [ ({[ "b" := 2%Z; "a" := 1%Z ]} : gmap string Z);
                       {[ "z" := 5%Z; "a" := 3%Z; "b" := 4%Z ]} ]
    = Ok (cols, names)
    ∧ rows !! 0 = Some row0
    ∧ _data_to_numpy dtype_of_number rows_as_array
        [ ({[ "b" := 2%Z; "a" := 1%Z ]} : gmap string Z);
          {[ "z" := 5%Z; "a" := 3%Z; "b" := 4%Z ]} ]
      = (dtypes ← dtypes_of dtype_of_number names row0;
         rows_as_array rows dtypes)
    ∧ (∀ e, (∀ v, dtype_of_number v = Raise e) ->
         ({[ "b" := 2%Z; "a" := 1%Z ]} : gmap string Z) ≠ ∅ ->
         _data_to_numpy dtype_of_number rows_as_array
           [ ({[ "b" := 2%Z; "a" := 1%Z ]} : gmap string Z);
             {[ "z" := 5%Z; "a" := 3%Z; "b" := 4%Z ]} ] = Raise e)
    ∧ StronglySorted (fun a b => String.leb a b = true) names
    ∧ NoDup names
    ∧ (∀ c, c ∈ names
            ↔ is_Some (({[ "b" := 2%Z; "a" := 1%Z ]} : gmap string Z) !! c))
    ∧ length cols = length names
    ∧ length rows = 2
    ∧ ∀ i j d c,
        [ ({[ "b" := 2%Z; "a" := 1%Z ]} : gmap string Z);
          {[ "z" := 5%Z; "a" := 3%Z; "b" := 4%Z ]} ] !! i = Some d ->
        names !! j = Some c ->
        ∃ v, d !! c = Some v
             ∧ cols !! j ≫= (fun col => col !! i) = Some v
             ∧ rows !! i ≫= (fun row => row !! j) = Some v.
Proof.
  apply (converters_transposed unit dtype_of_number (list (list Z)) rows_as_array
           ({[ "b" := 2%Z; "a" := 1%Z ]} : gmap string Z)
           [ {[ "z" := 5%Z; "a" := 3%Z; "b" := 4%Z ]} ]).
  apply (bool_decide_unpack _). vm_compute. exact I.
Defined.

Lemma converters_missing_key_witness :
  (∃ c d, _data_to_astropy [ ({[ "b" := 2%Z; "a" := 1%Z ]} : gmap string Z);
                             {[ "a" := 3%Z ]} ] = Raise (KeyError c)
          ∧ is_Some (({[ "b" := 2%Z; "a" := 1%Z ]} : gmap string Z) !! c)
          ∧ d ∈ [ ({[ "a" := 3%Z ]} : gmap string Z) ] ∧ d !! c = None)
  ∧ (∃ c d, _data_to_numpy dtype_of_number rows_as_array
              [ ({[ "b" := 2%Z; "a" := 1%Z ]} : gmap string Z);
                {[ "a" := 3%Z ]} ] = Raise (KeyError c)
            ∧ is_Some (({[ "b" := 2%Z; "a" := 1%Z ]} : gmap string Z) !! c)
            ∧ d ∈ [ ({[ "a" := 3%Z ]} : gmap string Z) ] ∧ d !! c = None).
Proof.
  apply (converters_missing_key unit dtype_of_number (list (list Z)) rows_as_array
           ({[ "b" := 2%Z; "a" := 1%Z ]} : gmap string Z) [ {[ "a" := 3%Z ]} ]).
  apply (bool_decide_unpack _). vm_compute. exact I.
Defined.

(** ** The table of [ppv_catalog] *)

Section CatalogTable.
Context {F : Type} `{Numeric F} `{Promote F}.

Variable eig : list (list F) -> result (list F * list (list F)).
Variable argsort : list F -> list nat.
Variable arctan2 : F -> F -> F.
Variable degrees : F -> F.
Variable radians1 : F.
Variable float_pow2 : F -> result F.
Variable np_pow2 : F -> F.
Variable str_float : F -> string.

(** X14. When the record of every structure can be computed, what
    [ppv_catalog] hands to [Table] through the astropy converter is one
    column per requested field, in sorted order and without repetition
    however the fields were listed, each with one cell per structure, in
    the order of the structures; the cell of a structure under the name [c]
    is what the method [c] returns on that structure. *)
Theorem ppv_catalog_table (structures : list (list F * list (list F)))
    (md : gmap string (pyval F)) (fields : option (list string))
    (recs : list (gmap string (field_value F))) :
  structures ≠ [] ->
  mapM (structure_record eig argsort arctan2 degrees radians1 float_pow2 np_pow2 md
          (effective_fields fields)) structures = Ok recs ->
  ∃ warns names cols,
    ppv_catalog eig argsort arctan2 degrees radians1 float_pow2 np_pow2 str_float _
      _data_to_astropy structures md fields
    = (warns ++ EvPrint (effective_fields fields)
               :: map EvStruct (seq 0 (length structures)),
       Ok (cols, names))
    ∧ StronglySorted (fun a b => String.leb a b = true) names
    ∧ NoDup names
    ∧ (∀ c, c ∈ names ↔ c ∈ effective_fields fields)
    ∧ length cols = length names
    ∧ ∀ j c, names !! j = Some c ->
        ∃ col, cols !! j = Some col
          ∧ Forall2 (fun st v =>
               call_field eig argsort arctan2 degrees radians1 float_pow2 np_pow2
                 (mkPPVStatistic (mkScalarStatistic st.1 st.2) md) c = Ok v)
              structures col.
Proof.
  intros Hne Hrecs.
  destruct (ppv_validation_ok str_float md) as [warns Hpass].
  rewrite (ppv_catalog_unfold _ _ _ _ _ _ _ _ _ _ _ _ _ _ Hpass).
  rewrite (catalog_loop_ok _ _ _ _ _ _ _ _ _ _ 0 [] recs Hrecs).
  cbn [fst snd app]. rewrite bind_Ok.
  apply mapM_Ok_Forall2 in Hrecs.
  assert (Hrec : Forall2 (fun st d =>
            (∀ lbl, is_Some (d !! lbl) ↔ lbl ∈ effective_fields fields)
            ∧ ∀ lbl v, d !! lbl = Some v ->
                call_field eig argsort arctan2 degrees radians1 float_pow2 np_pow2
                  (mkPPVStatistic (mkScalarStatistic st.1 st.2) md) lbl = Ok v)
            structures recs).
  { eapply Forall2_impl; [exact Hrecs|]. intros st d Hd.
    destruct (record_fold _ _ _ _ _ _ _ _ _ _ _ Hd) as [Hdom Hval]. split.
    - intros lbl. rewrite Hdom, lookup_empty.
      split; [intros [[? [=]]|?]; done|auto].
    - intros lbl v Hl. destruct (Hval lbl v Hl) as [Hin|[_ Hc]]; [|done].
      by rewrite lookup_empty in Hin. }
  destruct recs as [|r0 rest].
  { apply Forall2_length in Hrecs. by destruct structures. }
  assert (Hkeys : ∀ d, d ∈ r0 :: rest ->
            ∀ lbl, is_Some (d !! lbl) ↔ lbl ∈ effective_fields fields).
  { intros d Hd. apply list_elem_of_lookup in Hd as [i Hi].
    destruct (Forall2_lookup_r _ _ _ _ _ Hrec Hi) as (st & _ & Hst & _).
    exact Hst. }
  assert (Hcov : Forall (covers r0) rest).
  { apply Forall_forall. intros d Hd. apply covers_lookup. intros c Hc.
    apply (Hkeys d); [by right|]. apply (Hkeys r0); [left|done]. }
  destruct (column_names_spec r0 rest) as (names & Hn & Hsort & Hnd & Hnames).
  destruct (data_to_astropy_ok r0 rest names Hcov Hn) as (cols & Hcols & Hc2).
  exists warns, names, cols. unfold _build_table. rewrite Hcols.
  repeat (split; [done|]).
  split. { intros c. rewrite Hnames. apply Hkeys. left. }
  split; [symmetry; by eapply Forall2_length|].
  intros j c Hj.
  destruct (Forall2_lookup_l _ _ _ _ _ Hc2 Hj) as (col & Hcj & Hcol).
  exists col. split; [done|].
  apply Forall2_same_length_lookup. split.
  { rewrite (Forall2_length _ _ _ Hrec). by eapply Forall2_length. }
  intros i st v Hst Hv.
  destruct (Forall2_lookup_l _ _ _ _ _ Hrec Hst) as (d & Hd & _ & Hval).
  apply Hval. by eapply (Forall2_lookup_lr _ _ _ _ _ _ Hcol).
Qed.

End CatalogTable.

Lemma ppv_catalog_table_witness :
  ∃ warns names cols,
    ppv_catalog eig_of_diagonal argsort_float64 any_arctan2 any_degrees
      radians_of_one checked_square rounded_square any_str_float _ _data_to_astropy
      [aligned_structure; aligned_structure] ∅ (Some ["vrms"; "flux"; "vrms"])
    = (warns ++ EvPrint (effective_fields (Some ["vrms"; "flux"; "vrms"]))
               :: map EvStruct (seq 0 2),
       Ok (cols, names))
    ∧ StronglySorted (fun a b => String.leb a b = true) names
    ∧ NoDup names
    ∧ (∀ c, c ∈ names ↔ c ∈ effective_fields (Some ["vrms"; "flux"; "vrms"]))
    ∧ length cols = length names
    ∧ ∀ j c, names !! j = Some c ->
        ∃ col, cols !! j = Some col
          ∧ Forall2 (fun st v =>
               call_field eig_of_diagonal argsort_float64 any_arctan2
                 any_degrees radians_of_one checked_square rounded_square
                 (mkPPVStatistic (mkScalarStatistic st.1 st.2) ∅) c = Ok v)
              [aligned_structure; aligned_structure] col.
Proof.
  apply (ppv_catalog_table eig_of_diagonal argsort_float64 any_arctan2
           any_degrees radians_of_one checked_square rounded_square any_str_float
           [aligned_structure; aligned_structure] ∅
           (Some ["vrms"; "flux"; "vrms"])
           [ {[ "flux" := FNum (PyNum 2%float); "vrms" := FNum (PyNum 0%float) ]};
             {[ "flux" := FNum (PyNum 2%float); "vrms" := FNum (PyNum 0%float) ]} ]).
  - discriminate.
  - vm_compute. reflexivity.
Defined.

(** ** Exact arithmetic

    What the formulas compute when no rounding, no overflow and no NaN
    intervene: the arithmetic is that of the real numbers. *)

Ltac exact_arith :=
  cbn [nzero nunit nadd nsub nmul ndiv nsqrt nisnan of_Z exact to_float] in *.

Section AxisValues.
Context {F : Type} `{Numeric F} `{Promote F}.
Local Open Scope num_scope.

Variable eig : list (list F) -> result (list F * list (list F)).
Variable argsort : list F -> list nat.

Lemma scaled_sqrt_along_value (self : PPVStatistic F) (d : pyval F)
    (direction : list (pyval F)) (v : pyval F) :
  scaled_sqrt_along self d direction = Ok v ->
  ∃ x f, mom2_along (stat self) (Vec direction) = Ok (Scalar x)
         ∧ checked_float d = Ok f ∧ v = PyNum (f * nsqrt x).
Proof.
  unfold scaled_sqrt_along.
  destruct (mom2_along _ _) as [[x|m]|e]; simpl; [|done|done].
  intros Hv. apply py_mul_float_Ok in Hv as (f & Hf & ->).
  by exists x, f.
Qed.

Lemma sky_maj_value (self : PPVStatistic F) (v : pyval F) :
  sky_maj eig argsort self = Ok v ->
  ∃ x f, checked_float (read_field dx (metadata self)) = Ok f
         ∧ v = PyNum (f * nsqrt x).
Proof.
  unfold sky_maj. rewrite attr_total by declared. rewrite bind_Ok.
  destruct (_sky_paxes eig argsort self) as [[a b]|e]; simpl; [|done].
  intros Hv. apply scaled_sqrt_along_value in Hv as (x & f & _ & Hf & ->).
  eauto.
Qed.

Lemma sky_min_value (self : PPVStatistic F) (v : pyval F) :
  sky_min eig argsort self = Ok v ->
  ∃ x f, checked_float (read_field dx (metadata self)) = Ok f
         ∧ v = PyNum (f * nsqrt x).
Proof.
  unfold sky_min. rewrite attr_total by declared. rewrite bind_Ok.
  destruct (_sky_paxes eig argsort self) as [[a b]|e]; simpl; [|done].
  intros Hv. apply scaled_sqrt_along_value in Hv as (x & f & _ & Hf & ->).
  eauto.
Qed.

End AxisValues.

Section ExactRadius.
Local Open Scope R_scope.

Variable eig : list (list R) -> result (list R * list (list R)).
Variable argsort : list R -> list nat.

Lemma checked_float_exact (v : pyval R) : checked_float v = Ok (to_float v).
Proof. by destruct v. Qed.

Lemma py_mul_exact (a b : pyval R) :
  ∃ v, py_mul a b = Ok v ∧ to_float v = to_float a * to_float b.
Proof.
  destruct a as [x|x], b as [y|y]; eexists; (split; [reflexivity|]);
    exact_arith; [|done..]. by rewrite mult_IZR.
Qed.

Lemma py_sub_exact (a b : pyval R) :
  ∃ v, py_sub a b = Ok v ∧ to_float v = to_float a - to_float b.
Proof.
  destruct a as [x|x], b as [y|y]; eexists; (split; [reflexivity|]);
    exact_arith; [|done..]. by rewrite minus_IZR.
Qed.

(** X15. Without a beam, that is when [bmaj * bmin] is zero, as it is by
    default, the deconvolved radius is the radius: in exact arithmetic
    [sky_deconvolved_rad()] and [sky_rad()] return the same value, and fail
    in the same way when the axes cannot be computed. *)
Theorem no_beam_radius (self : PPVStatistic R) :
  to_float <$> py_mul (read_field bmaj (metadata self))
                 (read_field bmin (metadata self)) = Ok 0 ->
  sky_deconvolved_rad eig argsort exact_np_square self
  = sky_rad eig argsort self.
Proof.
  intros Hbeam. unfold sky_deconvolved_rad, sky_rad.
  rewrite !attr_total by declared. rewrite !bind_Ok.
  destruct (py_mul (read_field bmaj _) _) as [beam|e]; [|done].
  cbn [fmap result_fmap] in Hbeam. injection Hbeam as Hbeam.
  rewrite bind_Ok.
  destruct (sky_maj eig argsort self) as [maj|e] eqn:Hmaj; [|done].
  destruct (sky_maj_value _ _ _ _ Hmaj) as (xa & d & Hd & ->).
  rewrite !bind_Ok. cbn [_qsplit].
  destruct (sky_min eig argsort self) as [mi|e] eqn:Hmin; [|done].
  destruct (sky_min_value _ _ _ _ Hmin) as (xb & d' & Hd' & ->).
  rewrite Hd in Hd'. injection Hd' as <-.
  rewrite !bind_Ok.
  assert (Hsub : ∀ a : R,
            ∃ v, py_sub (np_sq exact_np_square (PyNum a)) beam = Ok v
                 ∧ np_sqrt v = Rabs a).
  { intros a. destruct (py_sub_exact (np_sq exact_np_square (PyNum a)) beam)
      as (v & Hv & Hval).
    exists v. split; [done|]. unfold np_sqrt. rewrite Hval.
    cbn [np_sq to_float]. rewrite Hbeam. unfold exact_np_square.
    replace (a * a - 0) with (Rsqr a) by (unfold Rsqr; lra).
    apply sqrt_Rsqr_abs. }
  destruct (Hsub (nmul d (nsqrt xa))) as (va & -> & Hva).
  destruct (Hsub (nmul d (nsqrt xb))) as (vb & -> & Hvb).
  assert (Hroot : Rabs (d * sqrt xa) * Rabs (d * sqrt xb)
                  = d * sqrt xa * (d * sqrt xb)).
  { rewrite <- Rabs_mult. apply Rabs_pos_eq.
    replace (d * sqrt xa * (d * sqrt xb)) with (Rsqr d * (sqrt xa * sqrt xb))
      by (unfold Rsqr; lra).
    apply Rmult_le_pos; [apply Rle_0_sqr|].
    apply Rmult_le_pos; apply sqrt_pos. }
  rewrite !bind_Ok, Hva, Hvb. cbn [py_mul checked_float np_sqrt to_float].
  exact_arith. by rewrite Hroot.
Qed.

End ExactRadius.

(** ** Projections onto coordinate axes *)

Section ProjectionFormula.
Context {F : Type} `{Numeric F} `{Promote F}.

Lemma transpose_involutive (n : nat) (w : list (list F)) :
  Forall (fun row => length row = n) w ->
  transpose (transpose w n) (length w) = w.
Proof.
  intros Hw. apply list_eq. intros i. unfold transpose at 1.
  rewrite list_lookup_fmap.
  destruct (decide (i < length w)) as [Hi|Hi].
  - rewrite lookup_seq_lt by done. simpl.
    destruct (lookup_lt_is_Some_2 w i Hi) as [row Hrow]. rewrite Hrow.
    f_equal. apply list_eq. intros j.
    rewrite omap_column_lookup.
    + unfold get2, transpose. rewrite list_lookup_fmap.
      destruct (decide (j < n)) as [Hj|Hj].
      * rewrite lookup_seq_lt by done. simpl.
        rewrite omap_column_lookup
          by (eapply Forall_impl; [exact Hw|]; intros r Hr; simpl in *; lia).
        unfold get2. by rewrite Hrow.
      * rewrite lookup_seq_ge by lia. simpl. symmetry.
        apply lookup_ge_None. rewrite Forall_forall in Hw.
        rewrite (Hw row) by (by eapply list_elem_of_lookup_2). lia.
    + apply Forall_forall. intros col Hcol. unfold transpose in Hcol.
      apply list_elem_of_fmap in Hcol as (o & -> & Ho).
      apply elem_of_seq in Ho.
      destruct (column_dims n w o Hw) as [_ Hlen]; [lia|]. by rewrite Hlen.
  - rewrite lookup_seq_ge by lia. simpl. symmetry.
    apply lookup_ge_None. lia.
Qed.

(** The product [w . m . w.T], entry by entry, for directions of the
    length of the sample's coordinates. *)
Lemma project_formula (s : ScalarStatistic F) (m : list (list F))
    (w : list (list F)) :
  mom2 s = Ok m -> length m = length (indices s) ->
  Forall (fun row => length row = length (indices s)) w ->
  project s w (length (indices s))
  = let r := map (fun row =>
                  map (dot1 (map (dot1 row) (transpose m (length (indices s)))))
                    w) w in
    match r with
    | [[x]] => Ok (Scalar x)
    | _ => Ok (Matrix r)
    end.
Proof.
  intros Hm Hl Hw. unfold project. rewrite Hm, bind_Ok.
  unfold dot at 2. rewrite <- Hl, Nat.eqb_refl, bind_Ok.
  unfold dot. unfold transpose at 1. rewrite length_map, length_seq.
  rewrite Hl, Nat.eqb_refl, bind_Ok.
  rewrite (transpose_involutive _ w Hw). by rewrite map_map.
Qed.

End ProjectionFormula.

Section ExactAxes.
Local Open Scope R_scope.

Lemma basis_row_exact (n j : nat) :
  map to_float (basis_row (F:=R) n j) = <[j := 1]> (replicate n 0).
Proof. unfold basis_row. by rewrite list_fmap_insert, fmap_replicate. Qed.

Lemma fold_zero_row (n : nat) (row : list R) (a : R) :
  fold_left Rplus (zip_with Rmult (replicate n 0) row) a = a.
Proof.
  revert row a. induction n as [|n IH]; intros [|x row] a; simpl; try done.
  rewrite IH. lra.
Qed.

Lemma fold_basis_row (j n : nat) (row : list R) (a x : R) :
  row !! j = Some x -> (j < n)%nat ->
  fold_left Rplus (zip_with Rmult (<[j := 1]> (replicate n 0)) row) a = a + x.
Proof.
  revert n row a. induction j as [|j IH]; intros [|n] [|y row] a Hx Hj;
    simpl in *; try lia; try done.
  - injection Hx as ->. rewrite fold_zero_row. lra.
  - rewrite (IH n row _ Hx) by lia. lra.
Qed.

Lemma dot1_basis_l (j n : nat) (row : list R) (x : R) :
  row !! j = Some x -> (j < n)%nat ->
  dot1 (<[j := 1]> (replicate n 0)) row = x.
Proof.
  intros Hx Hj. unfold dot1. exact_arith.
  rewrite (fold_basis_row j n row 0 x Hx Hj). lra.
Qed.

Lemma dot1_basis_r (j n : nat) (row : list R) (x : R) :
  row !! j = Some x -> (j < n)%nat ->
  dot1 row (<[j := 1]> (replicate n 0)) = x.
Proof.
  intros Hx Hj. rewrite (dot1_comm (F:=R) (H:=exact) Rmult_comm).
  by apply dot1_basis_l.
Qed.

Lemma normalize_basis (j n : nat) :
  (j < n)%nat ->
  normalize (<[j := 1]> (replicate n 0)) = <[j := 1]> (replicate n 0).
Proof.
  intros Hj. set (e := <[j := 1]> (replicate n 0)).
  assert (He : e !! j = Some 1).
  { apply list_lookup_insert_eq. by rewrite length_replicate. }
  assert (Hsum : np_sum (map (fun z : R => nmul z z) e) = 1).
  { replace (map (fun z : R => nmul z z) e) with (zip_with Rmult e e)
      by (clear; induction e as [|z e IH]; simpl; [done|by rewrite IH]).
    pose proof (fold_basis_row j n e 0 1 He Hj) as Hf. fold e in Hf.
    unfold np_sum. destruct (zip_with Rmult e e) as [|z l]; simpl in *;
      [lra|]. exact_arith. rewrite Rplus_0_l in Hf. rewrite Hf. lra. }
  unfold normalize, norm. rewrite Hsum. exact_arith. rewrite sqrt_1.
  rewrite <- (map_id e) at 2. apply List.map_ext. intros z. lra.
Qed.

(** Along coordinate axes, [mom2_along] reads entries of [mom2()]: the
    entry [(a, b)] of the result is the entry of [mom2()] at the [a]-th and
    the [b]-th of the axes. *)
Lemma mom2_along_axes (s : ScalarStatistic R) (m : list (list R))
    (js : list nat) :
  mom2 s = Ok m -> dims (length (indices s)) m ->
  Forall (fun j => (j < length (indices s))%nat) js ->
  project s (map (fun j => <[j := 1]> (replicate (length (indices s)) 0)) js)
    (length (indices s))
  = let r := map (fun j => map (fun k => (m !!! j) !!! k) js) js in
    match r with
    | [[x]] => Ok (Scalar x)
    | _ => Ok (Matrix r)
    end.
Proof.
  intros Hm [Hml Hmr] Hjs. set (nd := length (indices s)) in *.
  rewrite (project_formula s m) by
    (try done; apply Forall_forall; intros row Hrow;
     apply list_elem_of_fmap in Hrow as (j & -> & _);
     by rewrite length_insert, length_replicate).
  fold nd.
  assert (Hrow : ∀ j, (j < nd)%nat ->
            map (dot1 (<[j := 1]> (replicate nd 0))) (transpose m nd) = m !!! j).
  { intros j Hj. apply list_eq. intros k. rewrite list_lookup_fmap.
    unfold transpose. rewrite list_lookup_fmap.
    destruct (lookup_lt_is_Some_2 m j) as [row Erow]; [lia|].
    rewrite (list_lookup_total_correct _ _ _ Erow).
    assert (Hlen : length row = nd).
    { rewrite Forall_forall in Hmr. apply Hmr.
      by eapply list_elem_of_lookup_2. }
    destruct (decide (k < nd)%nat) as [Hk|Hk].
    - rewrite lookup_seq_lt by done. simpl.
      destruct (lookup_lt_is_Some_2 row k) as [x Hx]; [lia|].
      rewrite Hx. f_equal. apply (dot1_basis_l j nd); [|done].
      rewrite omap_column_lookup
        by (eapply Forall_impl; [exact Hmr|]; intros r Hr; simpl in *; lia).
      unfold get2. by rewrite Erow.
    - rewrite lookup_seq_ge by lia. simpl. symmetry.
      apply lookup_ge_None. lia. }
  assert (Heq : map (fun row : list R =>
                  map (dot1 (map (dot1 row) (transpose m nd)))
                    (map (fun j => <[j := 1]> (replicate nd 0)) js))
                  (map (fun j => <[j := 1]> (replicate nd 0)) js)
                = map (fun j => map (fun k => (m !!! j) !!! k) js) js).
  { rewrite map_map. apply Forall_fmap_ext_1.
    eapply Forall_impl; [exact Hjs|]. intros j Hj. cbv beta in Hj |- *.
    rewrite (Hrow j Hj), map_map. apply Forall_fmap_ext_1.
    eapply Forall_impl; [exact Hjs|]. intros k Hk. cbv beta in Hk |- *.
    destruct (lookup_lt_is_Some_2 m j) as [row Erow]; [lia|].
    rewrite (list_lookup_total_correct _ _ _ Erow).
    assert (Hlen : length row = nd).
    { rewrite Forall_forall in Hmr. apply Hmr.
      by eapply list_elem_of_lookup_2. }
    destruct (lookup_lt_is_Some_2 row k) as [x Hx]; [lia|].
    rewrite (list_lookup_total_correct _ _ _ Hx).
    by apply (dot1_basis_r k nd). }
  cbv zeta. by rewrite Heq.
Qed.

End ExactAxes.

Section ExactVelocity.
Local Open Scope R_scope.

Variable eig : list (list R) -> result (list R * list (list R)).
Variable argsort : list R -> list nat.

Lemma py_index_lt (n : nat) (v : pyval R) (i : nat) :
  py_index n v = Ok i -> (i < n)%nat.
Proof.
  destruct v as [z|x]; simpl; [|done].
  destruct (Z.leb_spec 0 z), (Z.ltb_spec z (Z.of_nat n)); simpl;
    try (intros [= <-]; lia).
  all: destruct (Z.leb_spec (- Z.of_nat n) z), (Z.ltb_spec z 0); simpl;
    try done; intros [= <-]; lia.
Qed.

Lemma list_pop_valid {A : Type} (l : list A) (v : pyval R) (i : nat) :
  length l = 3%nat -> py_index 3 v = Ok i -> list_pop l v = Ok (delete i l).
Proof.
  intros Hl Hi. unfold list_pop. rewrite Hl, Hi.
  destruct v as [z|x]; [|done].
  assert (Hz : fits_ssize z = true); [|by rewrite Hz].
  assert (Hpow : (2 ^ 63 = 9223372036854775808)%Z) by reflexivity.
  assert (Hz : (-3 <= z < 3)%Z).
  { unfold py_index in Hi.
    change (Z.of_nat 3) with 3%Z in Hi. change (- (3))%Z with (-3)%Z in Hi.
    destruct (Z.leb_spec 0 z), (Z.ltb_spec z 3); simpl in Hi; try lia.
    all: destruct (Z.leb_spec (-3) z), (Z.ltb_spec z 0); simpl in Hi;
      try done; lia. }
  unfold fits_ssize. rewrite Hpow.
  apply andb_true_iff. split; [apply Z.leb_le|apply Z.ltb_lt]; lia.
Qed.

Lemma dims_3 (m : list (list R)) :
  dims 3 m ->
  ∃ a b c d e f g h k, m = [[a; b; c]; [d; e; f]; [g; h; k]].
Proof.
  intros [Hl Hr].
  destruct m as [|r0 [|r1 [|r2 [|]]]]; try done.
  apply Forall_cons in Hr as [H0 Hr]. apply Forall_cons in Hr as [H1 Hr].
  apply Forall_cons in Hr as [H2 _].
  destruct r0 as [|a [|b [|c [|]]]]; try done.
  destruct r1 as [|d [|e [|f [|]]]]; try done.
  destruct r2 as [|g [|h [|k [|]]]]; try done.
  by exists a, b, c, d, e, f, g, h, k.
Qed.

Lemma mom2_dims (s : ScalarStatistic R) (m : list (list R)) :
  sample_aligned s -> mom2 s = Ok m -> dims (length (indices s)) m.
Proof.
  intros Hs Hm.
  destruct (mom2_aligned s _ Hs (mom1_aligned s Hs)) as (M & HM & Hd & _).
  rewrite Hm in HM. by injection HM as <-.
Qed.

(** X16. In exact arithmetic [vrms()] is the channel width times the square
    root of the diagonal entry of [mom2()] at the velocity axis, for a cube
    (three aligned coordinate arrays) whose values do not sum to zero and
    every valid [vaxis], counted from the front or, when negative, from the
    end. *)
Theorem vrms_velocity_variance (self : PPVStatistic R) (m : list (list R))
    (i : nat) :
  sample_aligned (stat self) -> length (indices (stat self)) = 3%nat ->
  mom0 (stat self) <> 0 ->
  mom2 (stat self) = Ok m ->
  py_index 3 (read_field vaxis (metadata self)) = Ok i ->
  vrms self
  = Ok (PyNum (to_float (read_field dv (metadata self))
               * sqrt ((m !!! i) !!! i))).
Proof.
  clear eig argsort.
  intros Hs Hnd _ Hm Hi. pose proof (py_index_lt _ _ _ Hi) as Hlt.
  pose proof (mom2_dims _ _ Hs Hm) as Hd.
  unfold vrms. rewrite !attr_total by declared. rewrite bind_Ok, Hi, !bind_Ok.
  unfold scaled_sqrt_along, mom2_along. cbn [atleast_2d_float].
  rewrite bind_Ok.
  change [PyInt 0; PyInt 0; PyInt 0] with (replicate 3 (PyInt (F:=R) 0)).
  rewrite length_insert, length_replicate. fold (basis_row (F:=R) 3 i).
  cbn [map]. rewrite basis_row_exact, (normalize_basis i 3 Hlt).
  pose proof (mom2_along_axes (stat self) m [i] Hm Hd) as Hp.
  rewrite Hnd in Hp. cbn [map] in Hp. rewrite Hp.
  - rewrite bind_Ok, py_mul_float, checked_float_exact. by rewrite bind_Ok.
  - by constructor.
Qed.

(** X17. In exact arithmetic, for a cube whose values do not sum to zero,
    the sky axes are the principal axes of the position-position block of
    [mom2()]: [_sky_paxes] hands to [eig] the matrix [mom2()] without the
    row and the column of the velocity axis, and returns the two columns it
    gets, in the reverse of the order of [argsort], each with the value of
    [vaxis] put in front. *)
Theorem sky_paxes_plane (self : PPVStatistic R) (m : list (list R))
    (i : nat) :
  sample_aligned (stat self) -> length (indices (stat self)) = 3%nat ->
  mom0 (stat self) <> 0 ->
  mom2 (stat self) = Ok m ->
  py_index 3 (read_field vaxis (metadata self)) = Ok i ->
  _sky_paxes eig argsort self
  = ('(w, v) ← eig (minor i m);
     ab ← mapM (column v) (reverse (argsort w));
     match ab with
     | [a; b] => Ok (read_field vaxis (metadata self) :: map PyNum a,
                     read_field vaxis (metadata self) :: map PyNum b)
     | _ => Raise ValueError
     end).
Proof.
  intros Hs Hnd _ Hm Hi. pose proof (py_index_lt _ _ _ Hi) as Hlt.
  pose proof (mom2_dims _ _ Hs Hm) as Hd.
  unfold _sky_paxes. rewrite !attr_total by declared. rewrite bind_Ok.
  rewrite (list_pop_valid [[PyInt 1; PyInt 0; PyInt 0];
                             [PyInt 0; PyInt 1; PyInt 0];
                             [PyInt 0; PyInt 0; PyInt 1]] _ i eq_refl Hi).
  rewrite !bind_Ok.
  assert (Hp : ∀ js : list nat,
            Forall (fun j => (j < 3)%nat) js ->
            project (stat self)
              (map (fun j => <[j := 1]> (replicate 3 0)) js) 3
            = let r := map (fun j => map (fun k => (m !!! j) !!! k) js) js in
              match r with
              | [[x]] => Ok (Scalar x)
              | _ => Ok (Matrix r)
              end).
  { intros js Hjs. pose proof (mom2_along_axes (stat self) m js Hm Hd) as Hp.
    rewrite Hnd in Hp. by apply Hp. }
  assert (Hn : ∀ js : list nat,
            Forall (fun j => (j < 3)%nat) js ->
            map normalize (map (fun j => <[j := 1]> (replicate 3 0)) js)
            = map (fun j => <[j := 1]> (replicate 3 0)) js).
  { intros js Hjs. rewrite map_map. apply Forall_fmap_ext_1.
    eapply Forall_impl; [exact Hjs|]. intros j Hj. by apply normalize_basis. }
  rewrite Hnd in Hd. destruct (dims_3 m Hd) as (a & b & c & d & e & f & g & h & k & ->).
  unfold projected_paxes, mom2_along.
  destruct i as [|[|[|i]]]; [| | |lia].
  - change (atleast_2d_float _)
      with (Ok (map (fun j => <[j := 1]> (replicate 3 0)) [1; 2]%nat, 3%nat)).
    rewrite bind_Ok, Hn, Hp by (repeat constructor).
    cbn -[mapM column reverse]. by destruct (eig _) as [[w v]|err].
  - change (atleast_2d_float _)
      with (Ok (map (fun j => <[j := 1]> (replicate 3 0)) [0; 2]%nat, 3%nat)).
    rewrite bind_Ok, Hn, Hp by (repeat constructor).
    cbn -[mapM column reverse]. by destruct (eig _) as [[w v]|err].
  - change (atleast_2d_float _)
      with (Ok (map (fun j => <[j := 1]> (replicate 3 0)) [0; 1]%nat, 3%nat)).
    rewrite bind_Ok, Hn, Hp by (repeat constructor).
    cbn -[mapM column reverse]. by destruct (eig _) as [[w v]|err].
Qed.

End ExactVelocity.

Lemma cube_exact_mom2 :
  mom2 cube_exact = Ok [[0; 0; 0]; [0; 0; 0]; [0; 0; 1]]%R.
Proof.
  unfold mom2, mom1, mom0, cube_exact. simpl.
  unfold nansum, np_sum. simpl. repeat f_equal; lra.
Qed.

Lemma no_beam_radius_witness :
  sky_deconvolved_rad eig_of_diagonal argsort_sorted exact_np_square
    (mkPPVStatistic cube_exact {[ "vaxis" := PyInt 0 ]})
  = sky_rad eig_of_diagonal argsort_sorted
      (mkPPVStatistic cube_exact {[ "vaxis" := PyInt 0 ]}).
Proof.
  apply (no_beam_radius eig_of_diagonal argsort_sorted
           (mkPPVStatistic cube_exact {[ "vaxis" := PyInt 0 ]})).
  reflexivity.
Defined.

Lemma cube_exact_mom0 : mom0 cube_exact <> 0%R.
Proof. unfold mom0, nansum, np_sum, cube_exact. simpl. lra. Qed.

Lemma vrms_velocity_variance_witness :
  vrms (mkPPVStatistic cube_exact {[ "vaxis" := PyInt (-1) ]})
  = Ok (PyNum
          (to_float
             (read_field dv
                (metadata
                   (mkPPVStatistic cube_exact {[ "vaxis" := PyInt (-1) ]})))
           * sqrt (([[0; 0; 0]; [0; 0; 0]; [0; 0; 1]] !!! 2%nat) !!! 2%nat))%R).
Proof.
  apply (vrms_velocity_variance
           (mkPPVStatistic cube_exact {[ "vaxis" := PyInt (-1) ]})
           [[0; 0; 0]; [0; 0; 0]; [0; 0; 1]]%R 2).
  - repeat constructor.
  - reflexivity.
  - exact cube_exact_mom0.
  - exact cube_exact_mom2.
  - reflexivity.
Defined.

Lemma sky_paxes_plane_witness :
  _sky_paxes eig_of_diagonal argsort_sorted
    (mkPPVStatistic cube_exact {[ "vaxis" := PyInt 0 ]})
  = ('(w, v) ← eig_of_diagonal
                 (minor 0 [[0; 0; 0]; [0; 0; 0]; [0; 0; 1]]%R);
     ab ← mapM (column v) (reverse (argsort_sorted w));
     match ab with
     | [a; b] =>
         Ok (read_field vaxis
               (metadata (mkPPVStatistic cube_exact {[ "vaxis" := PyInt 0 ]}))
               :: map PyNum a,
             read_field vaxis
               (metadata (mkPPVStatistic cube_exact {[ "vaxis" := PyInt 0 ]}))
               :: map PyNum b)
     | _ => Raise ValueError
     end).
Proof.
  apply (sky_paxes_plane eig_of_diagonal argsort_sorted
           (mkPPVStatistic cube_exact {[ "vaxis" := PyInt 0 ]})
           [[0; 0; 0]; [0; 0; 0]; [0; 0; 1]]%R 0).
  - repeat constructor.
  - reflexivity.
  - exact cube_exact_mom0.
  - exact cube_exact_mom2.
  - reflexivity.
Defined.

(** ** Moments under a change of scale or of origin *)

Lemma mapM_ext {A B : Type} (f g : A -> result B) (l : list A) :
  (∀ a, a ∈ l -> f a = g a) -> mapM f l = mapM g l.
Proof.
  induction l as [|a l IH]; intros Hfg; cbn [mapM]; [done|].
  rewrite (Hfg a) by left. rewrite IH; [done|].
  intros a' Ha'. apply Hfg. by right.
Qed.

Section ExactMoments.
Local Open Scope R_scope.

Variable eig : list (list R) -> result (list R * list (list R)).
Variable argsort : list R -> list nat.

Lemma fold_left_Rplus (l : list R) (a : R) :
  fold_left Rplus l a = a + fold_right Rplus 0 l.
Proof.
  revert a. induction l as [|x l IH]; intros a; simpl; [lra|].
  rewrite IH. lra.
Qed.

Lemma np_sum_exact (l : list R) : np_sum l = fold_right Rplus 0 l.
Proof.
  destruct l as [|x l]; [done|]. unfold np_sum. exact_arith.
  rewrite fold_left_Rplus. done.
Qed.

Lemma nansum_exact (l : list R) : nansum l = fold_right Rplus 0 l.
Proof.
  unfold nansum. exact_arith. rewrite np_sum_exact. f_equal.
  rewrite <- (map_id l) at 2. by apply List.map_ext.
Qed.

Lemma nansum_scale (c : R) (l : list R) :
  nansum (map (Rmult c) l) = c * nansum l.
Proof.
  rewrite !nansum_exact. induction l as [|x l IH]; simpl; [lra|].
  rewrite IH. lra.
Qed.

Lemma zip_with_scale (c : R) (idx v : list R) :
  zip_with Rmult idx (map (Rmult c) v) = map (Rmult c) (zip_with Rmult idx v).
Proof.
  revert v. induction idx as [|z idx IH]; intros [|w v]; simpl; try done.
  f_equal; [lra|apply IH].
Qed.

Lemma broadcast2_scale (c : R) (idx v : list R) :
  broadcast2 Rmult idx (map (Rmult c) v)
  = map (Rmult c) <$> broadcast2 Rmult idx v.
Proof.
  assert (Hl : ∀ x : R, map (Rmult x) (map (Rmult c) v)
                        = map (Rmult c) (map (Rmult x) v)).
  { intros x. rewrite !map_map. apply List.map_ext. intros. lra. }
  assert (Hr : ∀ y : R, map (fun x => x * (c * y)) idx
                        = map (Rmult c) (map (fun x => x * y) idx)).
  { intros y. rewrite !map_map. apply List.map_ext. intros. lra. }
  unfold broadcast2.
  destruct idx as [|x [|x' idx]].
  - destruct v as [|y [|y' v]]; cbn [map length]; [done|done|].
    by destruct (decide _).
  - by rewrite Hl.
  - destruct v as [|y [|y' v]].
    + cbn [map length]. by destruct (decide _).
    + change (map (Rmult c) [y]) with [c * y]. cbv beta iota. by rewrite Hr.
    + change (map (Rmult c) (y :: y' :: v))
        with (c * y :: c * y' :: map (Rmult c) v) at 1.
      cbv iota beta.
      change (c * y :: c * y' :: map (Rmult c) v)
        with (map (Rmult c) (y :: y' :: v)).
      rewrite length_map. destruct (decide _); [|done].
      by rewrite zip_with_scale.
Qed.

(** X18. In exact arithmetic the shape of a structure does not depend on
    the scale of its values: multiplying every value by [c], not zero,
    multiplies [mom0()] by [c] and leaves [mom1()], [mom2()],
    [mom2_along(d)] and [paxes()] as they were, failures included.  The
    values must not sum to zero. *)
Theorem moments_scale_invariant (c : R) (s : ScalarStatistic R)
    (d : arraylike R) :
  c <> 0 -> mom0 s <> 0 ->
  mom0 (scale_values c s) = c * mom0 s
  ∧ mom1 (scale_values c s) = mom1 s
  ∧ mom2 (scale_values c s) = mom2 s
  ∧ mom2_along (scale_values c s) d = mom2_along s d
  ∧ paxes eig argsort (scale_values c s) = paxes eig argsort s.
Proof.
  intros Hc Hm.
  assert (Hm0 : mom0 (scale_values c s) = c * mom0 s).
  { unfold mom0, scale_values. cbn [values]. apply nansum_scale. }
  assert (Hm1 : mom1 (scale_values c s) = mom1 s).
  { unfold mom1. rewrite Hm0. unfold scale_values. cbn [values indices].
    apply mapM_ext. intros idx _.
    change (@nmul R exact) with Rmult. rewrite broadcast2_scale.
    destruct (broadcast2 Rmult idx (values s)) as [iv|e]; [|done].
    cbn [fmap result_fmap]. rewrite !bind_Ok, nansum_scale. f_equal.
    exact_arith. by field. }
  assert (Hm2 : mom2 (scale_values c s) = mom2 s).
  { unfold mom2. rewrite Hm1.
    destruct (mom1 s) as [m1|e]; [|done]. rewrite !bind_Ok, Hm0.
    unfold scale_values. cbn [values indices].
    replace (map (fun x : R => ndiv x (c * mom0 s)) (map (nmul c) (values s)))
      with (map (fun x : R => ndiv x (mom0 s)) (values s)); [done|].
    rewrite map_map. apply List.map_ext. intros x. exact_arith. by field. }
  repeat (split; [done|]). split.
  - unfold mom2_along, project. by rewrite Hm2.
  - unfold paxes. by rewrite Hm2.
Qed.

Lemma nansum_shift (t : R) (idx v : list R) :
  length idx = length v ->
  nansum (zip_with Rmult (map (fun x => x + t) idx) v)
  = nansum (zip_with Rmult idx v) + t * nansum v.
Proof.
  rewrite !nansum_exact. revert v.
  induction idx as [|x idx IH]; intros [|y v] Hl; simpl in *; try lia; [lra|].
  rewrite IH by lia. lra.
Qed.

Lemma deviation_shift (idxs : list (list R)) (ts m1 : list R) :
  zip_with deviation
    (zip_with (fun idx t => map (fun x : R => nadd x t) idx) idxs ts)
    (zip_with Rplus m1 ts)
  = zip_with deviation (zip_with (fun idx (t : R) => idx) idxs ts)
      (zip_with (fun m (t : R) => m) m1 ts).
Proof.
  revert ts m1. induction idxs as [|idx idxs IH]; intros [|t ts] [|m m1];
    simpl; try done.
  f_equal; [|apply IH].
  unfold deviation. rewrite map_map. apply List.map_ext. intros x.
  exact_arith. lra.
Qed.

Lemma zip_with_fst {A B : Type} (l : list A) (k : list B) :
  length l = length k -> zip_with (fun a _ => a) l k = l.
Proof.
  revert k. induction l as [|a l IH]; intros [|b k] Hl; simpl in *;
    try done. f_equal. apply IH. lia.
Qed.

(** X19. In exact arithmetic, on aligned arrays whose values do not sum to
    zero, moving the origin of the coordinates moves [mom1()] along and
    leaves [mom2()] alone: with the [k]-th coordinate array shifted by
    [ts[k]], the [k]-th entry of [mom1()] is shifted by [ts[k]], and
    [mom2()], [mom2_along(d)] and [paxes()] are what they were. *)
Theorem moments_shift (ts : list R) (s : ScalarStatistic R) (m1 : list R)
    (d : arraylike R) :
  sample_aligned s -> mom0 s <> 0 -> length ts = length (indices s) ->
  mom1 s = Ok m1 ->
  mom1 (shift_indices ts s) = Ok (zip_with Rplus m1 ts)
  ∧ mom2 (shift_indices ts s) = mom2 s
  ∧ mom2_along (shift_indices ts s) d = mom2_along s d
  ∧ paxes eig argsort (shift_indices ts s) = paxes eig argsort s.
Proof.
  intros Hs Hm Hts Hm1.
  assert (Hs' : sample_aligned (shift_indices ts s)).
  { unfold sample_aligned, shift_indices. cbn [values indices].
    apply Forall_forall. intros idx Hidx.
    apply list_elem_of_lookup in Hidx as [k Hk].
    apply lookup_zip_with_Some in Hk as (idx0 & t & -> & Hidx0 & _).
    rewrite length_map. unfold sample_aligned in Hs.
    rewrite Forall_forall in Hs. apply Hs. by eapply list_elem_of_lookup_2. }
  assert (Hlen : length (indices (shift_indices ts s)) = length (indices s)).
  { unfold shift_indices. cbn [indices]. rewrite length_zip_with. lia. }
  assert (Hm1' : mom1 (shift_indices ts s) = Ok (zip_with Rplus m1 ts)).
  { rewrite (mom1_aligned _ Hs'). rewrite (mom1_aligned _ Hs) in Hm1.
    injection Hm1 as <-. f_equal.
    unfold shift_indices, mom0. cbn [values indices].
    unfold sample_aligned in Hs. clear Hs' Hlen. revert ts Hts.
    induction Hs as [|idx idxs Hidx _ IH]; intros [|t ts] Hts; simpl in *;
      try done.
    f_equal; [|apply IH; lia].
    change (@nmul R exact) with Rmult. change (@nadd R exact) with Rplus.
    rewrite (nansum_shift t idx (values s) Hidx). exact_arith.
    unfold mom0 in Hm. by field. }
  assert (Hm2 : mom2 (shift_indices ts s) = mom2 s).
  { unfold mom2. rewrite Hm1', Hm1, !bind_Ok, Hlen.
    assert (Hl1 : length m1 = length (indices s)).
    { rewrite (mom1_aligned _ Hs) in Hm1. injection Hm1 as <-.
      by rewrite length_map. }
    unfold shift_indices, mom0. cbn [values indices].
    change (fun (i : list R) (m : R) => map (fun c : R => nsub c m) i)
      with (@deviation R exact).
    rewrite deviation_shift, !zip_with_fst by lia.
    done. }
  split; [done|]. split; [done|]. split.
  - unfold mom2_along, project. by rewrite Hm2, Hlen.
  - unfold paxes. by rewrite Hm2.
Qed.

End ExactMoments.

Lemma cube_exact_mom1 : mom1 cube_exact = Ok [0; 0; 1]%R.
Proof.
  unfold mom1, mom0, cube_exact. simpl.
  unfold nansum, np_sum. simpl. repeat f_equal; lra.
Qed.

Lemma moments_scale_invariant_witness :
  mom0 (scale_values 2%R cube_exact) = (2 * mom0 cube_exact)%R
  ∧ mom1 (scale_values 2%R cube_exact) = mom1 cube_exact
  ∧ mom2 (scale_values 2%R cube_exact) = mom2 cube_exact
  ∧ mom2_along (scale_values 2%R cube_exact) (Vec [PyInt 0; PyInt 0; PyInt 1])
    = mom2_along cube_exact (Vec [PyInt 0; PyInt 0; PyInt 1])
  ∧ paxes eig_of_diagonal argsort_sorted (scale_values 2%R cube_exact)
    = paxes eig_of_diagonal argsort_sorted cube_exact.
Proof.
  apply (moments_scale_invariant eig_of_diagonal argsort_sorted 2%R
           cube_exact (Vec [PyInt 0; PyInt 0; PyInt 1])).
  - lra.
  - exact cube_exact_mom0.
Defined.

Lemma moments_shift_witness :
  mom1 (shift_indices [1; 2; 3]%R cube_exact)
  = Ok (zip_with Rplus [0; 0; 1]%R [1; 2; 3]%R)
  ∧ mom2 (shift_indices [1; 2; 3]%R cube_exact) = mom2 cube_exact
  ∧ mom2_along (shift_indices [1; 2; 3]%R cube_exact)
      (Vec [PyInt 0; PyInt 0; PyInt 1])
    = mom2_along cube_exact (Vec [PyInt 0; PyInt 0; PyInt 1])
  ∧ paxes eig_of_diagonal argsort_sorted (shift_indices [1; 2; 3]%R cube_exact)
    = paxes eig_of_diagonal argsort_sorted cube_exact.
Proof.
  apply (moments_shift eig_of_diagonal argsort_sorted [1; 2; 3]%R
           cube_exact [0; 0; 1]%R (Vec [PyInt 0; PyInt 0; PyInt 1])).
  - repeat constructor.
  - exact cube_exact_mom0.
  - reflexivity.
  - exact cube_exact_mom1.
Defined.

(** ** Directions that are not normalized *)

Section ExactDirections.
Local Open Scope R_scope.

Lemma norm_scale (c : R) (row : list R) :
  0 < c -> norm (map (Rmult c) row) = c * norm row.
Proof.
  intros Hc. unfold norm. exact_arith.
  replace (map (fun x : R => x * x) (map (Rmult c) row))
    with (map (Rmult (c * c)) (map (fun x : R => x * x) row))
    by (rewrite !map_map; apply List.map_ext; intros x; lra).
  rewrite !np_sum_exact.
  assert (Hsum : ∀ l : list R,
            fold_right Rplus 0 (map (Rmult (c * c)) l)
            = c * c * fold_right Rplus 0 l).
  { induction l as [|x l IH]; simpl; [lra|]. rewrite IH. lra. }
  rewrite Hsum, sqrt_mult_alt by nra.
  by rewrite sqrt_square by lra.
Qed.

Lemma normalize_scale (c : R) (row : list R) :
  0 < c -> norm row <> 0 -> normalize (map (Rmult c) row) = normalize row.
Proof.
  intros Hc Hn. unfold normalize. rewrite norm_scale by done.
  rewrite map_map. apply List.map_ext. intros x. exact_arith. field.
  split; [done|lra].
Qed.

Lemma atleast_2d_float_scale (c : R) (d : arraylike R) (w : list (list R))
    (n : nat) :
  atleast_2d_float d = Ok (w, n) ->
  atleast_2d_float (scale_direction c d) = Ok (map (map (Rmult c)) w, n).
Proof.
  destruct d as [l|[|r rs]]; simpl.
  - intros [= <- <-]. rewrite length_map. cbn [map]. rewrite !map_map.
    reflexivity.
  - by intros [= <- <-].
  - assert (Hf : ∀ (f : pyval R -> pyval R) k,
              forallb (fun r' => Nat.eqb (length r') k) (map (map f) rs)
              = forallb (fun r' => Nat.eqb (length r') k) rs).
    { intros f k. induction rs as [|r' rs IH]; simpl; [done|].
      by rewrite length_map, IH. }
    rewrite Hf, !length_map.
    destruct (forallb _ rs); [|done]. intros [= <- <-].
    cbn [map]. rewrite !map_map. f_equal. f_equal. f_equal.
    apply List.map_ext. intros row. by rewrite !map_map.
Qed.

(** X20. A direction need not be normalized: in exact arithmetic
    [mom2_along] gives the same result for a direction and for any positive
    multiple of it, and likewise for several directions multiplied by one
    positive factor.  No direction may be the zero vector. *)
Theorem mom2_along_scale_free (c : R) (s : ScalarStatistic R)
    (d : arraylike R) (w : list (list R)) (n : nat) :
  0 < c -> atleast_2d_float d = Ok (w, n) ->
  Forall (fun row => norm row <> 0) w ->
  mom2_along s (scale_direction c d) = mom2_along s d.
Proof.
  intros Hc Hw Hn. unfold mom2_along.
  rewrite (atleast_2d_float_scale c d w n Hw), Hw, !bind_Ok.
  f_equal. rewrite map_map. apply Forall_fmap_ext_1.
  eapply Forall_impl; [exact Hn|]. intros row Hrow.
  by apply normalize_scale.
Qed.

End ExactDirections.

Lemma mom2_along_scale_free_witness :
  mom2_along cube_exact
    (scale_direction 5%R (Rows [[PyInt 0; PyInt 3; PyInt 4];
                                [PyInt 0; PyInt 0; PyInt 2]]))
  = mom2_along cube_exact (Rows [[PyInt 0; PyInt 3; PyInt 4];
                                 [PyInt 0; PyInt 0; PyInt 2]]).
Proof.
  apply (mom2_along_scale_free 5%R cube_exact
           (Rows [[PyInt 0; PyInt 3; PyInt 4]; [PyInt 0; PyInt 0; PyInt 2]])
           [[0; 3; 4]; [0; 0; 2]]%R 3).
  - lra.
  - reflexivity.
  - assert (H25 : sqrt 25 = 5%R).
    { replace 25%R with (5 * 5)%R by lra. apply sqrt_square. lra. }
    assert (H4 : sqrt 4 = 2%R).
    { replace 4%R with (2 * 2)%R by lra. apply sqrt_square. lra. }
    repeat constructor; unfold norm, np_sum; simpl.
    + replace (0 * 0 + 3 * 3 + 4 * 4)%R with 25%R by lra. rewrite H25. lra.
    + replace (0 * 0 + 0 * 0 + 2 * 2)%R with 4%R by lra. rewrite H4. lra.
Defined.

(** ** float64: values that sum to zero *)

Section ZeroSum.

Lemma eqb_zero (y : float) :
  PrimFloat.eqb y 0%float = true -> ∃ s, Prim2SF y = S754_zero s.
Proof.
  rewrite FloatAxioms.eqb_spec. unfold SFeqb.
  change (Prim2SF 0%float) with (S754_zero false).
  destruct (Prim2SF y) as [s|s| |s m e]; simpl; [eauto|..].
  - by destruct s.
  - done.
  - by destruct s.
Qed.

Lemma div_zero_not_finite (x y : float) :
  PrimFloat.eqb y 0%float = true -> is_finite (x / y)%float = false.
Proof.
  intros Hy. destruct (eqb_zero y Hy) as [sy Ey].
  pose proof (div_spec x y) as Hd. rewrite Ey in Hd.
  unfold is_finite. apply negb_false_iff, orb_true_iff.
  destruct (Prim2SF x) as [sx|sx| |sx mx ex]; cbn in Hd.
  - left. by apply is_nan_spec.
  - right. unfold is_infinity.
    rewrite FloatAxioms.eqb_spec, abs_spec, Hd. reflexivity.
  - left. by apply is_nan_spec.
  - right. unfold is_infinity.
    rewrite FloatAxioms.eqb_spec, abs_spec, Hd. reflexivity.
Qed.

(** X21. In float64, when the values sum to zero (plus or minus),
    [mom1()] does not fail on the division: it returns one entry per
    coordinate array as usual, and none of them is finite, each being an
    infinity or NaN. *)
Theorem mom1_zero_sum (s : ScalarStatistic float) (m1 : list float) :
  PrimFloat.eqb (mom0 s) 0%float = true -> mom1 s = Ok m1 ->
  length m1 = length (indices s)
  ∧ Forall (fun x => is_finite x = false) m1.
Proof.
  intros Hz Hm1. unfold mom1 in Hm1.
  apply mapM_Ok_Forall2 in Hm1. split.
  - symmetry. by eapply Forall2_length.
  - apply Forall_forall. intros x Hx.
    apply list_elem_of_lookup in Hx as [k Hk].
    destruct (Forall2_lookup_r _ _ _ _ _ Hm1 Hk) as (idx & _ & Hidx).
    cbv beta in Hidx.
    destruct (broadcast2 nmul idx (values s)) as [iv|e]; [|done].
    rewrite bind_Ok in Hidx. injection Hidx as <-.
    by apply div_zero_not_finite.
Qed.

End ZeroSum.

Lemma mom1_zero_sum_witness :
  length [neg_infinity] = length (indices cancelling)
  ∧ Forall (fun x => is_finite x = false) [neg_infinity].
Proof.
  apply (mom1_zero_sum cancelling [neg_infinity]).
  - vm_compute. reflexivity.
  - vm_compute. reflexivity.
Defined.

(** ** Principal axes of a single direction *)

Section SingleDirection.
Context {F : Type} `{Numeric F} `{Promote F}.

Variable eig : list (list F) -> result (list F * list (list F)).
Variable argsort : list F -> list nat.

(** X22. [projected_paxes] never returns for a single direction: what
    [mom2_along] gives for it is unwrapped to a scalar, which [eig] refuses
    with [LinAlgError]; and when [mom2_along] fails itself, its error is the
    outcome.  The eigen-decomposition is not reached. *)
Theorem projected_paxes_single_direction (s : ScalarStatistic F)
    (d : arraylike F) :
  directions d = 1 ->
  projected_paxes eig argsort s d
  = match mom2_along s d with
    | Ok _ => Raise LinAlgError
    | Raise e => Raise e
    end.
Proof.
  intros Hd. unfold projected_paxes.
  destruct (mom2_along s d) as [r|e] eqn:Hr; [|done]. rewrite bind_Ok.
  destruct r as [x|m]; [done|]. exfalso.
  unfold mom2_along in Hr.
  destruct (atleast_2d_float d) as [[w n]|e] eqn:Hw; [|done].
  rewrite bind_Ok in Hr. apply project_shape in Hr as [Hne _].
  rewrite length_map, (atleast_2d_float_rows _ _ _ Hw) in Hne. done.
Qed.

End SingleDirection.

Lemma projected_paxes_single_direction_witness :
  projected_paxes eig_of_diagonal argsort_float64 block
    (Vec [PyInt 1; PyInt 0])
  = match mom2_along block (Vec [PyInt 1; PyInt 0]) with
    | Ok _ => Raise LinAlgError
    | Raise e => Raise e
    end.
Proof.
  apply (projected_paxes_single_direction eig_of_diagonal argsort_float64
           block (Vec [PyInt 1; PyInt 0])).
  reflexivity.
Defined.

(** ** Structures without pixels, and the sign of the variances *)

Section EmptySample.

Lemma matrix_ext {F : Type} `{Numeric F} (n : nat) (a b : list (list F)) :
  dims n a -> dims n b ->
  (∀ i j, i < n -> j < n -> get2 a i j = get2 b i j) -> a = b.
Proof.
  intros [Hal Har] [Hbl Hbr] Hab. apply list_eq. intros i.
  destruct (decide (i < n)) as [Hi|Hi].
  - destruct (lookup_lt_is_Some_2 a i) as [ra Hra]; [lia|].
    destruct (lookup_lt_is_Some_2 b i) as [rb Hrb]; [lia|].
    rewrite Hra, Hrb. f_equal. apply list_eq. intros j.
    rewrite Forall_forall in Har, Hbr.
    pose proof (Har ra (list_elem_of_lookup_2 _ _ _ Hra)) as Hla.
    pose proof (Hbr rb (list_elem_of_lookup_2 _ _ _ Hrb)) as Hlb.
    destruct (decide (j < n)) as [Hj|Hj].
    + specialize (Hab i j Hi Hj). unfold get2 in Hab.
      by rewrite Hra, Hrb in Hab.
    + by rewrite !(proj2 (lookup_ge_None _ _)) by lia.
  - by rewrite !(proj2 (lookup_ge_None _ _)) by lia.
Qed.

Lemma get2_zeros {F : Type} `{Numeric F} (n i j : nat) :
  i < n -> j < n -> get2 (zeros n n) i j = Some nzero.
Proof.
  intros Hi Hj. unfold get2, zeros.
  rewrite lookup_replicate_2 by done. simpl.
  by rewrite lookup_replicate_2.
Qed.

(** X23. A structure without pixels is not refused: in float64 [mom0()] is
    zero, [mom1()] returns one NaN per coordinate array, [mom2()] returns
    the zero matrix, since the NaN-excluding sum of nothing is zero, and
    [count()] is zero. *)
Theorem empty_sample_set (s : ScalarStatistic float) :
  values s = [] -> Forall (fun c => c = []) (indices s) ->
  mom0 s = 0%float
  ∧ (∃ m1, mom1 s = Ok m1 ∧ length m1 = length (indices s)
           ∧ Forall (fun x => is_nan x = true) m1)
  ∧ mom2 s = Ok (zeros (length (indices s)) (length (indices s)))
  ∧ count s = 0.
Proof.
  intros Hv Hi.
  assert (Hs : sample_aligned s).
  { unfold sample_aligned. rewrite Hv.
    eapply Forall_impl; [exact Hi|]. by intros c ->. }
  assert (Hm0 : mom0 s = 0%float) by (unfold mom0; by rewrite Hv).
  pose proof (mom1_aligned s Hs) as Hm1.
  split; [done|]. split; [|split].
  - eexists. split; [exact Hm1|]. split; [by rewrite length_map|].
    apply Forall_forall. intros x Hx.
    apply list_elem_of_fmap in Hx as (c & -> & Hc).
    rewrite Forall_forall in Hi. rewrite (Hi c Hc), Hm0. reflexivity.
  - destruct (mom2_aligned s _ Hs Hm1) as (M & HM & Hd & _ & Hget).
    rewrite HM. f_equal.
    apply (matrix_ext (length (indices s))); [done|apply dims_zeros|].
    intros i j Hi' Hj'. rewrite (Hget i j Hi' Hj'), get2_zeros by done.
    f_equal. unfold cov_entry, weights. rewrite Hv.
    by destruct (decide (i = j)).
  - unfold count. by rewrite Hv.
Qed.

End EmptySample.

Lemma empty_sample_set_witness :
  mom0 no_pixels = 0%float
  ∧ (∃ m1, mom1 no_pixels = Ok m1 ∧ length m1 = length (indices no_pixels)
           ∧ Forall (fun x => is_nan x = true) m1)
  ∧ mom2 no_pixels
    = Ok (zeros (length (indices no_pixels)) (length (indices no_pixels)))
  ∧ count no_pixels = 0.
Proof.
  apply (empty_sample_set no_pixels).
  - reflexivity.
  - repeat constructor.
Defined.

Section ExactVariance.
Local Open Scope R_scope.

Lemma sum_nonneg (l : list R) :
  Forall (fun x => 0 <= x) l -> 0 <= fold_right Rplus 0 l.
Proof. induction 1 as [|x l Hx _ IH]; simpl; lra. Qed.

(** X24. In exact arithmetic, on aligned arrays with values that are not
    negative and do not all vanish, no diagonal entry of [mom2()] is
    negative: the variance along every coordinate axis has a square root. *)
Theorem mom2_diagonal_nonneg (s : ScalarStatistic R) (m : list (list R))
    (i : nat) (x : R) :
  sample_aligned s -> Forall (fun v => 0 <= v) (values s) -> 0 < mom0 s ->
  mom2 s = Ok m -> get2 m i i = Some x -> 0 <= x.
Proof.
  intros Hs Hv Hm0 Hm Hx.
  destruct (mom2_aligned s _ Hs (mom1_aligned s Hs))
    as (M & HM & [Hl Hr] & _ & Hget).
  rewrite Hm in HM. injection HM as <-.
  assert (Hi : (i < length (indices s))%nat).
  { rewrite <- Hl. unfold get2 in Hx.
    destruct (m !! i) as [row|] eqn:Erow; [|done].
    by eapply lookup_lt_Some. }
  rewrite (Hget i i Hi Hi) in Hx. injection Hx as <-.
  unfold cov_entry. rewrite decide_True by done.
  rewrite nansum_exact. apply sum_nonneg.
  apply Forall_forall. intros y Hy.
  apply list_elem_of_lookup in Hy as [k Hk].
  apply lookup_zip_with_Some in Hk as (w & z & -> & Hw & Hz).
  apply list_lookup_fmap_Some in Hz as (z0 & -> & _).
  unfold weights in Hw.
  apply list_lookup_fmap_Some in Hw as (v & -> & Hvk).
  rewrite Forall_forall in Hv.
  pose proof (Hv v (list_elem_of_lookup_2 _ _ _ Hvk)) as Hv0.
  exact_arith.
  apply Rmult_le_pos; [|nra].
  apply Rmult_le_pos; [done|]. left. by apply Rinv_0_lt_compat.
Qed.

End ExactVariance.

Lemma mom2_diagonal_nonneg_witness : (0 <= 1)%R.
Proof.
  apply (mom2_diagonal_nonneg cube_exact
           [[0; 0; 0]; [0; 0; 0]; [0; 0; 1]]%R 2 1%R).
  - repeat constructor.
  - repeat constructor; lra.
  - unfold mom0, nansum, np_sum, cube_exact. simpl. lra.
  - exact cube_exact_mom2.
  - reflexivity.
Defined.
